(** * Ukkonen suffix-tree construction (src/ukkonen.py): embedding and properties

    The Python program builds a suffix tree as a graph of mutable [Node]
    objects that share one mutable [End] object, and reads the suffix order
    off the tree by a depth-first walk.  The embedding keeps the objects in
    a store indexed by addresses, threads the store through a small
    state-and-exception monad, and gives every loop and the recursion of
    the walk a fuel argument.  Limits of the interpreter (memory, the
    depth of recursion that [get_suffix_tree_aux] may reach on a deep
    tree) are not part of the model.

    The properties are proved through a tree value that the store is
    shown to hold at every step: the construction keeps it well formed,
    with one leaf for each suffix that has been added, and the walk reads
    its leaves from left to right, which is the order of the suffixes. *)

From Stdlib Require Import ZArith String Ascii Lia Bool.
From stdpp Require Import base tactics option list sorting.

Local Open Scope Z_scope.

(** ** Python values *)

(** A Python [str] is a sequence of code points; [ord] is then the identity. *)
Definition str := list Z.

Definition ord_ascii (c : ascii) : Z := Z.of_N (N_of_ascii c).

Definition str_of_string (t : string) : str :=
  map ord_ascii (list_ascii_of_string t).

(** [ord('$')] *)
Definition dollar : Z := 36.

Inductive exn := IndexError | TypeError | AttributeError.

(** Outcome of running Python code: a value, a raised exception, a
    reference that is not in the store ([Stuck], which no Python run can
    produce), or a loop that used up its fuel. *)
Inductive result (A : Type) :=
| Ok (a : A)
| Raise (e : exn)
| Stuck
| OutOfFuel.
Arguments Ok {A} a.
Arguments Raise {A} e.
Arguments Stuck {A}.
Arguments OutOfFuel {A}.

(** [seq[k]] for a Python list or string: negative indices count from the
    end, anything else out of range raises [IndexError]. *)
Definition py_norm (len k : Z) : option nat :=
  if (0 <=? k) && (k <? len) then Some (Z.to_nat k)
  else if (- len <=? k) && (k <? 0) then Some (Z.to_nat (len + k))
  else None.

Definition py_index {A} (l : list A) (k : Z) : result A :=
  match py_norm (Z.of_nat (length l)) k with
  | Some p => match l !! p with Some x => Ok x | None => Raise IndexError end
  | None => Raise IndexError
  end.

(** [seq[k] = v] *)
Definition py_setitem {A} (l : list A) (k : Z) (v : A) : result (list A) :=
  match py_norm (Z.of_nat (length l)) k with
  | Some p => Ok (<[p:=v]> l)
  | None => Raise IndexError
  end.

(** ** The object store *)

Definition addr := nat.

(** The [end] attribute of a node: the shared [End] object or an integer. *)
Inductive EndVal :=
| EndRef (e : addr)
| EndInt (z : Z).

Record Node := mkNode {
  incoming : option addr;
  start : Z;
  end_ : EndVal;
  suffix_link : option addr;
  connected_to : list Z;
  j : option Z;
  leaf_node : bool;
  child_nodes : list (option addr)
}.

(** [nodes]: the [Node] objects; [ends]: the [end_pointer] of each [End]
    object. *)
Record World := mkWorld {
  nodes : list Node;
  ends : list Z
}.

Definition M (A : Type) : Type := World -> result (A * World).

Definition ret {A} (a : A) : M A := fun w => Ok (a, w).

Definition bind {A B} (m : M A) (k : A -> M B) : M B :=
  fun w =>
    match m w with
    | Ok (a, w') => k a w'
    | Raise e => Raise e
    | Stuck => Stuck
    | OutOfFuel => OutOfFuel
    end.

Definition lift {A} (r : result A) : M A :=
  fun w =>
    match r with
    | Ok a => Ok (a, w)
    | Raise e => Raise e
    | Stuck => Stuck
    | OutOfFuel => OutOfFuel
    end.

Definition raise {A} (e : exn) : M A := fun _ => Raise e.

Definition out_of_fuel {A} : M A := fun _ => OutOfFuel.

Declare Scope py_scope.
Delimit Scope py_scope with py.
Notation "'let*' x ':=' m 'in' k" := (bind m (fun x => k))
  (at level 10, x pattern, m at level 100, k at level 200) : py_scope.
Notation "m ';;' k" := (bind m (fun _ => k))
  (at level 100, k at level 200, right associativity) : py_scope.
Local Open Scope py_scope.

(** *** class End *)

(** [End()] *)
Definition End_new : M addr :=
  fun w => Ok (length (ends w), mkWorld (nodes w) (ends w ++ [-1])).

Definition get_end_pointer (e : addr) : M Z :=
  fun w => match ends w !! e with Some v => Ok (v, w) | None => Stuck end.

(** [End.extend] *)
Definition extend (e : addr) : M unit :=
  fun w =>
    match ends w !! e with
    | Some v => Ok (tt, mkWorld (nodes w) (<[e:=v + 1]> (ends w)))
    | None => Stuck
    end.

(** *** class Node *)

(** [[None] * 91] *)
Definition empty_slots : list (option addr) := replicate 91 None.
Arguments empty_slots : simpl never.

(** [Node(start, end, incoming, suffix_link, leaf_node)] *)
Definition Node_new (start : Z) (end_ : EndVal) (incoming suffix_link : option addr)
    (leaf_node : bool) : M addr :=
  fun w =>
    Ok (length (nodes w),
        mkWorld (nodes w ++ [mkNode incoming start end_ suffix_link [] None leaf_node
                               empty_slots])
                (ends w)).

Definition get_node (a : addr) : M Node :=
  fun w => match nodes w !! a with Some nd => Ok (nd, w) | None => Stuck end.

Definition put_node (a : addr) (nd : Node) : M unit :=
  fun w =>
    match nodes w !! a with
    | Some _ => Ok (tt, mkWorld (<[a:=nd]> (nodes w)) (ends w))
    | None => Stuck
    end.

Definition set_start (nd : Node) (v : Z) : Node :=
  mkNode (incoming nd) v (end_ nd) (suffix_link nd) (connected_to nd) (j nd)
         (leaf_node nd) (child_nodes nd).

Definition set_suffix_link (nd : Node) (v : option addr) : Node :=
  mkNode (incoming nd) (start nd) (end_ nd) v (connected_to nd) (j nd)
         (leaf_node nd) (child_nodes nd).

Definition set_j (nd : Node) (v : option Z) : Node :=
  mkNode (incoming nd) (start nd) (end_ nd) (suffix_link nd) (connected_to nd) v
         (leaf_node nd) (child_nodes nd).

Definition set_child_nodes (nd : Node) (v : list (option addr)) : Node :=
  mkNode (incoming nd) (start nd) (end_ nd) (suffix_link nd) (connected_to nd) (j nd)
         (leaf_node nd) v.

(** A variable that holds a node or [None]; using [None] as a node raises
    [AttributeError]. *)
Definition the_node (o : option addr) : M addr :=
  match o with Some a => ret a | None => raise AttributeError end.

(** [Node.__getitem__] *)
Definition Node_getitem (a : addr) (index : Z) : M (option addr) :=
  let* nd := get_node a in
  lift (py_index (child_nodes nd) index).

(** [Node.__setitem__] *)
Definition Node_setitem (a : addr) (index : Z) (value : option addr) : M unit :=
  let* nd := get_node a in
  let* l := lift (py_setitem (child_nodes nd) index value) in
  put_node a (set_child_nodes nd l).

(** [Node.get_end]: the [try] succeeds exactly when [end] is an [End]. *)
Definition get_end (a : addr) : M Z :=
  let* nd := get_node a in
  match end_ nd with
  | EndRef e => get_end_pointer e
  | EndInt z => ret z
  end.

(** [Node.get_length] *)
Definition get_length (a : addr) : M Z :=
  let* e := get_end a in
  let* nd := get_node a in
  ret (e - start nd).

(** [Node.is_leaf] *)
Definition is_leaf (a : addr) : M bool :=
  let* nd := get_node a in ret (leaf_node nd).

(** [Node.get_start] *)
Definition get_start (a : addr) : M Z :=
  let* nd := get_node a in ret (start nd).

(** *** class Ukkonen *)

(** The attributes of a [Ukkonen] object. *)
Record Ukkonen := mkUkkonen {
  root : addr;
  active_node : option addr;
  previous_node : option addr;
  end_obj : addr;
  active_length : Z
}.

Definition set_active_node (self : Ukkonen) (v : option addr) : Ukkonen :=
  mkUkkonen (root self) v (previous_node self) (end_obj self) (active_length self).

Definition set_previous_node (self : Ukkonen) (v : option addr) : Ukkonen :=
  mkUkkonen (root self) (active_node self) v (end_obj self) (active_length self).

Definition set_active_length (self : Ukkonen) (v : Z) : Ukkonen :=
  mkUkkonen (root self) (active_node self) (previous_node self) (end_obj self) v.

(** [a == b] on node variables is object identity. *)
Definition same_node (a : option addr) (b : addr) : bool :=
  match a with Some x => Nat.eqb x b | None => false end.

(** [Ukkonen.skip_count]; returns the node together with the updated
    [self]. *)
Fixpoint skip_count (fuel : nat) (self : Ukkonen) (text : str) (current_pointer : Z)
    (a_node : addr) (a_length : Z) : M (addr * Ukkonen) :=
  match fuel with
  | O => out_of_fuel
  | S fuel' =>
    let* leaf := (if a_length =? 0 then ret true else is_leaf a_node) in
    if leaf : bool then ret (a_node, self)
    else
      let self := set_active_length (set_active_node self (Some a_node)) a_length in
      let* c := lift (py_index text (current_pointer - a_length)) in
      let lastj_index := c - 36 in
      let* edge := Node_getitem a_node lastj_index in
      match edge with
      | None => ret (a_node, self)
      | Some edge =>
        let* len := get_length edge in
        if len >? a_length then ret (a_node, self)
        else
          let* len' := get_length edge in
          skip_count fuel' self text current_pointer edge (a_length - len')
      end
  end.

(** The branch [if active_edge is None] of the loop body: a new leaf under
    the active node [an]. *)
Definition new_leaf (self : Ukkonen) (i j : Z) (an : addr) (char_rem : Z) : M unit :=
  let* nw := Node_new (i - active_length self) (EndRef (end_obj self)) None
                      (Some (root self)) true in
  Node_setitem an char_rem (Some nw);;
  let* ch := Node_getitem an char_rem in
  let* ch := the_node ch in
  let* nd := get_node ch in
  put_node ch (set_j nd (Some j)).

(** The [elif] branch of the loop body: the edge to [active_edge] is split
    by a new internal node, which gets the old node and a new leaf as
    children. *)
Definition split_edge (self : Ukkonen) (text : str) (i j : Z) (an : addr)
    (char_rem : Z) (active_edge : addr) : M unit :=
  let* st := get_start active_edge in
  let* st' := get_start active_edge in
  let* existing_char_node :=
    Node_new st (EndInt (st' + active_length self - 1)) None
             (Some (root self)) false in
  Node_setitem an char_rem (Some existing_char_node);;
  let* st := get_start active_edge in
  let* c := lift (py_index text (st - 1 + active_length self)) in
  let continue_index := c - 36 in
  let* nd := get_node active_edge in
  put_node active_edge (set_start nd (start nd + (active_length self - 1)));;
  Node_setitem existing_char_node continue_index (Some active_edge);;
  let* c := lift (py_index text (i - 1)) in
  let new_node_index := c - 36 in
  let* nw := Node_new (i - 1) (EndRef (end_obj self)) None
                      (Some (root self)) true in
  Node_setitem existing_char_node new_node_index (Some nw);;
  let* ch := Node_getitem existing_char_node new_node_index in
  let* ch := the_node ch in
  let* nd := get_node ch in
  put_node ch (set_j nd (Some j)).

(** One pass through the body of the inner [while j < i] loop of
    [run_algorithm].  The boolean tells whether the pass ran to the end of
    the body ([true]: [j] was incremented) or left the loop by [break]. *)
Definition extension (fuel : nat) (self : Ukkonen) (text : str) (i j : Z)
    : M (bool * Z * Ukkonen) :=
  let self :=
    if same_node (active_node self) (root self)
    then set_active_length self (i - j) else self in
  let* an := the_node (active_node self) in
  let* r := skip_count fuel self text i an (active_length self) in
  let self := snd r in
  let* c := lift (py_index text (i - active_length self)) in
  let char_rem := c - 36 in
  let* an := the_node (active_node self) in
  let* active_edge := Node_getitem an char_rem in
  let* continue :=
    match active_edge with
    | None => new_leaf self i j an char_rem;; ret true
    | Some active_edge =>
      let* x := lift (py_index text (i - 1)) in
      let* st := get_start active_edge in
      let* y := lift (py_index text (st + active_length self - 1)) in
      if negb (x =? y) then split_edge self text i j an char_rem active_edge;; ret true
      else ret false
    end in
  if continue : bool then
    let* an := the_node (active_node self) in
    let* nd := get_node an in
    ret (true, j + 1, set_active_node self (suffix_link nd))
  else ret (false, j, self).

(** The inner loop [while j < i]. *)
Fixpoint extensions (fuel : nat) (fuel_skip : nat) (self : Ukkonen) (text : str)
    (i j : Z) : M (Z * Ukkonen) :=
  match fuel with
  | O => out_of_fuel
  | S fuel' =>
    if j <? i then
      let* r := extension fuel_skip self text i j in
      match r with
      | (true, j, self) => extensions fuel' fuel_skip self text i j
      | (false, j, self) => ret (j, self)
      end
    else ret (j, self)
  end.

(** The outer loop [while i <= n]. *)
Fixpoint phases (fuel : nat) (fuel_in : nat) (self : Ukkonen) (text : str)
    (n i j : Z) : M Ukkonen :=
  match fuel with
  | O => out_of_fuel
  | S fuel' =>
    if i <=? n then
      extend (end_obj self);;
      let self := set_previous_node self None in
      let* r := extensions fuel_in fuel_in self text i j in
      let j := fst r in
      let self := snd r in
      let i := i + 1 in
      let self := set_active_length self (active_length self + 1) in
      phases fuel' fuel_in self text n i j
    else ret self
  end.

(** [Ukkonen.run_algorithm] *)
Definition run_algorithm (fuel : nat) (self : Ukkonen) (text : str) : M Ukkonen :=
  let text := text ++ [dollar] in
  let i := 0 in
  let j := 0 in
  let n := Z.of_nat (length text) in
  phases fuel fuel self text n i j.

(** The assignments of [Ukkonen.__init__] that come before the call of
    [run_algorithm]. *)
Definition Ukkonen_attrs (end_ : addr) : M Ukkonen :=
  let* root := Node_new 0 (EndRef end_) None None false in
  let* nd := get_node root in
  put_node root (set_suffix_link nd (Some root));;
  ret (mkUkkonen root (Some root) None end_ 0).

(** [Ukkonen.__init__] *)
Definition Ukkonen_init (fuel : nat) (text : str) (end_ : addr) : M Ukkonen :=
  let* self := Ukkonen_attrs end_ in
  run_algorithm fuel self text.

(** [Ukkonen.get_suffix_tree_aux]; the list object [suffix_tree] that the
    calls share is passed through them. *)
Fixpoint get_suffix_tree_aux (fuel : nat) (node : addr) (suffix_tree : list Z)
    : M (list Z) :=
  match fuel with
  | O => out_of_fuel
  | S fuel' =>
    let* nd := get_node node in
    if leaf_node nd then
      match j nd with
      | Some jv => ret (suffix_tree ++ [jv + 1])
      | None => raise TypeError
      end
    else
      fold_left
        (fun (acc : M (list Z)) (child : option addr) =>
           let* suffix_tree := acc in
           match child with
           | Some child => get_suffix_tree_aux fuel' child suffix_tree
           | None => ret suffix_tree
           end)
        (child_nodes nd) (ret suffix_tree)
  end.

(** [Ukkonen.get_suffix_tree] *)
Definition get_suffix_tree (fuel : nat) (self : Ukkonen) : M (list Z) :=
  get_suffix_tree_aux fuel (root self) [].

(** *** The module *)

(** The default value [End()] of the parameter [end] of [Ukkonen.__init__]
    is evaluated once, when the class body runs: it is the first [End]
    object of the store. *)
Definition default_End : addr := 0%nat.

Definition world0 : World := mkWorld [] [-1].

(** [Ukkonen(text)] *)
Definition Ukkonen_default (fuel : nat) (text : str) : M Ukkonen :=
  Ukkonen_init fuel text default_End.

(** [Ukkonen(text, End())] *)
Definition Ukkonen_fresh (fuel : nat) (text : str) : M Ukkonen :=
  let* e := End_new in Ukkonen_init fuel text e.

(** [Ukkonen(text).get_suffix_tree()] *)
Definition suffix_order (fuel : nat) (text : str) : M (list Z) :=
  let* u := Ukkonen_default fuel text in get_suffix_tree fuel u.

Definition value {A} (r : result (A * World)) : result A :=
  match r with
  | Ok (a, _) => Ok a
  | Raise e => Raise e
  | Stuck => Stuck
  | OutOfFuel => OutOfFuel
  end.


(** [m] run [k] times in a row, collecting the results. *)
Fixpoint repeat_calls {A} (k : nat) (m : M A) : M (list A) :=
  match k with
  | O => ret []
  | S k' => let* a := m in let* l := repeat_calls k' m in ret (a :: l)
  end.

(** *** The input contract *)

(** The alphabet of the input: the code points 37 to 126. *)
Definition in_alphabet (c : Z) : bool := (37 <=? c) && (c <=? 126).

Definition valid_input (text : str) : bool := forallb in_alphabet text.

(** The number of leaf objects in the store. *)
Definition count_leaves (w : World) : nat :=
  length (filter (fun nd => leaf_node nd = true) (nodes w)).

(** *** Example states *)

Definition state_of (r : result (Ukkonen * World)) : Ukkonen * World :=
  match r with
  | Ok x => x
  | _ => (mkUkkonen 0%nat None None 0%nat 0, world0)
  end.

(** The tree of ["a"]. *)
Definition tree_a : Ukkonen * World :=
  state_of (Ukkonen_default 10 (str_of_string "a") world0).

(** The state of the construction for ["aa"] when phase 2 starts: phases 0
    and 1 are done (the loop is run with bound 1). *)
Definition aa_before_phase2 : Ukkonen * World :=
  state_of
    ((let* self := Ukkonen_attrs default_End in
      phases 10 10 self (str_of_string "aa$") 1 0 0) world0).

(** The store of [aa_before_phase2] once phase 2 has advanced the [End]. *)
Definition aa_phase2 : World :=
  match extend default_End (snd aa_before_phase2) with
  | Ok (_, w) => w
  | _ => world0
  end.

(** *** Invariants of the construction *)

Definition node_ok (r e : addr) (len : nat) (nd : Node) : Prop :=
  suffix_link nd = Some r /\
  (leaf_node nd = true -> end_ nd = EndRef e) /\
  (forall b, Some b ∈ child_nodes nd -> (r <= b < len)%nat).

Definition owned (self : Ukkonen) (w : World) : Prop :=
  (root self < length (nodes w))%nat /\
  (forall a nd, (root self <= a)%nat -> nodes w !! a = Some nd ->
                node_ok (root self) (end_obj self) (length (nodes w)) nd) /\
  (exists a, active_node self = Some a /\ (root self <= a < length (nodes w))%nat).

(** What a step may change: nodes below [r] and all [End] objects stay. *)
Definition frame (r : addr) (w w1 : World) : Prop :=
  ends w1 = ends w /\
  (length (nodes w) <= length (nodes w1))%nat /\
  (forall a, (a < r)%nat -> nodes w1 !! a = nodes w !! a).

(** The [End] objects after a step: the one at [e] advanced by [k], the
    others as before. *)
Definition ends_advanced (e : addr) (k : Z) (w w1 : World) : Prop :=
  length (ends w1) = length (ends w) /\
  (forall v, ends w !! e = Some v -> ends w1 !! e = Some (v + k)) /\
  (forall e', e' <> e -> ends w1 !! e' = ends w !! e').

Definition nodes_frame (r : addr) (w w1 : World) : Prop :=
  (length (nodes w) <= length (nodes w1))%nat /\
  (forall a, (a < r)%nat -> nodes w1 !! a = nodes w !! a).

(** Every node of the tree of [self] has its suffix link on the root. *)
Definition links_to_root (self : Ukkonen) (w : World) : Prop :=
  forall a nd, (root self <= a)%nat -> nodes w !! a = Some nd ->
               suffix_link nd = Some (root self).

(** The states that the construction of [Ukkonen(text, e)], started in the
    store [w0], goes through: the state in which [run_algorithm] starts
    and the states after each step of its loops (for [text] with the
    terminator appended). *)
Inductive constructing (e : addr) (w0 : World) (text : str) : Ukkonen -> World -> Prop :=
| cs_start self w :
    Ukkonen_attrs e w0 = Ok (self, w) -> constructing e w0 text self w
| cs_extend self w u w1 :
    constructing e w0 text self w -> extend (end_obj self) w = Ok (u, w1) ->
    constructing e w0 text (set_previous_node self None) w1
| cs_extension self w fuel i j b j1 self1 w1 :
    constructing e w0 text self w ->
    extension fuel self text i j w = Ok ((b, j1, self1), w1) ->
    constructing e w0 text self1 w1
| cs_next self w :
    constructing e w0 text self w ->
    constructing e w0 text (set_active_length self (active_length self + 1)) w.

(** ** The tree that the store holds *)

(** *** The suffix tree as a value *)

(** The tree that the nodes of the store form, below the root: a leaf with
    its address, [start] and [j]; an internal node with its address,
    [start], [end] and the content of its 91 slots. *)
#[local] Unset Elimination Schemes.
Inductive tree :=
| TLeaf (a : addr) (st : Z) (jv : Z)
| TInner (a : addr) (st en : Z) (kids : list (option tree)).
#[local] Set Elimination Schemes.

Definition taddr (t : tree) : addr :=
  match t with TLeaf a _ _ => a | TInner a _ _ _ => a end.

Definition tstart (t : tree) : Z :=
  match t with TLeaf _ st _ => st | TInner _ st _ _ => st end.

Definition opt_list {A B} (f : A -> list B) (o : option A) : list B :=
  match o with Some x => f x | None => [] end.

(** The suffix indices of the leaves, in the order of the depth-first walk. *)
Fixpoint leaves (t : tree) : list Z :=
  match t with
  | TLeaf _ _ jv => [jv]
  | TInner _ _ _ kids => flat_map (opt_list leaves) kids
  end.

Definition leaves_kids (kids : list (option tree)) : list Z :=
  flat_map (opt_list leaves) kids.

Fixpoint addrs (t : tree) : list addr :=
  match t with
  | TLeaf a _ _ => [a]
  | TInner a _ _ kids => a :: flat_map (opt_list addrs) kids
  end.

Definition addrs_kids (kids : list (option tree)) : list addr :=
  flat_map (opt_list addrs) kids.

(** The number of nodes on the longest path of the tree. *)
Fixpoint height (t : tree) : nat :=
  match t with
  | TLeaf _ _ _ => 1%nat
  | TInner _ _ _ kids => S (foldr (fun o h => Nat.max (from_option height 0%nat o) h) 0%nat kids)
  end.

Definition height_kids (kids : list (option tree)) : nat :=
  foldr (fun o h => Nat.max (from_option height 0%nat o) h) 0%nat kids.

(** [s[k]] for an index in range. *)
Definition char_at (s : str) (k : Z) : Z := nth (Z.to_nat k) s 0.

(** [s[a:a+m] == s[b:b+m]] *)
Definition agree (s : str) (a b m : Z) : Prop :=
  forall k, 0 <= k < m -> char_at s (a + k) = char_at s (b + k).

(** The slot of a character. *)
Definition slot_of (c : Z) : nat := Z.to_nat (c - 36).

(** A subtree that hangs at string depth [d] is well formed: a leaf starts
    where its suffix is at depth [d]; an internal node has a nonempty label
    inside [s[0:lim]], which every suffix below it carries at depth [d],
    has a leaf below it, and each of its children sits in the slot of the
    first character of its label. *)
#[local] Unset Elimination Schemes.
Inductive wf (s : str) (lim : Z) : Z -> tree -> Prop :=
| wf_leaf d a st jv :
    st = jv + d -> 0 <= jv -> 0 <= d -> st <= lim ->
    wf s lim d (TLeaf a st jv)
| wf_inner d a st en kids :
    0 <= st < en -> en <= lim -> 0 <= d ->
    leaves_kids kids <> [] ->
    (forall jv, jv ∈ leaves_kids kids -> agree s st (jv + d) (en - st)) ->
    length kids = 91%nat ->
    (forall c t, kids !! c = Some (Some t) ->
                 char_at s (tstart t) = Z.of_nat c + 36 /\
                 wf s lim (d + (en - st)) t) ->
    wf s lim d (TInner a st en kids).
#[local] Set Elimination Schemes.

Definition wf_kids (s : str) (lim d : Z) (kids : list (option tree)) : Prop :=
  length kids = 91%nat /\
  forall c t, kids !! c = Some (Some t) ->
              char_at s (tstart t) = Z.of_nat c + 36 /\ wf s lim d t.

(** [s[b:b+m]] can be read along the edge into [t] and on below it
    ([in_edge]), or from a node with the children [kids] ([in_kids]). *)
Inductive in_edge (s : str) : tree -> Z -> Z -> Prop :=
| ie_leaf a st jv b m :
    agree s st b m -> in_edge s (TLeaf a st jv) b m
| ie_short a st en kids b m :
    m < en - st -> agree s st b m -> in_edge s (TInner a st en kids) b m
| ie_long a st en kids b m :
    0 <= en - st <= m -> agree s st b (en - st) ->
    in_kids s kids (b + (en - st)) (m - (en - st)) ->
    in_edge s (TInner a st en kids) b m
with in_kids (s : str) : list (option tree) -> Z -> Z -> Prop :=
| ik_done kids b m : m <= 0 -> in_kids s kids b m
| ik_step kids b m t :
    0 < m -> kids !! slot_of (char_at s b) = Some (Some t) ->
    in_edge s t b m -> in_kids s kids b m.

(** The children of the node at the end of the path [p] (a list of slots,
    from the root). *)
Fixpoint kids_at (kids : list (option tree)) (p : list nat) : option (list (option tree)) :=
  match p with
  | [] => Some kids
  | c :: p' =>
    match kids !! c with
    | Some (Some (TInner _ _ _ kids')) => kids_at kids' p'
    | _ => None
    end
  end.

(** Its address ([r] is the address of the root). *)
Fixpoint addr_at (r : addr) (kids : list (option tree)) (p : list nat) : addr :=
  match p with
  | [] => r
  | c :: p' =>
    match kids !! c with
    | Some (Some (TInner a _ _ kids')) => addr_at a kids' p'
    | _ => r
    end
  end.

(** Its string depth. *)
Fixpoint depth_at (kids : list (option tree)) (p : list nat) : Z :=
  match p with
  | [] => 0
  | c :: p' =>
    match kids !! c with
    | Some (Some (TInner _ st en kids')) => (en - st) + depth_at kids' p'
    | _ => 0
    end
  end.

(** The labels along the path [p] spell [s[jx+d:...]]. *)
Fixpoint on_path (s : str) (jx d : Z) (kids : list (option tree)) (p : list nat) : Prop :=
  match p with
  | [] => True
  | c :: p' =>
    match kids !! c with
    | Some (Some (TInner _ st en kids')) =>
      agree s st (jx + d) (en - st) /\ on_path s jx (d + (en - st)) kids' p'
    | _ => False
    end
  end.

(** [t] with [x] added to its [start]. *)
Definition shift_start (t : tree) (x : Z) : tree :=
  match t with
  | TLeaf a st jv => TLeaf a (st + x) jv
  | TInner a st en kids => TInner a (st + x) en kids
  end.

(** The children of a new node. *)
Definition no_kids : list (option tree) := replicate 91 None.
Arguments no_kids : simpl never.

(** The internal node that takes the place of [t] when its edge is split
    after [m] characters, in phase [i] at extension [j]: [t] goes on below
    it and the leaf of suffix [j] is new ([a0] and [a1] are the addresses
    of the new nodes, [c1] and [c2] the characters that lead to the two
    children). *)
Definition split_node (a0 a1 : addr) (t : tree) (m i j c1 c2 : Z) : tree :=
  TInner a0 (tstart t) (tstart t + m)
         (<[slot_of c2:=Some (TLeaf a1 (i - 1) j)]>
            (<[slot_of c1:=Some (shift_start t m)]> no_kids)).

(** The tree with slot [c] of the node at path [p] set to [t]. *)
Fixpoint set_slot (kids : list (option tree)) (p : list nat) (c : nat) (t : option tree)
    : list (option tree) :=
  match p with
  | [] => <[c:=t]> kids
  | c0 :: p' =>
    match kids !! c0 with
    | Some (Some (TInner a st en kids')) =>
      <[c0:=Some (TInner a st en (set_slot kids' p' c t))]> kids
    | _ => kids
    end
  end.

(** The store holds the tree [t]; its leaves end at the [End] object [e]. *)
Inductive repr (w : World) (e : addr) : tree -> Prop :=
| repr_leaf a st jv nd :
    nodes w !! a = Some nd ->
    start nd = st -> end_ nd = EndRef e -> j nd = Some jv -> leaf_node nd = true ->
    repr w e (TLeaf a st jv)
| repr_inner a st en kids nd :
    nodes w !! a = Some nd ->
    start nd = st -> end_ nd = EndInt en -> leaf_node nd = false ->
    child_nodes nd = map (option_map taddr) kids ->
    (forall c t, kids !! c = Some (Some t) -> repr w e t) ->
    repr w e (TInner a st en kids).

Definition repr_kids (w : World) (e : addr) (kids : list (option tree)) : Prop :=
  forall c t, kids !! c = Some (Some t) -> repr w e t.

(** The store holds the tree with the children [kids] under the root [r],
    each node once. *)
Definition repr_root (w : World) (r e : addr) (kids : list (option tree)) : Prop :=
  (exists nd, nodes w !! r = Some nd /\ leaf_node nd = false /\
              child_nodes nd = map (option_map taddr) kids) /\
  repr_kids w e kids /\
  NoDup (r :: addrs_kids kids).

(** [0, 1, ..., j-1] *)
Definition zrange (j : Z) : list Z := map Z.of_nat (seq 0 (Z.to_nat j)).

(** The tree in phase [i], when the suffixes before [j] have their leaves:
    the store holds a well-formed tree whose leaves are these suffixes. *)
Definition tree_inv (s : str) (i j : Z) (self : Ukkonen) (w : World)
    (kids : list (option tree)) : Prop :=
  owned self w /\
  repr_root w (root self) (end_obj self) kids /\
  (forall a, a ∈ addrs_kids kids -> (root self <= a < length (nodes w))%nat) /\
  wf_kids s (i - 1) 0 kids /\
  leaves_kids kids ≡ₚ zrange j.

(** The active point of extension [j] in phase [i]: the node [x] at the end
    of the path [p], which spells the start of suffix [j], and the length
    [l], one more than what is yet to be read below [x] of [s[j:i-1]]. *)
Definition active_at (s : str) (i j : Z) (r : addr) (kids : list (option tree))
    (p : list nat) (l : Z) (x : addr) : Prop :=
  exists ks, kids_at kids p = Some ks /\ x = addr_at r kids p /\
             on_path s j 0 kids p /\
             l = i - j - depth_at kids p /\ 1 <= l /\
             in_kids s ks (j + depth_at kids p) (l - 1).

(** The active point after [skip_count]: the edge to follow, when there is
    one, is longer than what is yet to be read. *)
Definition landed (s : str) (i j : Z) (r : addr) (kids : list (option tree))
    (p : list nat) (l : Z) (x : addr) : Prop :=
  active_at s i j r kids p l x /\
  forall ks a st en kids',
    kids_at kids p = Some ks ->
    ks !! slot_of (char_at s (i - l)) = Some (Some (TInner a st en kids')) ->
    l - 1 < en - st.

(** The edge into [t] is longer than [m]. *)
Definition edge_longer (t : tree) (m : Z) : Prop :=
  match t with TLeaf _ _ _ => True | TInner _ st en _ => m < en - st end.

(** What one pass of the inner loop, run in phase [i] for suffix [j] from
    [self], [w] and the tree [kids], ends in: either the leaf of suffix [j]
    is in the tree and the active node is the root, or the pass left the
    loop, nothing is changed, the character of the phase occurs before, and
    the active point is that of suffix [j] in phase [i+1]. *)
Definition ext_post (s : str) (i j : Z) (self : Ukkonen) (w : World)
    (kids : list (option tree)) (b : bool) (j1 : Z) (self1 : Ukkonen) (w1 : World) : Prop :=
  root self1 = root self /\ end_obj self1 = end_obj self /\ ends w1 = ends w /\
  if b then
    j1 = j + 1 /\ active_node self1 = Some (root self) /\
    exists kids1,
      tree_inv s i (j + 1) self1 w1 kids1 /\
      (j + 1 < i -> active_at s i (j + 1) (root self) kids1 [] (i - (j + 1)) (root self))
  else
    j1 = j /\ w1 = w /\ tree_inv s i j self1 w kids /\
    (exists pos, 0 <= pos < i - 1 /\ char_at s pos = char_at s (i - 1)) /\
    exists p1 x1,
      active_node self1 = Some x1 /\
      active_at s (i + 1) j (root self) kids p1 (active_length self1 + 1) x1.

(** The store [w'] has the node at [x] as in [w] but for slot [c], which
    holds [v]. *)
Definition slot_written (w w' : World) (x : addr) (c : nat) (v : option addr) : Prop :=
  exists nd, nodes w !! x = Some nd /\
             nodes w' !! x = Some (set_child_nodes nd (<[c:=v]> (child_nodes nd))).

(** The body of the loop [for child in node.child_nodes]. *)
Definition visit (fuel : nat) (acc : M (list Z)) (child : option addr) : M (list Z) :=
  let* suffix_tree := acc in
  match child with
  | Some child => get_suffix_tree_aux fuel child suffix_tree
  | None => ret suffix_tree
  end.

(** What the inner loop of phase [i] ends in. *)
Definition exts_post (s : str) (i j : Z) (self : Ukkonen) (w : World)
    (j1 : Z) (self1 : Ukkonen) (w1 : World) : Prop :=
  root self1 = root self /\ end_obj self1 = end_obj self /\ ends w1 = ends w /\
  j <= j1 <= i /\
  exists kids1,
    tree_inv s i j1 self1 w1 kids1 /\
    ((j1 = i /\ active_node self1 = Some (root self)) \/
     (j1 < i /\
      (exists pos, 0 <= pos < i - 1 /\ char_at s pos = char_at s (i - 1)) /\
      exists p1 x1,
        active_node self1 = Some x1 /\
        active_at s (i + 1) j1 (root self) kids1 p1 (active_length self1 + 1) x1)).

(** The state when the outer loop tests [i <= n], for [i >= 1]: the
    tree of phase [i-1] with the leaves of the suffixes before [j], the
    active point of suffix [j] and, if [j] stayed behind, an earlier
    place of the character of phase [i-1]. *)
Definition phase_inv (s : str) (i j : Z) (self : Ukkonen) (w : World) : Prop :=
  exists kids,
    tree_inv s (i - 1) j self w kids /\ 0 <= j <= i - 1 /\
    (j < i - 1 -> exists pos, 0 <= pos < i - 2 /\ char_at s pos = char_at s (i - 2)) /\
    exists p x L,
      active_node self = Some x /\ active_at s i j (root self) kids p L x /\
      (p <> [] -> active_length self = L).

(** *** The order of the suffixes *)

(** The lexicographic order of strings, by code point; the terminator is
    below every symbol of the alphabet. *)
Fixpoint lex_le (u v : str) : bool :=
  match u, v with
  | [], _ => true
  | _ :: _, [] => false
  | a :: u', b :: v' => (a <? b) || ((a =? b) && lex_le u' v')
  end.

Definition lex_order (u v : str) : Prop := lex_le u v = true.

#[global] Instance lex_order_dec u v : Decision (lex_order u v).
Proof. unfold lex_order. apply _. Defined.

(** The nonempty suffixes of [s], by start. *)
Definition suffixes (s : str) : list str := map (fun k => drop k s) (seq 0 (length s)).

(** The start of the suffix [u] of [s], counted from 1. *)
Definition start_offset (s u : str) : Z := Z.of_nat (length s - length u) + 1.

(** The suffixes of [s] sorted, each given by its start. *)
Definition sorted_suffix_offsets (s : str) : list Z :=
  map (start_offset s) (merge_sort lex_order (suffixes s)).

(** [s[k:]] *)
Definition suffix (s : str) (k : Z) : str := drop (Z.to_nat k) s.

(** The order of the suffixes from depth [d] on. *)
Definition below (s : str) (d : Z) (a b : Z) : Prop := lex_order (suffix s (a + d)) (suffix s (b + d)).

(** A store in which the module is loaded: the default [End] object is
    there, advanced any number of times. *)
Definition loaded (w : World) : Prop :=
  exists E, ends w !! default_End = Some E /\ -1 <= E.

(** Two instances made by [mk], one after the other, and then the
    traversal of each. *)
Definition two_instances (fuel : nat) (mk : M Ukkonen) : M (list Z * list Z) :=
  let* u1 := mk in
  let* u2 := mk in
  let* out1 := get_suffix_tree fuel u1 in
  let* out2 := get_suffix_tree fuel u2 in
  ret (out1, out2).

(** [1, 2, ..., k] *)
Definition one_to (k : nat) : list Z := map Z.of_nat (seq 1 k).

(** What a construction ends in: the store holds, under the root of
    [self], a tree with one leaf for each suffix. *)
Definition finished (s : str) (self : Ukkonen) (w : World) (kids : list (option tree)) : Prop :=
  repr_root w (root self) (end_obj self) kids /\
  (forall a, a ∈ root self :: addrs_kids kids -> (a < length (nodes w))%nat) /\
  wf_kids s (Z.of_nat (length s) - 1) 0 kids /\
  leaves_kids kids ≡ₚ zrange (Z.of_nat (length s)).

(** What the two ways to make an instance have in common. *)
Definition constructs (s : str) (P : World -> Prop) (mk : M Ukkonen) : Prop :=
  forall w, P w ->
    exists self w1 kids,
      mk w = Ok (self, w1) /\ finished s self w1 kids /\
      (forall a, (a < length (nodes w))%nat -> nodes w1 !! a = nodes w !! a) /\
      (length (nodes w) <= length (nodes w1))%nat /\ P w1.

(** *** More example states *)

(** A store with one node, as [Node(0, end)] makes it. *)
Definition one_node : World :=
  mkWorld [mkNode None 0 (EndRef 0%nat) None [] None false empty_slots] [-1].

(** The tree of ["a"] with an [End] of its own. *)
Definition tree_a_own : Ukkonen * World :=
  state_of (Ukkonen_fresh 10 (str_of_string "a") world0).


(** *** What the construction allocates *)

(** The [leaf_node] flags of the nodes of the store, by address. *)
Definition flags (w : World) : list bool := map leaf_node (nodes w).

(** The number of leaves among nodes with the flags [l]. *)
Definition count_true (l : list bool) : nat := length (filter (fun b => b = true) l).

(** *** The shape of the nodes *)

(** What every node of a tree looks like: it has its 91 slots, its
    [incoming] and [connected_to] are as [Node.__init__] left them, a leaf
    has its [j] and no child, a node that is no leaf has no [j]. *)
Definition node_shape (nd : Node) : Prop :=
  length (child_nodes nd) = 91%nat /\ incoming nd = None /\ connected_to nd = [] /\
  (leaf_node nd = true -> j nd <> None /\ child_nodes nd = empty_slots) /\
  (leaf_node nd = false -> j nd = None).

Definition all_shape (r : addr) (w : World) : Prop :=
  forall a nd, (r <= a)%nat -> nodes w !! a = Some nd -> node_shape nd.

(** The nodes from [r] on have their shape, but for the one at [x]. *)
Definition all_shape_but (r x : addr) (w : World) : Prop :=
  forall a nd, (r <= a)%nat -> a <> x -> nodes w !! a = Some nd -> node_shape nd.

(** The active node is a node that is no leaf. *)
Definition active_inner (self : Ukkonen) (w : World) : Prop :=
  exists a, active_node self = Some a /\ flags w !! a = Some false.

Definition shaped (self : Ukkonen) (w : World) : Prop :=
  previous_node self = None /\
  all_shape (root self) w /\
  flags w !! root self = Some false /\
  active_inner self w.

(** The end of [new_leaf] and of [split_edge]: a new leaf is made, put in
    slot [k] of the node [par], read from that slot, and given its [j]. *)
Definition attach_leaf (par : addr) (k : Z) (st : Z) (e r : addr) (jv : Z) : M unit :=
  let* nw := Node_new st (EndRef e) None (Some r) true in
  Node_setitem par k (Some nw);;
  let* ch := Node_getitem par k in
  let* ch := the_node ch in
  let* nd := get_node ch in
  put_node ch (set_j nd (Some jv)).

(** The walk returns or runs out of fuel. *)
Definition walks (w : World) (m : M (list Z)) : Prop :=
  m w = OutOfFuel \/ exists out, m w = Ok (out, w).

(** *** The store after a new leaf *)

(** The store [w] with a new node [nw] at its end and with [Some] of its
    address in slot [p] of the node [nd] at [an]. *)
Definition with_child (w : World) (an : addr) (nd : Node) (p : nat) (nw : Node) : World :=
  mkWorld
    (<[an:=set_child_nodes nd (<[p:=Some (length (nodes w))]> (child_nodes nd))]> (nodes w)
     ++ [nw])
    (ends w).

(** The state of the construction for ["ab"] in phase 2, when the [End]
    has been advanced and [previous_node] reset; the root node then; and
    the instance as [skip_count] leaves it in the pass for suffix 1. *)
Definition ab_phase2 : Ukkonen * World :=
  match state_of ((let* self := Ukkonen_attrs default_End in
                   phases 10 10 self (str_of_string "ab$") 1 0 0) world0) with
  | (self, w) =>
    (set_previous_node self None,
     match extend default_End w with Ok (_, w1) => w1 | _ => w end)
  end.

Definition ab_root : Node :=
  match nodes (snd ab_phase2) !! 0%nat with
  | Some nd => nd
  | None => mkNode None 0 (EndInt 0) None [] None false []
  end.

Definition ab_skipped : Ukkonen :=
  match skip_count 10 (set_active_length (fst ab_phase2) 1) (str_of_string "ab$") 2 0%nat 1
                   (snd ab_phase2) with
  | Ok ((_, self1), _) => self1
  | _ => fst ab_phase2
  end.

(** *** The store after the split of an edge *)

(** The store [w] with two new nodes [inner] and [leaf] at its end, with
    [Some] of the address of [inner] in slot [p] of the node [nd] at [an],
    and with the start of the node [ed] at [ae] moved by [d]. *)
Definition with_split (w : World) (an : addr) (nd : Node) (p : nat) (ae : addr) (ed : Node)
    (d : Z) (inner leaf : Node) : World :=
  mkWorld
    (<[ae:=set_start ed (start ed + d)]>
       (<[an:=set_child_nodes nd (<[p:=Some (length (nodes w))]> (child_nodes nd))]> (nodes w))
     ++ [inner; leaf])
    (ends w).

(** The state of the construction for ["aab"] in phase 3, when the [End]
    has been advanced and [previous_node] reset; what [skip_count] returns
    in the pass for suffix 1; the root and the leaf of suffix 0 then. *)
Definition aab_phase3 : Ukkonen * World :=
  match state_of ((let* self := Ukkonen_attrs default_End in
                   phases 10 10 self (str_of_string "aab$") 2 0 0) world0) with
  | (self, w) =>
    (set_previous_node self None,
     match extend default_End w with Ok (_, w1) => w1 | _ => w end)
  end.

Definition aab_skipped : addr * Ukkonen :=
  match skip_count 10 (set_active_length (fst aab_phase3) 2) (str_of_string "aab$") 3 0%nat 2
                   (snd aab_phase3) with
  | Ok (r, _) => r
  | _ => (0%nat, fst aab_phase3)
  end.

Definition aab_node (a : addr) : Node :=
  match nodes (snd aab_phase3) !! a with
  | Some nd => nd
  | None => mkNode None 0 (EndInt 0) None [] None false []
  end.

(** *** What the construction can raise *)

(** The outcomes that are a value, an [IndexError], or a loop that used up
    its fuel. *)
Definition safe {A} (r : result A) : Prop :=
  match r with
  | Ok _ | Raise IndexError | OutOfFuel => True
  | Raise _ | Stuck => False
  end.

(** The [end] attributes of the nodes of the store, in the order of their
    addresses. *)
Definition endvals (w : World) : list EndVal := map end_ (nodes w).

(** An [end] that is the [End] object [e] or an integer. *)
Definition end_of (e : addr) (v : EndVal) : Prop :=
  v = EndRef e \/ exists z, v = EndInt z.

(** The [end] of every node from [r] on is an [End] of the store or an
    integer. *)
Definition ends_there (r : addr) (w : World) : Prop :=
  forall a nd e, (r <= a)%nat -> nodes w !! a = Some nd -> end_ nd = EndRef e ->
                 (e < length (ends w))%nat.

(** The leaf of suffix 0 in the state [ab_phase2]. *)
Definition ab_leaf : Node :=
  match nodes (snd ab_phase2) !! 1%nat with
  | Some nd => nd
  | None => mkNode None 0 (EndInt 0) None [] None false []
  end.

(** * Properties *)

(** ** Reasoning about monadic code *)

Lemma bind_Ok {A B} (m : M A) (k : A -> M B) w r :
  bind m k w = Ok r -> exists a w1, m w = Ok (a, w1) /\ k a w1 = Ok r.
Proof.
  unfold bind. destruct (m w) as [[a w1]| | |]; try discriminate. eauto.
Qed.

Lemma bind_eq {A B} (m : M A) (k : A -> M B) w a w1 :
  m w = Ok (a, w1) -> bind m k w = k a w1.
Proof. unfold bind. intros ->. reflexivity. Qed.

Lemma lift_Ok {A} (r : result A) w a w1 :
  lift r w = Ok (a, w1) -> r = Ok a /\ w1 = w.
Proof. destruct r; simpl; intros H; inversion H; auto. Qed.

Lemma get_node_Ok a w nd w1 :
  get_node a w = Ok (nd, w1) -> nodes w !! a = Some nd /\ w1 = w.
Proof.
  unfold get_node. destruct (nodes w !! a); intros H; inversion H; auto.
Qed.

Lemma put_node_Ok a nd w u w1 :
  put_node a nd w = Ok (u, w1) ->
  (a < length (nodes w))%nat /\ w1 = mkWorld (<[a:=nd]> (nodes w)) (ends w).
Proof.
  unfold put_node. destruct (nodes w !! a) eqn:E; intros H; inversion H.
  split; [eapply lookup_lt_Some; eauto | reflexivity].
Qed.

Lemma get_end_pointer_Ok e w v w1 :
  get_end_pointer e w = Ok (v, w1) -> ends w !! e = Some v /\ w1 = w.
Proof.
  unfold get_end_pointer. destruct (ends w !! e); intros H; inversion H; auto.
Qed.

Lemma extend_Ok e w u w1 :
  extend e w = Ok (u, w1) ->
  exists v, ends w !! e = Some v /\ w1 = mkWorld (nodes w) (<[e:=v + 1]> (ends w)).
Proof.
  unfold extend. destruct (ends w !! e); intros H; inversion H; eauto.
Qed.

Lemma the_node_Ok o w a w1 :
  the_node o w = Ok (a, w1) -> o = Some a /\ w1 = w.
Proof. destruct o; simpl; intros H; inversion H; auto. Qed.

(** Code that reads the store and leaves it as it is. *)
Definition read_only {A} (m : M A) : Prop :=
  forall w a w1, m w = Ok (a, w1) -> w1 = w.

Lemma read_only_ret {A} (a : A) : read_only (ret a).
Proof. intros w b w1 H. inversion H. reflexivity. Qed.

Lemma read_only_raise {A} e : read_only (@raise A e).
Proof. intros w b w1 H. discriminate. Qed.

Lemma read_only_out_of_fuel {A} : read_only (@out_of_fuel A).
Proof. intros w b w1 H. discriminate. Qed.

Lemma read_only_lift {A} (r : result A) : read_only (lift r).
Proof. intros w b w1 H. apply lift_Ok in H. tauto. Qed.

Lemma read_only_bind {A B} (m : M A) (k : A -> M B) :
  read_only m -> (forall a, read_only (k a)) -> read_only (bind m k).
Proof.
  intros Hm Hk w b w1 H. apply bind_Ok in H as (a & w2 & H1 & H2).
  apply Hm in H1. subst w2. eapply Hk; eauto.
Qed.

Lemma read_only_get_node a : read_only (get_node a).
Proof. intros w b w1 H. apply get_node_Ok in H. tauto. Qed.

Lemma read_only_get_end_pointer e : read_only (get_end_pointer e).
Proof. intros w b w1 H. apply get_end_pointer_Ok in H. tauto. Qed.

Lemma read_only_the_node o : read_only (the_node o).
Proof. intros w b w1 H. apply the_node_Ok in H. tauto. Qed.

Create HintDb ro discriminated.
#[export] Hint Resolve read_only_ret read_only_raise read_only_out_of_fuel read_only_lift
  read_only_get_node read_only_get_end_pointer read_only_the_node : ro.

Ltac ro_tac :=
  repeat first
    [ progress eauto with ro
    | apply read_only_bind; [| intros ?]
    | match goal with
      | |- read_only (match ?x with _ => _ end) => destruct x
      | |- read_only (if ?x then _ else _) => destruct x
      end ].

Lemma read_only_Node_getitem a k : read_only (Node_getitem a k).
Proof. unfold Node_getitem. ro_tac. Qed.

Lemma read_only_get_end a : read_only (get_end a).
Proof. unfold get_end. ro_tac. Qed.

Lemma read_only_get_length a : read_only (get_length a).
Proof. unfold get_length. pose proof (read_only_get_end a). ro_tac. Qed.

Lemma read_only_is_leaf a : read_only (is_leaf a).
Proof. unfold is_leaf. ro_tac. Qed.

Lemma read_only_get_start a : read_only (get_start a).
Proof. unfold get_start. ro_tac. Qed.

#[export] Hint Resolve read_only_Node_getitem read_only_get_end read_only_get_length
  read_only_is_leaf read_only_get_start : ro.

Lemma read_only_skip_count fuel : forall self text cp a_node a_length,
  read_only (skip_count fuel self text cp a_node a_length).
Proof.
  induction fuel as [|fuel IH]; intros; simpl; ro_tac.
Qed.
#[export] Hint Resolve read_only_skip_count : ro.

Lemma read_only_fold_children (f : option addr -> list Z -> M (list Z)) l :
  (forall c st, c ∈ l -> read_only (f c st)) ->
  forall acc, read_only acc ->
  read_only (fold_left (fun (acc : M (list Z)) c => let* st := acc in f c st) l acc).
Proof.
  induction l as [|c l IH]; simpl; intros Hf acc Hacc; [assumption|].
  apply IH.
  - intros c' st Hin. apply Hf. by right.
  - apply read_only_bind; [assumption|]. intros st. apply Hf. by left.
Qed.

Lemma read_only_get_suffix_tree_aux fuel : forall node st,
  read_only (get_suffix_tree_aux fuel node st).
Proof.
  induction fuel as [|fuel IH]; intros node st; simpl; [ro_tac|].
  apply read_only_bind; [ro_tac|]. intros nd.
  destruct (leaf_node nd); [ro_tac|].
  apply (read_only_fold_children
           (fun child st => match child with
                            | Some child => get_suffix_tree_aux fuel child st
                            | None => ret st
                            end)).
  - intros [c|] st' _; [apply IH | ro_tac].
  - ro_tac.
Qed.

Lemma repeat_calls_read_only {A} (m : M A) w a :
  m w = Ok (a, w) -> forall k, repeat_calls k m w = Ok (replicate k a, w).
Proof.
  intros Hm k. induction k as [|k IH]; simpl; [reflexivity|].
  rewrite (bind_eq _ _ _ _ _ Hm), (bind_eq _ _ _ _ _ IH). reflexivity.
Qed.

(** ** Ownership: the nodes of one tree *)

Lemma Node_new_Ok st en inc sl lf w a w1 :
  Node_new st en inc sl lf w = Ok (a, w1) ->
  a = length (nodes w) /\
  w1 = mkWorld (nodes w ++ [mkNode inc st en sl [] None lf empty_slots]) (ends w).
Proof. unfold Node_new. intros H. inversion H. auto. Qed.

Lemma py_index_Ok {A} (l : list A) k x :
  py_index l k = Ok x -> x ∈ l.
Proof.
  unfold py_index. destruct (py_norm _ _); [|discriminate].
  destruct (l !! n) eqn:E; [|discriminate]. intros H. inversion H. subst.
  eapply list_elem_of_lookup_2; eauto.
Qed.

Lemma py_setitem_Ok {A} (l : list A) k v l1 :
  py_setitem l k v = Ok l1 -> exists p, l1 = <[p:=v]> l.
Proof.
  unfold py_setitem. destruct (py_norm _ _); [|discriminate].
  intros H. inversion H. eauto.
Qed.

Lemma elem_of_insert_inv {A} (l : list A) p v x :
  x ∈ <[p:=v]> l -> x = v \/ x ∈ l.
Proof.
  intros H. apply list_elem_of_lookup in H as [q H].
  destruct (decide (p = q)) as [->|Hne].
  - destruct (decide (q < length l)%nat).
    + rewrite list_lookup_insert_eq in H by assumption. inversion H; auto.
    + rewrite list_insert_ge in H by lia. right. eapply list_elem_of_lookup_2; eauto.
  - rewrite list_lookup_insert_ne in H by assumption.
    right. eapply list_elem_of_lookup_2; eauto.
Qed.

Ltac minv H :=
  lazymatch type of H with
  | bind _ _ _ = Ok _ =>
      let a := fresh "v" in let w1 := fresh "w" in let H1 := fresh "H" in
      apply bind_Ok in H as (a & w1 & H1 & H); minv H1; minv H
  | ret _ _ = Ok _ => inversion H; subst; clear H
  | raise _ _ = Ok _ => discriminate H
  | out_of_fuel _ = Ok _ => discriminate H
  | lift _ _ = Ok _ => apply lift_Ok in H as [H ?]; subst
  | get_node _ _ = Ok _ => apply get_node_Ok in H as [H ?]; subst
  | the_node _ _ = Ok _ => apply the_node_Ok in H as [H ?]; subst
  | get_end_pointer _ _ = Ok _ => apply get_end_pointer_Ok in H as [H ?]; subst
  | get_length _ _ = Ok _ =>
      let E := fresh in pose proof (read_only_get_length _ _ _ _ H) as E; subst
  | is_leaf _ _ = Ok _ => unfold is_leaf in H; minv H
  | get_start _ _ = Ok _ => unfold get_start in H; minv H
  | Node_getitem _ _ _ = Ok _ => unfold Node_getitem in H; minv H
  | (match ?x with _ => _ end) _ = Ok _ => destruct x eqn:?; minv H
  | (if ?b then _ else _) _ = Ok _ => destruct b eqn:?; minv H
  | _ => idtac
  end.

Ltac splits := repeat match goal with |- _ /\ _ => split end.

Lemma owned_set_active self w a l :
  owned self w -> (root self <= a < length (nodes w))%nat ->
  owned (set_active_length (set_active_node self (Some a)) l) w.
Proof.
  intros (Hr & Hn & _) Ha. split; [exact Hr|]. split; [exact Hn|].
  exists a. split; [reflexivity | exact Ha].
Qed.

Lemma owned_set_active_length self w l :
  owned self w -> owned (set_active_length self l) w.
Proof. intros (Hr & Hn & Ha). split; [exact Hr|]. split; [exact Hn| exact Ha]. Qed.

Lemma owned_set_previous_node self w l :
  owned self w -> owned (set_previous_node self l) w.
Proof. intros (Hr & Hn & Ha). split; [exact Hr|]. split; [exact Hn| exact Ha]. Qed.

Lemma owned_child self w a nd k b :
  owned self w -> (root self <= a)%nat -> nodes w !! a = Some nd ->
  py_index (child_nodes nd) k = Ok (Some b) ->
  (root self <= b < length (nodes w))%nat.
Proof.
  intros (_ & Hn & _) Ha Hnd Hk.
  destruct (Hn a nd Ha Hnd) as (_ & _ & Hc). apply Hc.
  eapply py_index_Ok; eauto.
Qed.

Lemma skip_count_Ok fuel : forall self text cp a_node a_length w node self1 w1,
  owned self w -> (root self <= a_node < length (nodes w))%nat ->
  skip_count fuel self text cp a_node a_length w = Ok ((node, self1), w1) ->
  w1 = w /\ root self1 = root self /\ end_obj self1 = end_obj self /\
  previous_node self1 = previous_node self /\ owned self1 w.
Proof.
  induction fuel as [|fuel IH]; intros self text cp a_node a_length w node self1 w1 Hown Ha H;
    simpl in H; [discriminate|].
  minv H; try solve [splits; auto using owned_set_active].
  match goal with
  | H : skip_count _ _ _ _ _ _ _ = _ |- _ => apply IH in H as (-> & ? & ? & ? & ?)
  end; auto using owned_set_active.
  simpl. eapply owned_child; [exact Hown | | eassumption | eassumption]; lia.
Qed.

Lemma frame_refl r w : frame r w w.
Proof. split; [reflexivity|]. split; [lia|]. auto. Qed.

Lemma frame_trans r w1 w2 w3 : frame r w1 w2 -> frame r w2 w3 -> frame r w1 w3.
Proof.
  intros (E1 & L1 & N1) (E2 & L2 & N2). split; [congruence|]. split; [lia|].
  intros a Ha. rewrite N2, N1 by assumption. reflexivity.
Qed.

Lemma node_ok_mono r e len len1 nd :
  (len <= len1)%nat -> node_ok r e len nd -> node_ok r e len1 nd.
Proof.
  intros Hl (H1 & H2 & H3). split; [assumption|]. split; [assumption|].
  intros b Hb. specialize (H3 b Hb). lia.
Qed.

Lemma Node_new_owned self w st en inc lf a w1 :
  owned self w ->
  (lf = true -> en = EndRef (end_obj self)) ->
  Node_new st en inc (Some (root self)) lf w = Ok (a, w1) ->
  owned self w1 /\ frame (root self) w w1 /\
  (root self <= a < length (nodes w1))%nat /\
  nodes w1 !! a = Some (mkNode inc st en (Some (root self)) [] None lf empty_slots).
Proof.
  intros (Hr & Hn & (x & Hx & Hxr)) Hlf H. apply Node_new_Ok in H as [-> ->]. simpl.
  rewrite length_app. simpl.
  split; [|split; [|split]].
  - split; [simpl; rewrite length_app; simpl; lia|]. split.
    + simpl. intros a nd Ha Hl. rewrite length_app. simpl.
      destruct (decide (a < length (nodes w))%nat).
      * rewrite lookup_app_l in Hl by assumption.
        eapply node_ok_mono; [|eapply Hn; eauto]. lia.
      * rewrite lookup_app_r in Hl by lia.
        destruct (a - length (nodes w))%nat eqn:E; simpl in Hl; [|discriminate].
        inversion Hl. subst nd. split; [reflexivity|]. split; [exact Hlf|].
        simpl. intros b Hb. apply elem_of_replicate in Hb as [Hb _]. discriminate.
    + exists x. split; [assumption|]. simpl. rewrite length_app. simpl. lia.
  - split; [reflexivity|]. split; [simpl; rewrite length_app; lia|].
    intros a Ha. simpl. rewrite lookup_app_l by lia. reflexivity.
  - lia.
  - rewrite lookup_app_r by lia. rewrite Nat.sub_diag. reflexivity.
Qed.

Lemma put_node_owned self w a nd u w1 :
  owned self w -> (root self <= a)%nat ->
  node_ok (root self) (end_obj self) (length (nodes w)) nd ->
  put_node a nd w = Ok (u, w1) ->
  owned self w1 /\ frame (root self) w w1 /\ length (nodes w1) = length (nodes w) /\
  nodes w1 !! a = Some nd /\
  (forall b, b <> a -> nodes w1 !! b = nodes w !! b).
Proof.
  intros (Hr & Hn & (x & Hx & Hxr)) Ha Hok H. apply put_node_Ok in H as [Hlt ->]. simpl.
  rewrite length_insert.
  split; [|split; [|split; [|split]]].
  - split; [simpl; rewrite length_insert; lia|]. split.
    + simpl. intros b nd1 Hb Hl. rewrite length_insert.
      destruct (decide (a = b)) as [->|Hne].
      * rewrite list_lookup_insert_eq in Hl by assumption. inversion Hl. subst. exact Hok.
      * rewrite list_lookup_insert_ne in Hl by assumption. eapply Hn; eauto.
    + exists x. split; [assumption|]. simpl. rewrite length_insert. lia.
  - split; [reflexivity|]. split; [simpl; rewrite length_insert; lia|].
    intros b Hb. simpl. rewrite list_lookup_insert_ne by lia. reflexivity.
  - reflexivity.
  - apply list_lookup_insert_eq. assumption.
  - intros b Hb. apply list_lookup_insert_ne. congruence.
Qed.

Lemma Node_setitem_owned self w a k v u w1 :
  owned self w -> (root self <= a)%nat ->
  (forall b, v = Some b -> (root self <= b < length (nodes w))%nat) ->
  Node_setitem a k v w = Ok (u, w1) ->
  owned self w1 /\ frame (root self) w w1 /\ length (nodes w1) = length (nodes w) /\
  (forall b, b <> a -> nodes w1 !! b = nodes w !! b) /\
  (exists nd, nodes w !! a = Some nd /\
     nodes w1 !! a = Some (set_child_nodes nd (match py_setitem (child_nodes nd) k v with
                                              | Ok l => l | _ => child_nodes nd end))).
Proof.
  intros Hown Ha Hv H. unfold Node_setitem in H.
  apply bind_Ok in H as (nd & w2 & H1 & H). apply get_node_Ok in H1 as [H1 ->].
  apply bind_Ok in H as (l & w2 & H2 & H). apply lift_Ok in H2 as [H2 ->].
  pose proof Hown as (Hr & Hn & _).
  destruct (Hn a nd Ha H1) as (N1 & N2 & N3).
  apply (put_node_owned self) in H as (O1 & O2 & O3 & O4 & O5); [| assumption | assumption |].
  - split; [assumption|]. split; [assumption|]. split; [assumption|].
    split; [assumption|]. exists nd. split; [assumption|]. rewrite H2. assumption.
  - split; [exact N1|]. split; [exact N2|]. simpl.
    apply py_setitem_Ok in H2 as [p ->].
    intros b Hb. apply elem_of_insert_inv in Hb as [Hb|Hb]; [|auto].
    apply Hv. congruence.
Qed.

Tactic Notation "mbind" hyp(H) "as" ident(H1) :=
  let a := fresh "v" in let w1 := fresh "w" in
  apply bind_Ok in H as (a & w1 & H1 & H).

Tactic Notation "mbind" hyp(H) "as" ident(H1) simple_intropattern(pat) :=
  let w1 := fresh "w" in
  apply bind_Ok in H as (pat & w1 & H1 & H).

(** [mread H]: the next operation only reads. *)
Tactic Notation "mread" hyp(H) :=
  let H1 := fresh "R" in mbind H as H1; minv H1.

Lemma node_ok_set_j r e len nd v : node_ok r e len nd -> node_ok r e len (set_j nd v).
Proof. intros H. exact H. Qed.

Lemma node_ok_set_start r e len nd v : node_ok r e len nd -> node_ok r e len (set_start nd v).
Proof. intros H. exact H. Qed.

Lemma owned_node self w a nd :
  owned self w -> (root self <= a)%nat -> nodes w !! a = Some nd ->
  node_ok (root self) (end_obj self) (length (nodes w)) nd.
Proof. intros (_ & Hn & _). apply Hn. Qed.

Ltac child_range :=
  match goal with
  | O : owned ?self ?w, Hc : py_index (child_nodes ?nd) ?k = Ok (Some ?c),
    Hn : nodes ?w !! ?a = Some ?nd
    |- (root ?self <= ?c < length (nodes ?w))%nat =>
      apply (owned_child self w a nd k c O); [lia | exact Hn | exact Hc]
  end.

Lemma new_leaf_owned self i j an k w u w1 :
  owned self w -> (root self <= an < length (nodes w))%nat ->
  new_leaf self i j an k w = Ok (u, w1) ->
  owned self w1 /\ frame (root self) w w1.
Proof.
  intros Hown Han H. unfold new_leaf in H.
  mbind H as A1. apply (Node_new_owned self) in A1 as (O1 & F1 & R1 & L1); [|assumption|reflexivity].
  pose proof F1 as (_ & Len1 & _).
  mbind H as A2. apply (Node_setitem_owned self) in A2 as (O2 & F2 & Len2 & _ & _);
    [|assumption|lia|intros b Hb; inversion Hb; subst; exact R1].
  mread H. mread H. mread H.
  match goal with
  | Hc : py_index (child_nodes ?nd) _ = Ok (Some ?c), Hn : nodes ?w !! ?a = Some ?nd |- _ =>
      assert (Rg : (root self <= c < length (nodes w))%nat)
        by (eapply owned_child; [exact O2 | | exact Hn | exact Hc]; lia)
  end.
  apply (put_node_owned self) in H as (O3 & F3 & _); [|assumption|lia|].
  - split; [assumption|]. eauto using frame_trans.
  - apply node_ok_set_j. eapply owned_node; [eassumption| |eassumption]; lia.
Qed.

Lemma split_edge_owned self text i j an k ae w u w1 :
  owned self w -> (root self <= an < length (nodes w))%nat ->
  (root self <= ae < length (nodes w))%nat ->
  split_edge self text i j an k ae w = Ok (u, w1) ->
  owned self w1 /\ frame (root self) w w1.
Proof.
  intros Hown Han Hae H. unfold split_edge in H.
  mread H. mread H.
  mbind H as A1. apply (Node_new_owned self) in A1 as (O1 & F1 & R1 & L1); [|assumption|discriminate].
  pose proof F1 as (_ & Len1 & _).
  mbind H as A2. apply (Node_setitem_owned self) in A2 as (O2 & F2 & Len2 & _ & _);
    [|assumption|lia|intros b Hb; inversion Hb; subst; exact R1].
  mread H. mread H. mread H.
  mbind H as A3. apply (put_node_owned self) in A3 as (O3 & F3 & Len3 & _);
    [|assumption|lia|apply node_ok_set_start; eapply owned_node; [eassumption| |eassumption]; lia].
  mbind H as A4. apply (Node_setitem_owned self) in A4 as (O4 & F4 & Len4 & _ & _);
    [|assumption|lia|intros b Hb; inversion Hb; subst; lia].
  mread H.
  mbind H as A5. apply (Node_new_owned self) in A5 as (O5 & F5 & R5 & L5); [|assumption|reflexivity].
  pose proof F5 as (_ & Len5 & _).
  mbind H as A6. apply (Node_setitem_owned self) in A6 as (O6 & F6 & Len6 & _ & _);
    [|assumption|lia|intros b Hb; inversion Hb; subst; exact R5].
  mread H. mread H. mread H.
  match goal with
  | Hc : py_index (child_nodes ?nd) _ = Ok (Some ?c), Hn : nodes ?w !! ?a = Some ?nd |- _ =>
      assert (Rg : (root self <= c < length (nodes w))%nat)
        by (eapply owned_child; [exact O6 | | exact Hn | exact Hc]; lia)
  end.
  apply (put_node_owned self) in H as (O7 & F7 & _); [|assumption|lia|].
  - split; [assumption|]. eauto 10 using frame_trans.
  - apply node_ok_set_j. eapply owned_node; [eassumption| |eassumption]; lia.
Qed.

Lemma owned_active self w :
  owned self w -> exists a, active_node self = Some a /\ (root self <= a < length (nodes w))%nat.
Proof. intros (_ & _ & H). exact H. Qed.

Lemma owned_eq self self1 w :
  root self1 = root self -> end_obj self1 = end_obj self ->
  active_node self1 = active_node self -> owned self w -> owned self1 w.
Proof. unfold owned. intros -> -> ->. auto. Qed.

Lemma extension_owned fuel self text i j w b j1 self1 w1 :
  owned self w ->
  extension fuel self text i j w = Ok ((b, j1, self1), w1) ->
  owned self1 w1 /\ frame (root self) w w1 /\
  root self1 = root self /\ end_obj self1 = end_obj self /\
  previous_node self1 = previous_node self /\
  (b = true -> active_node self1 = Some (root self) /\ j1 = j + 1) /\
  (b = false -> j1 = j /\ w1 = w).
Proof.
  intros Hown H. unfold extension in H.
  set (self0 := if same_node (active_node self) (root self)
                then set_active_length self (i - j) else self) in H.
  assert (Hown0 : owned self0 w)
    by (subst self0; destruct (same_node _ _); auto using owned_set_active_length).
  assert (Hr0 : root self0 = root self) by (subst self0; destruct (same_node _ _); reflexivity).
  assert (He0 : end_obj self0 = end_obj self) by (subst self0; destruct (same_node _ _); reflexivity).
  assert (Hp0 : previous_node self0 = previous_node self)
    by (subst self0; destruct (same_node _ _); reflexivity).
  clearbody self0.
  mread H.
  mbind H as A [nd0 self2].
  apply skip_count_Ok in A as (-> & Hr2 & He2 & Hp2 & Hown2); [|assumption|].
  2:{ destruct (owned_active _ _ Hown0) as (x & Hx & Hxr). congruence. }
  cbn [snd] in H.
  mread H. mread H. mread H.
  destruct (owned_active _ _ Hown2) as (an & Han & Hanr).
  match goal with Hx : active_node self2 = Some ?x |- _ =>
    assert (x = an) by congruence; subst x end.
  match goal with Hx : py_index (child_nodes _) _ = Ok ?x |- _ => rename x into oae end.
  mbind H as B cont.
  match type of H with _ ?w' = _ => rename w' into w2 end.
  assert (Hcont : owned self2 w2 /\ frame (root self2) w w2 /\ (cont = false -> w2 = w)).
  { destruct oae as [ae|].
    - mread B. mread B. mread B. destruct (negb _).
      + mbind B as C. apply split_edge_owned in C as (O & F); [| assumption | assumption |].
        * minv B. split; [assumption|]. split; [assumption|]. discriminate.
        * child_range.
      + minv B. split; [assumption|]. split; [apply frame_refl|]. reflexivity.
    - mbind B as C. apply new_leaf_owned in C as (O & F); [| assumption | assumption].
      minv B. split; [assumption|]. split; [assumption|]. discriminate. }
  destruct Hcont as (O & F & Hw).
  destruct cont.
  - mread H. mread H. minv H.
    match goal with Hx : active_node self2 = Some ?x |- _ =>
      assert (x = an) by congruence; subst x end.
    match goal with |- context [suffix_link ?nd] =>
    assert (Hsl : suffix_link nd = Some (root self2))
      by (eapply owned_node; [exact O | | eassumption]; lia) end.
    rewrite Hsl. splits; try (simpl; congruence).
    + destruct O as (O1 & O2 & O3). split; [exact O1|]. split; [exact O2|].
      exists (root self2). split; [reflexivity|]. simpl. lia.
    + intros _. split; [simpl; congruence | reflexivity].
  - minv H. splits; try congruence.
    intros _. split; [reflexivity | auto].
Qed.

Lemma extensions_owned fuel fuel_skip : forall self text i j w j1 self1 w1,
  owned self w ->
  extensions fuel fuel_skip self text i j w = Ok ((j1, self1), w1) ->
  owned self1 w1 /\ frame (root self) w w1 /\
  root self1 = root self /\ end_obj self1 = end_obj self /\
  previous_node self1 = previous_node self.
Proof.
  induction fuel as [|fuel IH]; intros self text i j w j1 self1 w1 Hown H;
    simpl in H; [discriminate|].
  destruct (j <? i).
  - mbind H as A [[b j2] self2].
    apply extension_owned in A as (O & F & Hr & He & Hp & _); [|assumption].
    destruct b.
    + apply IH in H as (O2 & F2 & Hr2 & He2 & Hp2); [|assumption].
      rewrite Hr in F2. splits; try congruence. eauto using frame_trans.
    + minv H. splits; auto.
  - minv H. splits; auto using frame_refl.
Qed.

Lemma extend_advanced e w u w1 :
  extend e w = Ok (u, w1) -> nodes w1 = nodes w /\ ends_advanced e 1 w w1.
Proof.
  intros H. apply extend_Ok in H as (v & Hv & ->). simpl. split; [reflexivity|].
  split; [apply length_insert|]. split.
  - intros v' Hv'. simpl. rewrite Hv in Hv'. inversion Hv'. subst.
    apply list_lookup_insert_eq. eapply lookup_lt_Some; eauto.
  - intros e' He'. simpl. apply list_lookup_insert_ne. congruence.
Qed.

Lemma owned_nodes self w w1 : nodes w1 = nodes w -> owned self w -> owned self w1.
Proof. unfold owned. intros ->. auto. Qed.

Lemma phases_owned fuel fuel_in : forall self text n i j w u w1,
  owned self w ->
  phases fuel fuel_in self text n i j w = Ok (u, w1) ->
  owned u w1 /\ root u = root self /\ end_obj u = end_obj self /\
  nodes_frame (root self) w w1 /\
  ends_advanced (end_obj self) (Z.max 0 (n + 1 - i)) w w1.
Proof.
  induction fuel as [|fuel IH]; intros self text n i j w u w1 Hown H;
    simpl in H; [discriminate|].
  destruct (Z.leb_spec i n).
  - mbind H as A. apply extend_advanced in A as (Hn & E1 & E2 & E3).
    mbind H as B [j2 self2].
    apply extensions_owned in B as (O & F & Hr & He & Hp);
      [|apply owned_set_previous_node; eapply owned_nodes; eauto].
    cbn [fst snd] in H.
    apply IH in H as (O2 & Hr2 & He2 & (L2 & N2) & E1' & E2' & E3');
      [|apply owned_set_active_length; assumption].
    cbn [root end_obj set_active_length set_previous_node] in *.
    destruct F as (Fe & Fl & Fn).
    splits; try congruence; [split | split; [|split]].
    + rewrite Hn in Fl. lia.
    + intros a Ha. rewrite N2 by (rewrite Hr; exact Ha). rewrite Fn by exact Ha.
      rewrite Hn. reflexivity.
    + rewrite E1', Fe. exact E1.
    + intros v0 Hv. apply E2 in Hv. rewrite <- Fe in Hv. rewrite He in E2'.
      apply E2' in Hv. rewrite Hv. f_equal. lia.
    + intros e' He'. rewrite E3' by (rewrite He; exact He'). rewrite Fe. auto.
  - minv H. splits; auto.
    + split; [lia | auto].
    + split; [reflexivity|]. split; [|auto].
      intros v Hv. rewrite Hv. f_equal. lia.
Qed.

Lemma Ukkonen_attrs_owned e w self w1 :
  Ukkonen_attrs e w = Ok (self, w1) ->
  owned self w1 /\ root self = length (nodes w) /\ end_obj self = e /\
  ends w1 = ends w /\ nodes_frame (root self) w w1.
Proof.
  intros H. unfold Ukkonen_attrs in H.
  mbind H as A r. apply Node_new_Ok in A as [-> ->].
  mread H. mbind H as B. apply put_node_Ok in B as [Hlt ->]. minv H.
  cbn [nodes ends] in *.
  match goal with Hx : _ !! _ = Some ?nd |- _ =>
    rewrite lookup_app_r in Hx by lia; rewrite Nat.sub_diag in Hx;
    inversion Hx; subst nd; clear Hx end.
  splits; try reflexivity.
  - split; [cbn; rewrite length_insert, length_app; simpl; lia|]. split.
    + cbn. intros a nd Ha Hl. rewrite length_insert, length_app. simpl.
      destruct (decide (a = length (nodes w))) as [->|Hne].
      * rewrite list_lookup_insert_eq in Hl by assumption. inversion Hl. subst.
        split; [reflexivity|]. split; [discriminate|]. cbn.
        intros b Hb. apply elem_of_replicate in Hb as [Hb _]. discriminate.
      * rewrite list_lookup_insert_ne in Hl by congruence.
        apply lookup_lt_Some in Hl. rewrite length_app in Hl. simpl in Hl. lia.
    + exists (length (nodes w)). split; [reflexivity|]. cbn.
      rewrite length_insert, length_app. simpl. lia.
  - split; cbn.
    + rewrite length_insert, length_app. lia.
    + intros a Ha. rewrite list_lookup_insert_ne by lia. apply lookup_app_l. lia.
Qed.

Lemma constructing_owned e w0 text self w :
  constructing e w0 text self w -> owned self w /\ end_obj self = e.
Proof.
  induction 1 as [self w H|self w u w1 _ [IH IHe] H|self w fuel i j b j1 self1 w1 _ [IH IHe] H
                 |self w _ [IH IHe]].
  - apply Ukkonen_attrs_owned in H. tauto.
  - apply extend_advanced in H as [Hn _]. split; [|exact IHe].
    apply owned_set_previous_node. eapply owned_nodes; eauto.
  - apply extension_owned in H; [|assumption]. split; [tauto|]. destruct H as (_ & _ & _ & -> & _). exact IHe.
  - split; [|exact IHe]. apply owned_set_active_length. assumption.
Qed.

Lemma extensions_constructing e w0 text fuel fuel_skip : forall self i j w j1 self1 w1,
  constructing e w0 text self w ->
  extensions fuel fuel_skip self text i j w = Ok ((j1, self1), w1) ->
  constructing e w0 text self1 w1.
Proof.
  induction fuel as [|fuel IH]; intros self i j w j1 self1 w1 Hc H; simpl in H; [discriminate|].
  destruct (j <? i); [|minv H; assumption].
  mbind H as A [[b j2] self2].
  match type of H with _ ?w' = _ =>
    assert (constructing e w0 text self2 w') by (eapply cs_extension; eauto) end.
  destruct b; [eapply IH; eauto | minv H; assumption].
Qed.

Lemma phases_constructing e w0 text fuel fuel_in : forall self n i j w u w1,
  constructing e w0 text self w ->
  phases fuel fuel_in self text n i j w = Ok (u, w1) ->
  constructing e w0 text u w1.
Proof.
  induction fuel as [|fuel IH]; intros self n i j w u w1 Hc H; simpl in H; [discriminate|].
  destruct (i <=? n); [|minv H; assumption].
  mbind H as A. mbind H as B [j2 self2]. cbn [fst snd] in H.
  eapply IH; [|exact H]. apply cs_next.
  eapply extensions_constructing; [|exact B]. eapply cs_extend; eauto.
Qed.

Lemma Ukkonen_init_constructing fuel text e w0 u w :
  Ukkonen_init fuel text e w0 = Ok (u, w) -> constructing e w0 (text ++ [dollar]) u w.
Proof.
  intros H. unfold Ukkonen_init in H. mbind H as A self.
  unfold run_algorithm in H. eapply phases_constructing; [|exact H].
  apply cs_start. assumption.
Qed.

Lemma owned_links self w : owned self w -> links_to_root self w.
Proof. intros (_ & Hn & _) a nd Ha Hl. apply (Hn a nd Ha Hl). Qed.

Lemma constructing_frame e w0 text self w :
  constructing e w0 text self w ->
  root self = length (nodes w0) /\
  (forall a, (a < length (nodes w0))%nat -> nodes w !! a = nodes w0 !! a) /\
  length (ends w) = length (ends w0).
Proof.
  induction 1 as [self w H|self w u w1 Hc (IHr & IHn & IHe) H
                 |self w fuel i j b j1 self1 w1 Hc (IHr & IHn & IHe) H
                 |self w _ IH].
  - apply Ukkonen_attrs_owned in H as (_ & Hr & _ & He & (_ & Hn)).
    split; [assumption|]. split; [|congruence].
    intros a Ha. apply Hn. lia.
  - apply extend_advanced in H as (Hn & El & _). cbn [root set_previous_node].
    split; [assumption|]. split; [|congruence]. intros a Ha. rewrite Hn. auto.
  - apply constructing_owned in Hc as [Hown _].
    apply extension_owned in H as (_ & (Fe & _ & Fn) & Hr & _); [|assumption].
    split; [congruence|]. split; [|congruence].
    intros a Ha. rewrite Fn by lia. auto.
  - exact IH.
Qed.

Lemma Ukkonen_init_ends fuel text e w0 u w v :
  Ukkonen_init fuel text e w0 = Ok (u, w) ->
  ends w0 !! e = Some v ->
  end_obj u = e /\ ends w !! e = Some (v + Z.of_nat (length text) + 2).
Proof.
  intros H Hv. unfold Ukkonen_init in H. mbind H as A self.
  apply Ukkonen_attrs_owned in A as (Hown & _ & He & Hends & _).
  unfold run_algorithm in H.
  apply phases_owned in H as (_ & _ & He2 & _ & (_ & E & _)); [|assumption].
  split; [congruence|]. rewrite He in E. rewrite <- Hends in Hv. apply E in Hv.
  rewrite Hv. f_equal. rewrite length_app. simpl. lia.
Qed.

Lemma get_end_leaf a nd e v w :
  nodes w !! a = Some nd -> end_ nd = EndRef e -> ends w !! e = Some v ->
  get_end a w = Ok (v, w).
Proof.
  intros Hn He Hv. unfold get_end, bind, get_node. rewrite Hn, He.
  unfold get_end_pointer. rewrite Hv. reflexivity.
Qed.

(** ** The tree that the store holds *)

Lemma tree_ind' (P : tree -> Prop) :
  (forall a st jv, P (TLeaf a st jv)) ->
  (forall a st en kids,
     (forall c t, kids !! c = Some (Some t) -> P t) -> P (TInner a st en kids)) ->
  forall t, P t.
Proof.
  intros HL HI. fix IH 1. intros [a st jv | a st en kids]; [apply HL|].
  apply HI. induction kids as [|o kids IHk]; intros c t Hc.
  - destruct c; discriminate.
  - destruct c as [|c]; simpl in Hc.
    + destruct o as [t'|]; [|discriminate].
      pose proof (IH t') as Ht'. inversion Hc. subst t'. exact Ht'.
    + eapply IHk; eauto.
Qed.

(** ** Strings *)

Lemma agree_refl s a m : agree s a a m.
Proof. intros k _. reflexivity. Qed.

Lemma agree_sym s a b m : agree s a b m -> agree s b a m.
Proof. intros H k Hk. symmetry. auto. Qed.

Lemma agree_trans s a b c m : agree s a b m -> agree s b c m -> agree s a c m.
Proof. intros H1 H2 k Hk. rewrite H1, H2 by assumption. reflexivity. Qed.

Lemma agree_le s a b m m' : agree s a b m -> m' <= m -> agree s a b m'.
Proof. intros H Hm k Hk. apply H. lia. Qed.

Lemma agree_shift s a b m x :
  agree s a b m -> 0 <= x -> agree s (a + x) (b + x) (m - x).
Proof.
  intros H Hx k Hk. replace (a + x + k) with (a + (x + k)) by lia.
  replace (b + x + k) with (b + (x + k)) by lia. apply H. lia.
Qed.

Lemma agree_app s a b m m' :
  0 <= m -> agree s a b m -> agree s (a + m) (b + m) m' -> agree s a b (m + m').
Proof.
  intros Hm H1 H2 k Hk. destruct (Z_lt_ge_dec k m).
  - apply H1. lia.
  - replace (a + k) with (a + m + (k - m)) by lia.
    replace (b + k) with (b + m + (k - m)) by lia. apply H2. lia.
Qed.

Lemma agree_first s a b m : 0 < m -> agree s a b m -> char_at s a = char_at s b.
Proof.
  intros Hm H. specialize (H 0). rewrite !Z.add_0_r in H. apply H. lia.
Qed.

Lemma slot_of_slot c : slot_of (Z.of_nat c + 36) = c.
Proof. unfold slot_of. lia. Qed.

(** ** The tree as a value *)

Lemma elem_of_leaves_kids kids jv :
  jv ∈ leaves_kids kids <-> exists c t, kids !! c = Some (Some t) /\ jv ∈ leaves t.
Proof.
  unfold leaves_kids. rewrite list_elem_of_In, in_flat_map. split.
  - intros ([t|] & Hin & Hjv); simpl in Hjv; [|contradiction].
    apply list_elem_of_In, list_elem_of_lookup in Hin as [c Hc].
    exists c, t. split; [assumption|]. by apply list_elem_of_In.
  - intros (c & t & Hc & Hjv). exists (Some t). split.
    + apply list_elem_of_In. eapply list_elem_of_lookup_2; eauto.
    + simpl. by apply list_elem_of_In.
Qed.

Lemma wf_leaf_inv s lim d a st jv :
  wf s lim d (TLeaf a st jv) -> st = jv + d /\ 0 <= jv /\ 0 <= d /\ st <= lim.
Proof. intros H. inversion H; subst. auto. Qed.

Lemma wf_inner_inv s lim d a st en kids :
  wf s lim d (TInner a st en kids) ->
  (0 <= st < en /\ en <= lim /\ 0 <= d) /\
  leaves_kids kids <> [] /\
  (forall jv, jv ∈ leaves_kids kids -> agree s st (jv + d) (en - st)) /\
  wf_kids s lim (d + (en - st)) kids.
Proof. intros H. inversion H; subst. unfold wf_kids. auto 10. Qed.

Lemma wf_inner_intro s lim d a st en kids :
  0 <= st < en -> en <= lim -> 0 <= d ->
  leaves_kids kids <> [] ->
  (forall jv, jv ∈ leaves_kids kids -> agree s st (jv + d) (en - st)) ->
  wf_kids s lim (d + (en - st)) kids ->
  wf s lim d (TInner a st en kids).
Proof. intros ? ? ? ? ? [? ?]. by constructor. Qed.

Lemma wf_mono s lim lim' : lim <= lim' -> forall t d, wf s lim d t -> wf s lim' d t.
Proof.
  intros Hl t. induction t as [a st jv|a st en kids IH] using tree_ind'; intros d H.
  - apply wf_leaf_inv in H as (? & ? & ? & ?). constructor; auto; lia.
  - apply wf_inner_inv in H as ((? & ? & ?) & ? & ? & [? Hk]).
    apply wf_inner_intro; auto; try lia. split; [assumption|].
    intros c t Hc. destruct (Hk c t Hc) as [Hf Hw]. split; [assumption|]. eauto.
Qed.

Lemma wf_kids_mono s lim lim' d kids :
  lim <= lim' -> wf_kids s lim d kids -> wf_kids s lim' d kids.
Proof.
  intros Hl [Hlen H]. split; [assumption|]. intros c t Hc.
  destruct (H c t Hc). eauto using wf_mono.
Qed.

Lemma wf_leaves_nonempty s lim d t : wf s lim d t -> leaves t <> [].
Proof. intros H. inversion H; subst; simpl; [discriminate | assumption]. Qed.

Lemma wf_depth_nonneg s lim d t : wf s lim d t -> 0 <= d.
Proof. intros H. inversion H; subst; assumption. Qed.

(** The first character of the label of [t] is the character at depth [d]
    of every suffix below [t]. *)
Lemma wf_first_char s lim d t jv :
  wf s lim d t -> jv ∈ leaves t -> char_at s (tstart t) = char_at s (jv + d).
Proof.
  intros H Hjv. destruct t as [a st jv0|a st en kids]; simpl in *.
  - apply wf_leaf_inv in H as (? & ? & ? & ?).
    apply list_elem_of_singleton in Hjv. subst. reflexivity.
  - apply wf_inner_inv in H as ((? & ? & ?) & ? & Hag & ?).
    eapply agree_first; [|apply Hag; exact Hjv]. lia.
Qed.

(** A suffix below [t] can be read along [t], to any length. *)
Lemma leaf_in_edge s lim : forall t d jv m,
  wf s lim d t -> jv ∈ leaves t -> in_edge s t (jv + d) m.
Proof.
  induction t as [a st jv0|a st en kids IH] using tree_ind'; intros d jv m H Hjv;
    simpl in Hjv.
  - apply wf_leaf_inv in H as (? & ? & ? & ?).
    apply list_elem_of_singleton in Hjv. subst. apply ie_leaf, agree_refl.
  - fold (leaves_kids kids) in Hjv.
    apply wf_inner_inv in H as ((? & ? & ?) & ? & Hag & [? H10]).
    destruct (Z_lt_ge_dec m (en - st)).
    + apply ie_short; [assumption|]. eapply agree_le; [eauto|lia].
    + apply ie_long; [lia | auto |].
      destruct (Z_le_gt_dec (m - (en - st)) 0); [by apply ik_done|].
      apply elem_of_leaves_kids in Hjv as (c & t & Hc & Hjv).
      destruct (H10 c t Hc) as [Hf Hw].
      eapply ik_step; [lia | | ].
      * rewrite <- Z.add_assoc, <- (wf_first_char _ _ _ _ _ Hw Hjv), Hf, slot_of_slot.
        exact Hc.
      * rewrite <- Z.add_assoc. eapply IH; eauto.
Qed.

Lemma leaf_in_kids s lim d kids jv m :
  wf_kids s lim d kids -> jv ∈ leaves_kids kids -> in_kids s kids (jv + d) m.
Proof.
  intros [_ H] Hjv. destruct (Z_le_gt_dec m 0); [by apply ik_done|].
  apply elem_of_leaves_kids in Hjv as (c & t & Hc & Hjv).
  destruct (H c t Hc) as [Hf Hw].
  eapply ik_step; [lia | | eapply leaf_in_edge; eauto].
  rewrite <- (wf_first_char _ _ _ _ _ Hw Hjv), Hf, slot_of_slot. exact Hc.
Qed.

(** What can be read depends on the characters only. *)
Lemma in_edge_agree s : forall t b b' m,
  in_edge s t b m -> agree s b b' m -> in_edge s t b' m.
Proof.
  induction t as [a st jv0|a st en kids IH] using tree_ind'; intros b b' m H Hag;
    inversion H; subst.
  - apply ie_leaf. eauto using agree_trans.
  - apply ie_short; eauto using agree_trans.
  - apply ie_long; [assumption | eapply agree_trans; [eassumption|]; eapply agree_le; [eassumption|lia] |].
    match goal with Hk : in_kids _ _ _ _ |- _ => inversion Hk; subst end.
    + by apply ik_done.
    + eapply ik_step; [assumption | |].
      * replace (char_at s (b' + (en - st))) with (char_at s (b + (en - st))); [eassumption|].
        apply Hag. lia.
      * eapply IH; [eassumption | eassumption |]. apply agree_shift; [assumption|lia].
Qed.

Lemma in_kids_agree s kids b b' m :
  in_kids s kids b m -> agree s b b' m -> in_kids s kids b' m.
Proof.
  intros H Hag. inversion H; subst; [by apply ik_done|].
  eapply ik_step; [assumption | | eapply in_edge_agree; eauto].
  rewrite <- (agree_first _ _ _ _ H0 Hag). assumption.
Qed.

Lemma wf_has_leaf s lim d t : wf s lim d t -> exists jv, jv ∈ leaves t.
Proof.
  intros H. apply wf_leaves_nonempty in H. destruct (leaves t) as [|jv l]; [done|].
  exists jv. by left.
Qed.

Lemma elem_of_leaves_kid kids c t jv :
  kids !! c = Some (Some t) -> jv ∈ leaves t -> jv ∈ leaves_kids kids.
Proof. intros. apply elem_of_leaves_kids. eauto. Qed.

(** What can be read below a node is the start of a suffix below it. *)
Lemma in_edge_leaf s lim : forall t d b m,
  wf s lim d t -> in_edge s t b m ->
  exists jv, jv ∈ leaves t /\ agree s (jv + d) b m.
Proof.
  induction t as [a st jv0|a st en kids IH] using tree_ind'; intros d b m H Hin.
  - apply wf_leaf_inv in H as (-> & ? & ? & ?). inversion Hin; subst.
    exists jv0. split; [by left | assumption].
  - pose proof (wf_has_leaf _ _ _ _ H) as [jv1 Hjv1].
    apply wf_inner_inv in H as ((? & ? & ?) & ? & Hag & [? Hk]).
    simpl in Hjv1. fold (leaves_kids kids) in Hjv1. simpl. fold (leaves_kids kids).
    inversion Hin; subst.
    + exists jv1. split; [assumption|].
      eapply agree_trans; [apply agree_sym; eapply agree_le; [eauto|lia] | assumption].
    + match goal with Hx : in_kids _ _ _ _ |- _ => inversion Hx; subst end.
      * exists jv1. split; [assumption|].
        eapply agree_le; [|instantiate (1 := en - st); lia].
        eapply agree_trans; [apply agree_sym; eauto | assumption].
      * match goal with Hc : kids !! _ = Some (Some ?t) |- _ =>
          destruct (Hk _ _ Hc) as [Hf Hw];
          destruct (IH _ _ Hc _ _ _ Hw ltac:(eassumption)) as (jv & Hjv & Hagr);
          pose proof (elem_of_leaves_kid _ _ _ _ Hc Hjv) as Hjv'
        end.
        exists jv. split; [assumption|].
        replace m with ((en - st) + (m - (en - st))) by lia.
        apply agree_app; [lia | |].
        -- eapply agree_trans; [apply agree_sym; eauto | assumption].
        -- rewrite <- Z.add_assoc. assumption.
Qed.

Lemma in_kids_leaf s lim d kids b m :
  wf_kids s lim d kids -> in_kids s kids b m -> 0 < m ->
  exists jv, jv ∈ leaves_kids kids /\ agree s (jv + d) b m.
Proof.
  intros [_ Hk] Hin Hm. inversion Hin; subst; [lia|].
  match goal with Hc : kids !! _ = Some (Some ?t) |- _ =>
    destruct (Hk _ _ Hc) as [Hf Hw];
    destruct (in_edge_leaf _ _ _ _ _ _ Hw ltac:(eassumption)) as (jv & Hjv & Hagr);
    exists jv; split; [eapply elem_of_leaves_kid; eauto | assumption]
  end.
Qed.

(** ** Paths *)

Lemma kids_at_cons kids c p ks :
  kids_at kids (c :: p) = Some ks ->
  exists a st en kids', kids !! c = Some (Some (TInner a st en kids')) /\
                        kids_at kids' p = Some ks.
Proof.
  simpl. destruct (kids !! c) as [[[|a st en kids']|]|]; try discriminate. eauto 10.
Qed.

(** Along a path that spells the start of suffix [jx], the suffixes below
    its end start as suffix [jx] does. *)
Lemma on_path_leaves s lim jx : forall p kids d ks,
  wf_kids s lim d kids -> on_path s jx d kids p -> kids_at kids p = Some ks ->
  wf_kids s lim (d + depth_at kids p) ks /\
  0 <= depth_at kids p /\
  (forall jv, jv ∈ leaves_kids ks -> jv ∈ leaves_kids kids) /\
  (forall jv, jv ∈ leaves_kids ks ->
              agree s (jv + d) (jx + d) (depth_at kids p)) /\
  (p <> [] -> leaves_kids ks <> []).
Proof.
  induction p as [|c p IH]; intros kids d ks Hwf Hon Hat.
  - simpl in *. inversion Hat; subst. rewrite Z.add_0_r.
    split; [assumption|]. split; [lia|]. split; [auto|]. split; [|done].
    intros jv _ k Hk. lia.
  - apply kids_at_cons in Hat as (a & st & en & kids' & Hc & Hat).
    simpl in Hon |- *. rewrite Hc in Hon |- *. destruct Hon as [Hag Hon].
    destruct Hwf as [Hlen Hk]. destruct (Hk _ _ Hc) as [Hf Hw].
    apply wf_inner_inv in Hw as ((? & ? & ?) & Hne & Hag' & Hwk).
    destruct (IH _ _ _ Hwk Hon Hat) as (Hwf' & Hd & Hsub & Hagr & Hnz).
    split; [rewrite Z.add_assoc; assumption|]. split; [lia|].
    assert (Hsub' : forall jv, jv ∈ leaves_kids ks -> jv ∈ leaves_kids kids).
    { intros jv Hjv. eapply elem_of_leaves_kid; [exact Hc|]. simpl. apply Hsub, Hjv. }
    split; [assumption|]. split.
    + intros jv Hjv. apply agree_app; [lia | |].
      * eapply agree_trans; [apply agree_sym, Hag', Hsub, Hjv | assumption].
      * rewrite <- !Z.add_assoc. apply Hagr, Hjv.
    + intros _. destruct p as [|c' p'].
      * simpl in Hat. inversion Hat; subst. assumption.
      * apply Hnz. discriminate.
Qed.

(** ** Setting a slot *)

Lemma flat_map_insert {A B} (f : A -> list B) l c old new L :
  l !! c = Some old -> f new ≡ₚ L ++ f old ->
  flat_map f (<[c:=new]> l) ≡ₚ L ++ flat_map f l.
Proof.
  intros Hc Hf.
  rewrite <- (take_drop_middle l c old Hc) at 2.
  rewrite insert_take_drop by (eapply lookup_lt_Some; eauto).
  rewrite !flat_map_app. simpl. rewrite Hf.
  rewrite !(Permutation_app_comm L), <- !app_assoc.
  rewrite (Permutation_app_comm L). rewrite !app_assoc. reflexivity.
Qed.

Lemma leaves_set_slot L : forall p kids ks c old new,
  kids_at kids p = Some ks -> ks !! c = Some old ->
  opt_list leaves new ≡ₚ L ++ opt_list leaves old ->
  leaves_kids (set_slot kids p c new) ≡ₚ L ++ leaves_kids kids.
Proof.
  induction p as [|c0 p IH]; intros kids ks c old new Hat Hc Hnew.
  - simpl in *. inversion Hat; subst. by eapply flat_map_insert.
  - apply kids_at_cons in Hat as (a & st & en & kids' & Hc0 & Hat).
    simpl. rewrite Hc0. eapply flat_map_insert; [exact Hc0|].
    simpl. eapply IH; eauto.
Qed.

Lemma addrs_set_slot L : forall p kids ks c old new,
  kids_at kids p = Some ks -> ks !! c = Some old ->
  opt_list addrs new ≡ₚ L ++ opt_list addrs old ->
  addrs_kids (set_slot kids p c new) ≡ₚ L ++ addrs_kids kids.
Proof.
  induction p as [|c0 p IH]; intros kids ks c old new Hat Hc Hnew.
  - simpl in *. inversion Hat; subst. by eapply flat_map_insert.
  - apply kids_at_cons in Hat as (a & st & en & kids' & Hc0 & Hat).
    simpl. rewrite Hc0. eapply flat_map_insert; [exact Hc0|].
    simpl. fold (addrs_kids (set_slot kids' p c new)). fold (addrs_kids kids').
    rewrite (IH _ _ _ _ _ Hat Hc Hnew). apply Permutation_middle.
Qed.

Lemma wf_kids_insert s lim d kids c new :
  wf_kids s lim d kids ->
  (forall t, new = Some t -> char_at s (tstart t) = Z.of_nat c + 36 /\ wf s lim d t) ->
  wf_kids s lim d (<[c:=new]> kids).
Proof.
  intros [Hlen Hk] Hnew. split; [by rewrite length_insert|].
  intros c' t Hc'. destruct (decide (c = c')) as [->|Hne].
  - destruct (decide (c' < length kids)%nat).
    + rewrite list_lookup_insert_eq in Hc' by assumption. inversion Hc'. auto.
    + rewrite list_insert_ge in Hc' by lia. auto.
  - rewrite list_lookup_insert_ne in Hc' by assumption. auto.
Qed.

(** Setting a slot at the end of the path that spells suffix [jx], when
    this adds the leaf [jx] and takes no leaf away. *)
Lemma wf_set_slot s lim jx : forall p kids d ks c old new,
  wf_kids s lim d kids -> on_path s jx d kids p -> kids_at kids p = Some ks ->
  ks !! c = Some old ->
  opt_list leaves new ≡ₚ [jx] ++ opt_list leaves old ->
  (forall t, new = Some t ->
     char_at s (tstart t) = Z.of_nat c + 36 /\ wf s lim (d + depth_at kids p) t) ->
  wf_kids s lim d (set_slot kids p c new).
Proof.
  induction p as [|c0 p IH]; intros kids d ks c old new Hwf Hon Hat Hc Hl Hnew.
  - simpl in *. inversion Hat; subst. rewrite Z.add_0_r in Hnew.
    by apply wf_kids_insert.
  - apply kids_at_cons in Hat as (a & st & en & kids' & Hc0 & Hat).
    simpl in Hon, Hnew |- *. rewrite Hc0 in Hon, Hnew |- *. destruct Hon as [Hag Hon].
    pose proof Hwf as [Hlen Hk]. destruct (Hk _ _ Hc0) as [Hf Hw].
    apply wf_inner_inv in Hw as ((? & ? & ?) & Hne & Hag' & Hwk).
    apply wf_kids_insert; [assumption|]. intros t Ht. inversion Ht; subst t.
    split; [exact Hf|].
    pose proof (leaves_set_slot _ _ _ _ _ _ _ Hat Hc Hl) as Hperm.
    apply wf_inner_intro; auto.
    + intros E. rewrite E in Hperm. symmetry in Hperm.
      apply Permutation_nil_r in Hperm. discriminate.
    + intros jv Hjv. rewrite Hperm in Hjv. apply elem_of_cons in Hjv as [->|Hjv]; auto.
    + eapply IH; eauto. intros t Ht'. rewrite <- Z.add_assoc. auto.
Qed.

(** ** Addresses of the tree *)

Lemma elem_of_addrs_kids kids a :
  a ∈ addrs_kids kids <-> exists c t, kids !! c = Some (Some t) /\ a ∈ addrs t.
Proof.
  unfold addrs_kids. rewrite list_elem_of_In, in_flat_map. split.
  - intros ([t|] & Hin & Ha); simpl in Ha; [|contradiction].
    apply list_elem_of_In, list_elem_of_lookup in Hin as [c Hc].
    exists c, t. split; [assumption|]. by apply list_elem_of_In.
  - intros (c & t & Hc & Ha). exists (Some t). split.
    + apply list_elem_of_In. eapply list_elem_of_lookup_2; eauto.
    + simpl. by apply list_elem_of_In.
Qed.

Lemma taddr_in_addrs t : taddr t ∈ addrs t.
Proof. destruct t; simpl; by left. Qed.

Lemma flat_map_lookup_split {A B} (f : A -> list B) l c x :
  l !! c = Some x ->
  flat_map f l = flat_map f (take c l) ++ f x ++ flat_map f (drop (S c) l).
Proof.
  intros Hc. rewrite <- (take_drop_middle l c x Hc) at 1.
  rewrite flat_map_app. reflexivity.
Qed.

Lemma NoDup_addrs_kid kids c t :
  NoDup (addrs_kids kids) -> kids !! c = Some (Some t) -> NoDup (addrs t).
Proof.
  intros Hnd Hc. unfold addrs_kids in Hnd.
  rewrite (flat_map_lookup_split _ _ _ _ Hc) in Hnd.
  apply NoDup_app in Hnd as (_ & _ & Hnd). apply NoDup_app in Hnd as (Hnd & _ & _).
  exact Hnd.
Qed.

Lemma addrs_kids_disjoint kids c c' t t' a :
  NoDup (addrs_kids kids) -> kids !! c = Some (Some t) -> kids !! c' = Some (Some t') ->
  c <> c' -> a ∈ addrs t -> a ∈ addrs t' -> False.
Proof.
  assert (Hlt : forall c c' t t', (c < c')%nat ->
    NoDup (addrs_kids kids) -> kids !! c = Some (Some t) -> kids !! c' = Some (Some t') ->
    a ∈ addrs t -> a ∈ addrs t' -> False).
  { clear. intros c c' t t' Hlt Hnd Hc Hc' Ha Ha'. unfold addrs_kids in Hnd.
    rewrite (flat_map_lookup_split _ _ _ _ Hc) in Hnd.
    apply NoDup_app in Hnd as (_ & _ & Hnd). apply NoDup_app in Hnd as (_ & Hdis & _).
    apply (Hdis a Ha). apply list_elem_of_In, in_flat_map. exists (Some t'). split.
    - apply list_elem_of_In. apply list_elem_of_lookup. exists (c' - S c)%nat.
      rewrite lookup_drop. rewrite <- Hc'. f_equal. lia.
    - simpl. by apply list_elem_of_In. }
  intros Hnd Hc Hc' Hne Ha Ha'.
  destruct (Nat.lt_total c c') as [H|[H|H]].
  - eauto.
  - lia.
  - eauto.
Qed.

Lemma NoDup_addrs_inner a st en kids :
  NoDup (addrs (TInner a st en kids)) -> (a ∉ addrs_kids kids) /\ NoDup (addrs_kids kids).
Proof. simpl. intros H. apply NoDup_cons in H. exact H. Qed.

(** ** The tree in the store *)

Lemma repr_frame w w' e : forall t,
  repr w e t -> (forall a, a ∈ addrs t -> nodes w' !! a = nodes w !! a) -> repr w' e t.
Proof.
  induction t as [a st jv|a st en kids IH] using tree_ind'; intros H Hfr; inversion H; subst.
  - eapply repr_leaf; eauto. rewrite Hfr; [assumption | by left].
  - eapply repr_inner; eauto.
    + rewrite Hfr; [eassumption | by left].
    + intros c t Hc. eapply IH; eauto.
      intros a' Ha'. apply Hfr. simpl. right. apply elem_of_addrs_kids. eauto.
Qed.

Lemma repr_kids_frame w w' e kids :
  repr_kids w e kids ->
  (forall a, a ∈ addrs_kids kids -> nodes w' !! a = nodes w !! a) ->
  repr_kids w' e kids.
Proof.
  intros H Hfr c t Hc. eapply repr_frame; eauto.
  intros a Ha. apply Hfr. apply elem_of_addrs_kids. eauto.
Qed.

Lemma repr_inner_inv w e a st en kids :
  repr w e (TInner a st en kids) ->
  exists nd, nodes w !! a = Some nd /\ start nd = st /\ end_ nd = EndInt en /\
             leaf_node nd = false /\ child_nodes nd = map (option_map taddr) kids /\
             repr_kids w e kids.
Proof. intros H. inversion H; subst. eauto 10. Qed.

Lemma repr_leaf_inv w e a st jv :
  repr w e (TLeaf a st jv) ->
  exists nd, nodes w !! a = Some nd /\ start nd = st /\ end_ nd = EndRef e /\
             j nd = Some jv /\ leaf_node nd = true.
Proof. intros H. inversion H; subst. eauto 10. Qed.

(** The node at the end of a path. *)
Lemma repr_at w e : forall p r kids ks nd,
  nodes w !! r = Some nd -> leaf_node nd = false ->
  child_nodes nd = map (option_map taddr) kids ->
  repr_kids w e kids -> kids_at kids p = Some ks ->
  exists nd', nodes w !! addr_at r kids p = Some nd' /\ leaf_node nd' = false /\
              child_nodes nd' = map (option_map taddr) ks /\ repr_kids w e ks.
Proof.
  induction p as [|c p IH]; intros r kids ks nd Hnd Hlf Hch Hrep Hat.
  - simpl in *. inversion Hat; subst. eauto.
  - apply kids_at_cons in Hat as (a & st & en & kids' & Hc & Hat).
    simpl. rewrite Hc.
    destruct (repr_inner_inv _ _ _ _ _ _ (Hrep _ _ Hc)) as (nd' & ? & ? & ? & ? & ? & ?).
    eapply IH; eauto.
Qed.

Lemma addr_at_in : forall p r kids ks,
  kids_at kids p = Some ks -> p <> [] -> addr_at r kids p ∈ addrs_kids kids.
Proof.
  induction p as [|c p IH]; intros r kids ks Hat Hp; [done|].
  apply kids_at_cons in Hat as (a & st & en & kids' & Hc & Hat).
  simpl. rewrite Hc. apply elem_of_addrs_kids. exists c, (TInner a st en kids').
  split; [assumption|]. destruct p as [|c' p'].
  - simpl. by left.
  - simpl. right. eapply IH; eauto.
Qed.

Lemma addr_at_in_inner p a st en kids ks :
  kids_at kids p = Some ks -> addr_at a kids p ∈ addrs (TInner a st en kids).
Proof.
  intros Hat. destruct p as [|c p].
  - left.
  - right. eapply addr_at_in; eauto.
Qed.

Lemma kids_at_addrs_sub : forall p kids ks a,
  kids_at kids p = Some ks -> a ∈ addrs_kids ks -> a ∈ addrs_kids kids.
Proof.
  induction p as [|c p IH]; intros kids ks a Hat Ha.
  - simpl in Hat. inversion Hat; subst. assumption.
  - apply kids_at_cons in Hat as (a0 & st & en & kids' & Hc & Hat).
    apply elem_of_addrs_kids. exists c, (TInner a0 st en kids'). split; [assumption|].
    simpl. right. eapply IH; eauto.
Qed.

Lemma set_slot_taddr : forall p kids c new,
  p <> [] ->
  map (option_map taddr) (set_slot kids p c new) = map (option_map taddr) kids.
Proof.
  intros [|c0 p] kids c new Hp; [done|]. simpl.
  destruct (kids !! c0) as [[[|a st en kids']|]|] eqn:Hc0; try reflexivity.
  rewrite list_fmap_insert. simpl. apply list_insert_id.
  rewrite list_lookup_fmap, Hc0. reflexivity.
Qed.

Lemma repr_kids_insert w w' e ks c old new :
  NoDup (addrs_kids ks) -> repr_kids w e ks -> ks !! c = Some old ->
  (forall t, new = Some t -> repr w' e t) ->
  (forall a, a ∈ addrs_kids ks -> a ∉ opt_list addrs old -> nodes w' !! a = nodes w !! a) ->
  repr_kids w' e (<[c:=new]> ks).
Proof.
  intros Hnd Hrep Hc Hnew Hfr c2 t2 Hc2.
  destruct (decide (c = c2)) as [->|Hne].
  - rewrite list_lookup_insert_eq in Hc2 by (eapply lookup_lt_Some; eauto).
    inversion Hc2. auto.
  - rewrite list_lookup_insert_ne in Hc2 by assumption.
    eapply repr_frame; [eauto|]. intros a Ha. apply Hfr.
    + apply elem_of_addrs_kids. eauto.
    + destruct old as [t|]; simpl; [|apply not_elem_of_nil].
      intros Ha'. eapply (addrs_kids_disjoint ks c c2); eauto.
Qed.

Lemma repr_set_slot_kids e w w' c new old : forall p kids ks r,
  p <> [] ->
  NoDup (addrs_kids kids) -> repr_kids w e kids ->
  kids_at kids p = Some ks -> ks !! c = Some old ->
  slot_written w w' (addr_at r kids p) c (option_map taddr new) ->
  (forall t, new = Some t -> repr w' e t) ->
  (forall a, a ∈ addrs_kids kids -> a <> addr_at r kids p -> a ∉ opt_list addrs old ->
             nodes w' !! a = nodes w !! a) ->
  repr_kids w' e (set_slot kids p c new).
Proof.
  induction p as [|c0 p IH]; intros kids ks r Hp Hnd Hrep Hat Hc Hw Hnew Hfr; [done|].
  apply kids_at_cons in Hat as (a & st & en & kids' & Hc0 & Hat).
  simpl in Hw, Hfr |- *. rewrite Hc0 in Hw, Hfr |- *.
  pose proof (NoDup_addrs_kid _ _ _ Hnd Hc0) as Hnd0.
  apply NoDup_addrs_inner in Hnd0 as [Hna Hnd'].
  assert (Hsub : forall x, x ∈ addrs_kids kids' -> x ∈ addrs_kids kids).
  { intros x Hx. apply elem_of_addrs_kids. exists c0, (TInner a st en kids').
    split; [assumption|]. simpl. by right. }
  assert (Hold : forall x, x ∈ opt_list addrs old -> x ∈ addrs_kids kids').
  { intros x Hx. eapply kids_at_addrs_sub; [exact Hat|].
    destruct old as [t|]; simpl in Hx; [|by apply elem_of_nil in Hx].
    apply elem_of_addrs_kids. eauto. }
  destruct (repr_inner_inv _ _ _ _ _ _ (Hrep _ _ Hc0)) as (nd & Hn & Hs & He & Hl & Hch & Hrk).
  intros c1 t1 Hc1. destruct (decide (c0 = c1)) as [->|Hne].
  - rewrite list_lookup_insert_eq in Hc1 by (eapply lookup_lt_Some; eauto).
    inversion Hc1; subst t1. clear Hc1.
    destruct p as [|c' p'].
    + simpl in *. inversion Hat; subst ks.
      destruct Hw as (nd0 & Hn0 & Hn0'). rewrite Hn in Hn0. inversion Hn0; subst nd0.
      eapply repr_inner; [exact Hn0' | | | | |]; try assumption.
      * simpl. rewrite Hch, list_fmap_insert. reflexivity.
      * fold (repr_kids w' e (<[c:=new]> kids')).
        eapply repr_kids_insert; eauto. intros x Hx Hx'. apply Hfr; auto.
        intros ->. contradiction.
    + assert (HX : addr_at a kids' (c' :: p') ∈ addrs_kids kids')
        by (eapply addr_at_in; eauto).
      eapply repr_inner; [| | | | |]; try eassumption.
      * rewrite Hfr; [exact Hn | | |].
        -- apply elem_of_addrs_kids. exists c1, (TInner a st en kids').
           split; [assumption | simpl; by left].
        -- intros E. rewrite <- E in HX. contradiction.
        -- intros Hx. apply Hold in Hx. contradiction.
      * rewrite set_slot_taddr by done. assumption.
      * fold (repr_kids w' e (set_slot kids' (c' :: p') c new)).
        eapply IH; eauto.
  - rewrite list_lookup_insert_ne in Hc1 by assumption.
    eapply repr_frame; [eauto|]. intros x Hx. apply Hfr.
    + apply elem_of_addrs_kids. eauto.
    + intros ->. eapply (addrs_kids_disjoint kids c0 c1); eauto.
      eapply addr_at_in_inner; eauto.
    + intros Hx'. eapply (addrs_kids_disjoint kids c0 c1); eauto.
      simpl. right. auto.
Qed.

Lemma repr_root_set_slot w w' r e c new old p kids ks A :
  repr_root w r e kids ->
  kids_at kids p = Some ks -> ks !! c = Some old ->
  slot_written w w' (addr_at r kids p) c (option_map taddr new) ->
  (forall t, new = Some t -> repr w' e t) ->
  (forall a, a ∈ r :: addrs_kids kids -> a <> addr_at r kids p ->
             a ∉ opt_list addrs old -> nodes w' !! a = nodes w !! a) ->
  opt_list addrs new ≡ₚ A ++ opt_list addrs old ->
  NoDup A -> (forall a, a ∈ A -> a ∉ r :: addrs_kids kids) ->
  repr_root w' r e (set_slot kids p c new).
Proof.
  intros ((nd & Hn & Hl & Hch) & Hrep & Hnd) Hat Hc Hw Hnew Hfr HA HndA Hfresh.
  apply NoDup_cons in Hnd as [Hr Hnd'].
  assert (Hold : forall x, x ∈ opt_list addrs old -> x ∈ addrs_kids kids).
  { intros x Hx. eapply kids_at_addrs_sub; [exact Hat|].
    destruct old as [t|]; simpl in Hx; [|by apply elem_of_nil in Hx].
    apply elem_of_addrs_kids. eauto. }
  split; [|split].
  - destruct p as [|c0 p0].
    + simpl in *. inversion Hat; subst ks.
      destruct Hw as (nd0 & Hn0 & Hn0'). rewrite Hn in Hn0. inversion Hn0; subst nd0.
      eexists. split; [exact Hn0'|]. split; [exact Hl|].
      simpl. rewrite Hch, list_fmap_insert. reflexivity.
    + exists nd. split; [|split; [exact Hl|]].
      * rewrite Hfr; [exact Hn | by left | |].
        -- intros E. apply Hr. rewrite E. eapply addr_at_in; eauto.
        -- intros Hx. apply Hold in Hx. contradiction.
      * rewrite set_slot_taddr by done. exact Hch.
  - destruct p as [|c0 p0].
    + simpl in *. inversion Hat; subst ks.
      eapply repr_kids_insert; eauto. intros x Hx Hx'. apply Hfr; auto.
      * by right.
      * intros ->. contradiction.
    + eapply repr_set_slot_kids; eauto. intros x Hx. apply Hfr. by right.
  - rewrite (addrs_set_slot _ _ _ _ _ _ _ Hat Hc HA).
    apply NoDup_cons. split.
    + intros Hx. apply elem_of_app in Hx as [Hx|Hx]; [|contradiction].
      apply (Hfresh _ Hx). by left.
    + apply NoDup_app. split; [assumption|]. split; [|assumption].
      intros x Hx Hx'. apply (Hfresh _ Hx). by right.
Qed.

(** ** Paths that grow by one slot *)

Lemma kids_at_snoc : forall p kids ks c a st en kids',
  kids_at kids p = Some ks -> ks !! c = Some (Some (TInner a st en kids')) ->
  kids_at kids (p ++ [c]) = Some kids'.
Proof.
  induction p as [|c0 p IH]; intros kids ks c a st en kids' Hat Hc.
  - simpl in *. inversion Hat; subst. rewrite Hc. reflexivity.
  - apply kids_at_cons in Hat as (a0 & st0 & en0 & kids0 & Hc0 & Hat).
    simpl. rewrite Hc0. eapply IH; eauto.
Qed.

Lemma addr_at_snoc : forall p r kids ks c a st en kids',
  kids_at kids p = Some ks -> ks !! c = Some (Some (TInner a st en kids')) ->
  addr_at r kids (p ++ [c]) = a.
Proof.
  induction p as [|c0 p IH]; intros r kids ks c a st en kids' Hat Hc.
  - simpl in *. inversion Hat; subst. rewrite Hc. reflexivity.
  - apply kids_at_cons in Hat as (a0 & st0 & en0 & kids0 & Hc0 & Hat).
    simpl. rewrite Hc0. eapply IH; eauto.
Qed.

Lemma depth_at_snoc : forall p kids ks c a st en kids',
  kids_at kids p = Some ks -> ks !! c = Some (Some (TInner a st en kids')) ->
  depth_at kids (p ++ [c]) = depth_at kids p + (en - st).
Proof.
  induction p as [|c0 p IH]; intros kids ks c a st en kids' Hat Hc.
  - simpl in *. inversion Hat; subst. rewrite Hc. lia.
  - apply kids_at_cons in Hat as (a0 & st0 & en0 & kids0 & Hc0 & Hat).
    simpl. rewrite Hc0. erewrite IH by eauto. lia.
Qed.

Lemma on_path_snoc s jx : forall p d kids ks c a st en kids',
  kids_at kids p = Some ks -> ks !! c = Some (Some (TInner a st en kids')) ->
  on_path s jx d kids p ->
  agree s st (jx + (d + depth_at kids p)) (en - st) ->
  on_path s jx d kids (p ++ [c]).
Proof.
  induction p as [|c0 p IH]; intros d kids ks c a st en kids' Hat Hc Hon Hag.
  - simpl in *. inversion Hat; subst. rewrite Hc. rewrite Z.add_0_r in Hag. auto.
  - apply kids_at_cons in Hat as (a0 & st0 & en0 & kids0 & Hc0 & Hat).
    simpl in *. rewrite Hc0 in *. destruct Hon as [Hag0 Hon]. split; [assumption|].
    eapply IH; eauto. rewrite <- Z.add_assoc. assumption.
Qed.

(** ** Indexing in range *)

Lemma py_index_char (s : str) k :
  0 <= k < Z.of_nat (length s) -> py_index s k = Ok (char_at s k).
Proof.
  intros Hk. unfold py_index, py_norm, char_at.
  destruct (Z.leb_spec 0 k); [|lia]. destruct (Z.ltb_spec k (Z.of_nat (length s))); [|lia].
  simpl. destruct (lookup_lt_is_Some_2 s (Z.to_nat k)) as [x Hx]; [lia|].
  rewrite Hx. f_equal. symmetry. by apply nth_lookup_Some.
Qed.

Lemma py_index_slot {A} (l : list A) c x :
  length l = 91%nat -> 36 <= c <= 126 -> l !! slot_of c = Some x ->
  py_index l (c - 36) = Ok x.
Proof.
  intros Hl Hc Hx. unfold py_index, py_norm. rewrite Hl.
  destruct (Z.leb_spec 0 (c - 36)); [|lia].
  destruct (Z.ltb_spec (c - 36) (Z.of_nat 91)); [|lia].
  simpl. fold (slot_of c). rewrite Hx. reflexivity.
Qed.

Lemma py_setitem_slot {A} (l : list A) c x :
  length l = 91%nat -> 36 <= c <= 126 ->
  py_setitem l (c - 36) x = Ok (<[slot_of c:=x]> l).
Proof.
  intros Hl Hc. unfold py_setitem, py_norm. rewrite Hl.
  destruct (Z.leb_spec 0 (c - 36)); [|lia].
  destruct (Z.ltb_spec (c - 36) (Z.of_nat 91)); [|lia].
  reflexivity.
Qed.

(** ** Running the code forward *)

Lemma bind_lift_Ok {A B} (r : result A) (k : A -> M B) w a :
  r = Ok a -> bind (lift r) k w = k a w.
Proof. intros ->. reflexivity. Qed.

Lemma bind_ret {A B} (a : A) (k : A -> M B) w : bind (ret a) k w = k a w.
Proof. reflexivity. Qed.

Lemma get_node_eq a w nd : nodes w !! a = Some nd -> get_node a w = Ok (nd, w).
Proof. unfold get_node. intros ->. reflexivity. Qed.

Lemma is_leaf_eq a w nd : nodes w !! a = Some nd -> is_leaf a w = Ok (leaf_node nd, w).
Proof. intros H. unfold is_leaf. rewrite (bind_eq _ _ _ _ _ (get_node_eq _ _ _ H)). reflexivity. Qed.

Lemma get_start_eq a w nd : nodes w !! a = Some nd -> get_start a w = Ok (start nd, w).
Proof. intros H. unfold get_start. rewrite (bind_eq _ _ _ _ _ (get_node_eq _ _ _ H)). reflexivity. Qed.

Lemma Node_getitem_eq a k w nd x :
  nodes w !! a = Some nd -> py_index (child_nodes nd) k = Ok x ->
  Node_getitem a k w = Ok (x, w).
Proof.
  intros H Hx. unfold Node_getitem. rewrite (bind_eq _ _ _ _ _ (get_node_eq _ _ _ H)).
  rewrite Hx. reflexivity.
Qed.

Lemma get_length_inner a w nd en :
  nodes w !! a = Some nd -> end_ nd = EndInt en ->
  get_length a w = Ok (en - start nd, w).
Proof.
  intros H He. unfold get_length, get_end.
  unfold bind at 1. unfold bind at 1. rewrite (get_node_eq _ _ _ H), He.
  unfold ret at 1. rewrite (bind_eq _ _ _ _ _ (get_node_eq _ _ _ H)). reflexivity.
Qed.

Lemma get_length_leaf a w nd e v :
  nodes w !! a = Some nd -> end_ nd = EndRef e -> ends w !! e = Some v ->
  get_length a w = Ok (v - start nd, w).
Proof.
  intros H He Hv. unfold get_length, get_end.
  unfold bind at 1. unfold bind at 1. rewrite (get_node_eq _ _ _ H), He.
  unfold get_end_pointer. rewrite Hv.
  rewrite (bind_eq _ _ _ _ _ (get_node_eq _ _ _ H)). reflexivity.
Qed.

Ltac mstep H := rewrite (bind_eq _ _ _ _ _ H); cbv beta.
Ltac mlift H := rewrite (bind_lift_Ok _ _ _ _ H); cbv beta.

(** The slot of the node at the end of a path, read from the store. *)
Lemma getitem_at w r e kids p ks c o :
  repr_root w r e kids -> kids_at kids p = Some ks ->
  length ks = 91%nat -> 36 <= c <= 126 -> ks !! slot_of c = Some o ->
  Node_getitem (addr_at r kids p) (c - 36) w = Ok (option_map taddr o, w).
Proof.
  intros ((nd & Hn & Hl & Hch) & Hrep & _) Hat Hlen Hc Ho.
  destruct (repr_at _ _ _ _ _ _ _ Hn Hl Hch Hrep Hat) as (nd' & Hn' & Hl' & Hch' & _).
  eapply Node_getitem_eq; [exact Hn'|]. rewrite Hch'.
  apply py_index_slot; [by rewrite length_map | assumption |].
  rewrite list_lookup_fmap, Ho. reflexivity.
Qed.

Lemma is_leaf_at w r e kids p ks :
  repr_root w r e kids -> kids_at kids p = Some ks ->
  is_leaf (addr_at r kids p) w = Ok (false, w).
Proof.
  intros ((nd & Hn & Hl & Hch) & Hrep & _) Hat.
  destruct (repr_at _ _ _ _ _ _ _ Hn Hl Hch Hrep Hat) as (nd' & Hn' & Hl' & Hch' & _).
  rewrite (is_leaf_eq _ _ _ Hn'), Hl'. reflexivity.
Qed.

Lemma repr_kids_at w r e kids p ks :
  repr_root w r e kids -> kids_at kids p = Some ks -> repr_kids w e ks.
Proof.
  intros ((nd & Hn & Hl & Hch) & Hrep & _) Hat.
  destruct (repr_at _ _ _ _ _ _ _ Hn Hl Hch Hrep Hat) as (nd' & Hn' & Hl' & Hch' & ?).
  assumption.
Qed.

Lemma wf_kids_at s lim jx kids p ks :
  wf_kids s lim 0 kids -> on_path s jx 0 kids p -> kids_at kids p = Some ks ->
  wf_kids s lim (depth_at kids p) ks.
Proof.
  intros Hwf Hon Hat. destruct (on_path_leaves _ _ _ _ _ _ _ Hwf Hon Hat) as (H & _).
  rewrite Z.add_0_l in H. exact H.
Qed.

Lemma in_kids_eq s kids b m b' m' :
  in_kids s kids b m -> b = b' -> m = m' -> in_kids s kids b' m'.
Proof. intros H -> ->. exact H. Qed.

Lemma lookup_slot {A} (ks : list A) c :
  length ks = 91%nat -> 36 <= c <= 126 -> exists o, ks !! slot_of c = Some o.
Proof.
  intros Hl Hc. apply lookup_lt_is_Some_2. rewrite Hl. unfold slot_of. lia.
Qed.

Lemma bind_raise {A B} (m : M A) (k : A -> M B) w e :
  m w = Raise e -> bind m k w = Raise e.
Proof. unfold bind. intros ->. reflexivity. Qed.

Lemma py_index_above {A} (l : list A) k :
  Z.of_nat (length l) <= k -> py_index l k = Raise IndexError.
Proof.
  intros Hk. unfold py_index, py_norm.
  destruct (Z.ltb_spec k (Z.of_nat (length l))); [lia|]. rewrite andb_false_r.
  destruct (Z.ltb_spec k 0); [lia|]. by rewrite andb_false_r.
Qed.

Lemma py_setitem_above {A} (l : list A) k x :
  Z.of_nat (length l) <= k -> py_setitem l k x = Raise IndexError.
Proof.
  intros Hk. unfold py_setitem, py_norm.
  destruct (Z.ltb_spec k (Z.of_nat (length l))); [lia|]. rewrite andb_false_r.
  destruct (Z.ltb_spec k 0); [lia|]. by rewrite andb_false_r.
Qed.

Lemma getitem_above w r e kids p ks k :
  repr_root w r e kids -> kids_at kids p = Some ks -> length ks = 91%nat -> 91 <= k ->
  Node_getitem (addr_at r kids p) k w = Raise IndexError.
Proof.
  intros ((nd & Hn & Hl & Hch) & Hrep & _) Hat Hlen Hk.
  destruct (repr_at _ _ _ _ _ _ _ Hn Hl Hch Hrep Hat) as (nd' & Hn' & Hl' & Hch' & _).
  unfold Node_getitem. mstep (get_node_eq _ _ _ Hn').
  rewrite py_index_above; [reflexivity|]. rewrite Hch', length_map, Hlen. lia.
Qed.

(** ** Steps that write to the store *)

Lemma Node_new_step st en inc sl lf w :
  exists w1,
    Node_new st en inc sl lf w = Ok (length (nodes w), w1) /\
    nodes w1 !! length (nodes w) = Some (mkNode inc st en sl [] None lf empty_slots) /\
    (forall b, (b < length (nodes w))%nat -> nodes w1 !! b = nodes w !! b) /\
    length (nodes w1) = S (length (nodes w)) /\ ends w1 = ends w.
Proof.
  eexists. split; [reflexivity|]. cbn [nodes ends]. split; [|split; [|split]].
  - rewrite lookup_app_r by lia. rewrite Nat.sub_diag. reflexivity.
  - intros b Hb. by apply lookup_app_l.
  - rewrite length_app. simpl. lia.
  - reflexivity.
Qed.

Lemma put_node_step a nd nd0 w :
  nodes w !! a = Some nd0 ->
  exists w1,
    put_node a nd w = Ok (tt, w1) /\
    nodes w1 !! a = Some nd /\
    (forall b, b <> a -> nodes w1 !! b = nodes w !! b) /\
    length (nodes w1) = length (nodes w) /\ ends w1 = ends w.
Proof.
  intros H. unfold put_node. rewrite H. eexists. split; [reflexivity|].
  cbn [nodes ends]. split; [|split; [|split]].
  - apply list_lookup_insert_eq. eapply lookup_lt_Some; eauto.
  - intros b Hb. apply list_lookup_insert_ne. congruence.
  - apply length_insert.
  - reflexivity.
Qed.

Lemma Node_setitem_step a c v nd w :
  nodes w !! a = Some nd -> length (child_nodes nd) = 91%nat -> 36 <= c <= 126 ->
  exists w1,
    Node_setitem a (c - 36) v w = Ok (tt, w1) /\
    nodes w1 !! a = Some (set_child_nodes nd (<[slot_of c:=v]> (child_nodes nd))) /\
    (forall b, b <> a -> nodes w1 !! b = nodes w !! b) /\
    length (nodes w1) = length (nodes w) /\ ends w1 = ends w.
Proof.
  intros H Hl Hc. unfold Node_setitem.
  destruct (put_node_step a (set_child_nodes nd (<[slot_of c:=v]> (child_nodes nd))) nd w H)
    as (w1 & Hrun & ?).
  exists w1. split; [|assumption].
  mstep (get_node_eq _ _ _ H).
  rewrite (bind_lift_Ok _ _ _ _ (py_setitem_slot _ _ v Hl Hc)). exact Hrun.
Qed.

Lemma length_empty_slots : length empty_slots = 91%nat.
Proof. reflexivity. Qed.

Lemma empty_slots_lookup c o : empty_slots !! c = Some o -> o = None.
Proof. unfold empty_slots. intros H. apply lookup_replicate in H. tauto. Qed.

(** ** A new leaf in the store *)

Lemma new_leaf_run self i j w kids p ks c :
  repr_root w (root self) (end_obj self) kids ->
  (forall a, a ∈ root self :: addrs_kids kids -> (a < length (nodes w))%nat) ->
  kids_at kids p = Some ks -> length ks = 91%nat -> 36 <= c <= 126 ->
  ks !! slot_of c = Some None ->
  exists w1,
    new_leaf self i j (addr_at (root self) kids p) (c - 36) w = Ok (tt, w1) /\
    repr_root w1 (root self) (end_obj self)
      (set_slot kids p (slot_of c)
                (Some (TLeaf (length (nodes w)) (i - active_length self) j))) /\
    length (nodes w1) = S (length (nodes w)) /\ ends w1 = ends w.
Proof.
  intros Hrep Hrange Hat Hlen Hc Ho.
  pose proof Hrep as ((ndr & Hnr & Hlr & Hchr) & Hrk & Hnd).
  destruct (repr_at _ _ _ _ _ _ _ Hnr Hlr Hchr Hrk Hat) as (nd & Hn & Hl & Hch & _).
  set (X := addr_at (root self) kids p) in *. set (a0 := length (nodes w)).
  assert (HX : (X < a0)%nat).
  { apply Hrange. destruct p as [|c0 p0]; [by left|]. right. eapply addr_at_in; eauto. }
  unfold new_leaf.
  destruct (Node_new_step (i - active_length self) (EndRef (end_obj self)) None
              (Some (root self)) true w) as (w1 & R1 & N1 & F1 & L1 & E1).
  mstep R1. fold a0 in N1.
  assert (Hn1 : nodes w1 !! X = Some nd) by (rewrite F1; assumption).
  assert (Hl91 : length (child_nodes nd) = 91%nat) by (rewrite Hch, length_map; assumption).
  destruct (Node_setitem_step X c (Some a0) nd w1 Hn1 Hl91 Hc) as (w2 & R2 & N2 & F2 & L2 & E2).
  mstep R2.
  assert (R3 : Node_getitem X (c - 36) w2 = Ok (Some a0, w2)).
  { eapply Node_getitem_eq; [exact N2|]. cbn [child_nodes set_child_nodes].
    apply py_index_slot; [by rewrite length_insert | assumption |].
    apply list_lookup_insert_eq. rewrite Hl91. unfold slot_of. lia. }
  mstep R3. cbn [the_node]. rewrite bind_ret.
  assert (Hn2 : nodes w2 !! a0 = Some (mkNode None (i - active_length self)
                  (EndRef (end_obj self)) (Some (root self)) [] None true empty_slots))
    by (rewrite F2 by lia; assumption).
  mstep (get_node_eq _ _ _ Hn2).
  destruct (put_node_step a0 (set_j (mkNode None (i - active_length self)
                  (EndRef (end_obj self)) (Some (root self)) [] None true empty_slots) (Some j))
              _ w2 Hn2) as (w3 & R4 & N4 & F4 & L4 & E4).
  exists w3. split; [exact R4|]. split; [|split; [lia | congruence]].
  eapply (repr_root_set_slot w w3 _ _ _ _ None p kids ks [a0]); eauto.
  - exists nd. split; [assumption|]. rewrite F4 by lia. exact N2.
  - intros t Ht. inversion Ht; subst t. eapply repr_leaf; [exact N4|..]; reflexivity.
  - intros a Ha Hne _. specialize (Hrange a Ha).
    rewrite F4 by (unfold a0; lia). rewrite F2 by assumption. apply F1. assumption.
  - apply NoDup_singleton.
  - intros a Ha Hin. apply list_elem_of_singleton in Ha. subst a.
    specialize (Hrange _ Hin). unfold a0 in Hrange. lia.
Qed.

(** ** Splitting an edge in the store *)

Lemma no_kids_addrs : map (option_map taddr) no_kids = empty_slots.
Proof. reflexivity. Qed.

Lemma length_no_kids : length no_kids = 91%nat.
Proof. reflexivity. Qed.

Lemma no_kids_lookup c o : no_kids !! c = Some o -> o = None.
Proof. unfold no_kids. intros H. apply lookup_replicate in H. tauto. Qed.

Lemma repr_node w e t :
  repr w e t -> exists nd, nodes w !! taddr t = Some nd /\ start nd = tstart t.
Proof. intros H. inversion H; subst; simpl; eauto. Qed.

Lemma addrs_shift_start t x : addrs (shift_start t x) = addrs t.
Proof. destruct t; reflexivity. Qed.

Lemma taddr_shift_start t x : taddr (shift_start t x) = taddr t.
Proof. destruct t; reflexivity. Qed.

Lemma repr_shift_start w w' e t nd x :
  repr w e t -> NoDup (addrs t) ->
  nodes w !! taddr t = Some nd ->
  nodes w' !! taddr t = Some (set_start nd (start nd + x)) ->
  (forall a, a ∈ addrs t -> a <> taddr t -> nodes w' !! a = nodes w !! a) ->
  repr w' e (shift_start t x).
Proof.
  intros H Hnd Hn Hn' Hfr. destruct t as [a st jv|a st en kids]; simpl in *.
  - apply repr_leaf_inv in H as (nd0 & Hn0 & Hs & He & Hj & Hl).
    rewrite Hn in Hn0; inversion Hn0; subst nd0.
    eapply repr_leaf; [exact Hn'|..]; simpl; congruence.
  - apply repr_inner_inv in H as (nd0 & Hn0 & Hs & He & Hl & Hch & Hrk).
    rewrite Hn in Hn0; inversion Hn0; subst nd0.
    apply NoDup_cons in Hnd as [Hna _].
    eapply repr_inner; [exact Hn'|..]; simpl; try congruence.
    fold (repr_kids w' e kids). eapply repr_kids_frame; [exact Hrk|].
    intros a' Ha'. apply Hfr; [by right|]. intros ->. contradiction.
Qed.

Lemma NoDup_kids_at : forall p kids ks,
  NoDup (addrs_kids kids) -> kids_at kids p = Some ks -> NoDup (addrs_kids ks).
Proof.
  induction p as [|c p IH]; intros kids ks Hnd Hat.
  - simpl in Hat. inversion Hat; subst. assumption.
  - apply kids_at_cons in Hat as (a & st & en & kids' & Hc & Hat).
    pose proof (NoDup_addrs_kid _ _ _ Hnd Hc) as H.
    apply NoDup_addrs_inner in H as [_ H]. eauto.
Qed.

Lemma addr_at_not_in_kids : forall p r kids ks,
  NoDup (r :: addrs_kids kids) -> kids_at kids p = Some ks ->
  addr_at r kids p ∉ addrs_kids ks.
Proof.
  induction p as [|c p IH]; intros r kids ks Hnd Hat.
  - simpl in *. inversion Hat; subst. by apply NoDup_cons in Hnd as [? _].
  - apply kids_at_cons in Hat as (a & st & en & kids' & Hc & Hat).
    simpl. rewrite Hc. apply IH; [|assumption].
    apply NoDup_cons in Hnd as [_ Hnd].
    exact (NoDup_addrs_kid _ _ _ Hnd Hc).
Qed.

Lemma slot_of_inj c1 c2 :
  36 <= c1 <= 126 -> 36 <= c2 <= 126 -> slot_of c1 = slot_of c2 -> c1 = c2.
Proof. unfold slot_of. lia. Qed.

Lemma slot_of_lt c : 36 <= c <= 126 -> (slot_of c < 91)%nat.
Proof. unfold slot_of. lia. Qed.

Lemma addrs_split_node a0 a1 t m i j c1 c2 :
  36 <= c1 <= 126 -> 36 <= c2 <= 126 -> c1 <> c2 ->
  addrs (split_node a0 a1 t m i j c1 c2) ≡ₚ [a0; a1] ++ addrs t.
Proof.
  intros H1 H2 Hne. unfold split_node. cbn [addrs].
  assert (Hs : slot_of c1 <> slot_of c2) by (intros E; apply Hne; by apply slot_of_inj).
  rewrite (flat_map_insert (opt_list addrs) _ (slot_of c2) None _ [a1]).
  - rewrite (flat_map_insert (opt_list addrs) _ (slot_of c1) None _ (addrs t)).
    + change (flat_map (opt_list addrs) no_kids) with (@nil addr).
      rewrite app_nil_r. reflexivity.
    + apply lookup_replicate. split; [reflexivity | by apply slot_of_lt].
    + simpl. rewrite addrs_shift_start, app_nil_r. reflexivity.
  - rewrite list_lookup_insert_ne by assumption.
    apply lookup_replicate. split; [reflexivity | by apply slot_of_lt].
  - reflexivity.
Qed.

Lemma split_edge_run s self i j w kids p ks c t c1 c2 :
  repr_root w (root self) (end_obj self) kids ->
  (forall a, a ∈ root self :: addrs_kids kids -> (a < length (nodes w))%nat) ->
  kids_at kids p = Some ks -> length ks = 91%nat -> 36 <= c <= 126 ->
  ks !! slot_of c = Some (Some t) ->
  py_index s (tstart t - 1 + active_length self) = Ok c1 -> 36 <= c1 <= 126 ->
  py_index s (i - 1) = Ok c2 -> 36 <= c2 <= 126 -> c1 <> c2 ->
  exists w1,
    split_edge self s i j (addr_at (root self) kids p) (c - 36) (taddr t) w = Ok (tt, w1) /\
    repr_root w1 (root self) (end_obj self)
      (set_slot kids p (slot_of c)
         (Some (split_node (length (nodes w)) (S (length (nodes w))) t
                           (active_length self - 1) i j c1 c2))) /\
    length (nodes w1) = S (S (length (nodes w))) /\ ends w1 = ends w.
Proof.
  intros Hrep Hrange Hat Hlen Hc Ho Hc1 Hr1 Hc2 Hr2 Hne.
  pose proof Hrep as ((ndr & Hnr & Hlr & Hchr) & Hrk & Hnd).
  destruct (repr_at _ _ _ _ _ _ _ Hnr Hlr Hchr Hrk Hat) as (nd & Hn & Hl & Hch & Hrks).
  pose proof (Hrks _ _ Ho) as Hrt.
  destruct (repr_node _ _ _ Hrt) as (ndt & Hnt & Hst).
  set (X := addr_at (root self) kids p) in *. set (a0 := length (nodes w)).
  set (ae := taddr t) in *. set (L := active_length self) in *.
  assert (HXin : X ∈ root self :: addrs_kids kids).
  { destruct p as [|c0 p0]; [by left|]. right. eapply addr_at_in; eauto. }
  assert (HX : (X < a0)%nat) by (apply Hrange; assumption).
  assert (Haein : ae ∈ addrs_kids ks).
  { apply elem_of_addrs_kids. exists (slot_of c), t. split; [assumption | apply taddr_in_addrs]. }
  assert (Hae : (ae < a0)%nat).
  { apply Hrange. right. eapply kids_at_addrs_sub; eauto. }
  assert (HXks : X ∉ addrs_kids ks) by (eapply addr_at_not_in_kids; eauto).
  assert (HaeX : ae <> X) by (intros E; rewrite E in Haein; contradiction).
  assert (Hs12 : slot_of c1 <> slot_of c2) by (intros E; apply Hne; by apply slot_of_inj).
  unfold split_edge.
  mstep (get_start_eq _ _ _ Hnt). mstep (get_start_eq _ _ _ Hnt). rewrite Hst.
  destruct (Node_new_step (tstart t) (EndInt (tstart t + L - 1)) None
              (Some (root self)) false w) as (w1 & R1 & N1 & F1 & L1 & E1).
  mstep R1. fold a0 in N1.
  assert (Hn1 : nodes w1 !! X = Some nd) by (rewrite F1; assumption).
  assert (Hl91 : length (child_nodes nd) = 91%nat) by (rewrite Hch, length_map; assumption).
  destruct (Node_setitem_step X c (Some a0) nd w1 Hn1 Hl91 Hc) as (w2 & R2 & N2 & F2 & L2 & E2).
  mstep R2.
  assert (Hnt2 : nodes w2 !! ae = Some ndt) by (rewrite F2, F1; auto).
  mstep (get_start_eq _ _ _ Hnt2). rewrite Hst.
  rewrite (bind_lift_Ok _ _ _ _ Hc1). cbv beta.
  mstep (get_node_eq _ _ _ Hnt2).
  destruct (put_node_step ae (set_start ndt (start ndt + (L - 1))) ndt w2 Hnt2)
    as (w3 & R3 & N3 & F3 & L3 & E3).
  mstep R3.
  assert (Hn03 : nodes w3 !! a0 = Some (mkNode None (tstart t) (EndInt (tstart t + L - 1))
                   (Some (root self)) [] None false empty_slots)).
  { rewrite F3 by lia. rewrite F2 by lia. assumption. }
  destruct (Node_setitem_step a0 c1 (Some ae) _ w3 Hn03 length_empty_slots Hr1)
    as (w4 & R4 & N4 & F4 & L4 & E4).
  mstep R4. cbn [child_nodes set_child_nodes] in N4.
  rewrite (bind_lift_Ok _ _ _ _ Hc2). cbv beta.
  assert (Hlen4 : length (nodes w4) = S a0) by lia.
  destruct (Node_new_step (i - 1) (EndRef (end_obj self)) None (Some (root self)) true w4)
    as (w5 & R5 & N5 & F5 & L5 & E5).
  mstep R5. rewrite Hlen4 in *.
  assert (Hn05 : nodes w5 !! a0 = Some (set_child_nodes
                   (mkNode None (tstart t) (EndInt (tstart t + L - 1))
                      (Some (root self)) [] None false empty_slots)
                   (<[slot_of c1:=Some ae]> empty_slots))).
  { rewrite F5 by lia. assumption. }
  destruct (Node_setitem_step a0 c2 (Some (S a0)) _ w5 Hn05
              ltac:(cbn; rewrite length_insert; reflexivity) Hr2)
    as (w6 & R6 & N6 & F6 & L6 & E6).
  mstep R6. cbn [child_nodes set_child_nodes] in N6.
  assert (R7 : Node_getitem a0 (c2 - 36) w6 = Ok (Some (S a0), w6)).
  { eapply Node_getitem_eq; [exact N6|]. cbn [child_nodes set_child_nodes].
    apply py_index_slot; [by rewrite !length_insert | assumption |].
    apply list_lookup_insert_eq. rewrite length_insert. by apply slot_of_lt. }
  mstep R7. cbn [the_node]. rewrite bind_ret.
  assert (Hn16 : nodes w6 !! S a0 = Some (mkNode None (i - 1) (EndRef (end_obj self))
                    (Some (root self)) [] None true empty_slots))
    by (rewrite F6 by lia; assumption).
  mstep (get_node_eq _ _ _ Hn16).
  destruct (put_node_step (S a0) (set_j (mkNode None (i - 1) (EndRef (end_obj self))
                    (Some (root self)) [] None true empty_slots) (Some j)) _ w6 Hn16)
    as (w7 & R8 & N8 & F8 & L8 & E8).
  exists w7. split; [exact R8|]. split; [|split; [lia | congruence]].
  assert (Hold : forall a, (a < a0)%nat -> a <> X -> a <> ae -> nodes w7 !! a = nodes w !! a).
  { intros a Ha HaX Haae. rewrite F8 by lia. rewrite F6 by lia. rewrite F5 by lia.
    rewrite F4 by lia. rewrite F3 by assumption. rewrite F2 by assumption. auto. }
  eapply (repr_root_set_slot w w7 _ _ _ _ (Some t) p kids ks [a0; S a0]); eauto.
  - exists nd. split; [assumption|]. rewrite F8 by lia. rewrite F6 by lia.
    rewrite F5 by lia. rewrite F4 by lia. rewrite F3 by auto. exact N2.
  - intros t' Ht'. inversion Ht'; subst t'. unfold split_node.
    eapply repr_inner.
    + rewrite F8 by lia. exact N6.
    + reflexivity.
    + cbn. f_equal. lia.
    + reflexivity.
    + cbn [child_nodes set_child_nodes]. rewrite !list_fmap_insert.
      change (option_map taddr <$> no_kids) with empty_slots. cbn [option_map taddr].
      rewrite taddr_shift_start. reflexivity.
    + intros c' t' Hc'. destruct (decide (slot_of c2 = c')) as [<-|Hne2].
      * rewrite list_lookup_insert_eq in Hc'
          by (rewrite length_insert, length_no_kids; by apply slot_of_lt).
        inversion Hc'; subst t'. eapply repr_leaf; [exact N8|..]; reflexivity.
      * rewrite list_lookup_insert_ne in Hc' by assumption.
        destruct (decide (slot_of c1 = c')) as [<-|Hne1].
        -- rewrite list_lookup_insert_eq in Hc' by (rewrite length_no_kids; by apply slot_of_lt).
           inversion Hc'; subst t'.
           eapply (repr_shift_start w w7 _ t ndt); eauto.
           ++ eapply NoDup_addrs_kid; [|exact Ho]. eapply NoDup_kids_at; [|exact Hat].
              by apply NoDup_cons in Hnd as [_ ?].
           ++ fold ae. rewrite F8 by lia. rewrite F6 by lia. rewrite F5 by lia.
              rewrite F4 by lia. exact N3.
           ++ fold ae. intros a Ha Hne'. apply Hold; [| |assumption].
              ** apply Hrange. right. eapply kids_at_addrs_sub; [exact Hat|].
                 apply elem_of_addrs_kids. eauto.
              ** intros ->. apply HXks. apply elem_of_addrs_kids. eauto.
        -- rewrite list_lookup_insert_ne in Hc' by assumption.
           apply no_kids_lookup in Hc'. discriminate.
  - intros a Ha HaX Hnot. apply Hold; [by apply Hrange | assumption |].
    intros ->. apply Hnot. simpl. apply taddr_in_addrs.
  - cbn [opt_list]. by apply addrs_split_node.
  - apply NoDup_cons. split; [|apply NoDup_singleton].
    intros H. apply list_elem_of_singleton in H. lia.
  - intros a Ha Hin. specialize (Hrange _ Hin). fold a0 in Hrange.
    apply elem_of_cons in Ha as [->|Ha]; [lia|].
    apply list_elem_of_singleton in Ha. lia.
Qed.

Lemma Node_setitem_above a k v nd w :
  nodes w !! a = Some nd -> length (child_nodes nd) = 91%nat -> 91 <= k ->
  Node_setitem a k v w = Raise IndexError.
Proof.
  intros H Hl Hk. unfold Node_setitem. mstep (get_node_eq _ _ _ H).
  apply bind_raise. rewrite py_setitem_above; [reflexivity|]. lia.
Qed.

(** The split of an edge for a character above the alphabet: the new
    internal node is made and put in place, and the assignment of the new
    leaf to its slot is out of range. *)
Lemma split_edge_above s self i j w kids p ks c t c1 c2 :
  repr_root w (root self) (end_obj self) kids ->
  (forall a, a ∈ root self :: addrs_kids kids -> (a < length (nodes w))%nat) ->
  kids_at kids p = Some ks -> length ks = 91%nat -> 36 <= c <= 126 ->
  ks !! slot_of c = Some (Some t) ->
  py_index s (tstart t - 1 + active_length self) = Ok c1 -> 36 <= c1 <= 126 ->
  py_index s (i - 1) = Ok c2 -> 126 < c2 ->
  split_edge self s i j (addr_at (root self) kids p) (c - 36) (taddr t) w = Raise IndexError.
Proof.
  intros Hrep Hrange Hat Hlen Hc Ho Hc1 Hr1 Hc2 Hr2.
  pose proof Hrep as ((ndr & Hnr & Hlr & Hchr) & Hrk & Hnd).
  destruct (repr_at _ _ _ _ _ _ _ Hnr Hlr Hchr Hrk Hat) as (nd & Hn & Hl & Hch & Hrks).
  pose proof (Hrks _ _ Ho) as Hrt.
  destruct (repr_node _ _ _ Hrt) as (ndt & Hnt & Hst).
  set (X := addr_at (root self) kids p) in *. set (a0 := length (nodes w)).
  set (ae := taddr t) in *. set (L := active_length self) in *.
  assert (HXin : X ∈ root self :: addrs_kids kids).
  { destruct p as [|c0 p0]; [by left|]. right. eapply addr_at_in; eauto. }
  assert (HX : (X < a0)%nat) by (apply Hrange; assumption).
  assert (Haein : ae ∈ addrs_kids ks).
  { apply elem_of_addrs_kids. exists (slot_of c), t. split; [assumption | apply taddr_in_addrs]. }
  assert (Hae : (ae < a0)%nat).
  { apply Hrange. right. eapply kids_at_addrs_sub; eauto. }
  assert (HXks : X ∉ addrs_kids ks) by (eapply addr_at_not_in_kids; eauto).
  assert (HaeX : ae <> X) by (intros E; rewrite E in Haein; contradiction).
  unfold split_edge.
  mstep (get_start_eq _ _ _ Hnt). mstep (get_start_eq _ _ _ Hnt). rewrite Hst.
  destruct (Node_new_step (tstart t) (EndInt (tstart t + L - 1)) None
              (Some (root self)) false w) as (w1 & R1 & N1 & F1 & L1 & E1).
  mstep R1. fold a0 in N1.
  assert (Hn1 : nodes w1 !! X = Some nd) by (rewrite F1; assumption).
  assert (Hl91 : length (child_nodes nd) = 91%nat) by (rewrite Hch, length_map; assumption).
  destruct (Node_setitem_step X c (Some a0) nd w1 Hn1 Hl91 Hc) as (w2 & R2 & N2 & F2 & L2 & E2).
  mstep R2.
  assert (Hnt2 : nodes w2 !! ae = Some ndt) by (rewrite F2, F1; auto).
  mstep (get_start_eq _ _ _ Hnt2). rewrite Hst.
  rewrite (bind_lift_Ok _ _ _ _ Hc1). cbv beta.
  mstep (get_node_eq _ _ _ Hnt2).
  destruct (put_node_step ae (set_start ndt (start ndt + (L - 1))) ndt w2 Hnt2)
    as (w3 & R3 & N3 & F3 & L3 & E3).
  mstep R3.
  assert (Hn03 : nodes w3 !! a0 = Some (mkNode None (tstart t) (EndInt (tstart t + L - 1))
                   (Some (root self)) [] None false empty_slots)).
  { rewrite F3 by lia. rewrite F2 by lia. assumption. }
  destruct (Node_setitem_step a0 c1 (Some ae) _ w3 Hn03 length_empty_slots Hr1)
    as (w4 & R4 & N4 & F4 & L4 & E4).
  mstep R4. cbn [child_nodes set_child_nodes] in N4.
  rewrite (bind_lift_Ok _ _ _ _ Hc2). cbv beta.
  assert (Hlen4 : length (nodes w4) = S a0) by lia.
  destruct (Node_new_step (i - 1) (EndRef (end_obj self)) None (Some (root self)) true w4)
    as (w5 & R5 & N5 & F5 & L5 & E5).
  mstep R5. rewrite Hlen4 in *.
  assert (Hn05 : nodes w5 !! a0 = Some (set_child_nodes
                   (mkNode None (tstart t) (EndInt (tstart t + L - 1))
                      (Some (root self)) [] None false empty_slots)
                   (<[slot_of c1:=Some ae]> empty_slots))).
  { rewrite F5 by lia. assumption. }
  apply bind_raise. eapply Node_setitem_above; [exact Hn05| |lia].
  cbn. rewrite length_insert. reflexivity.
Qed.

(** ** The new nodes are well formed *)

Lemma wf_depth_eq s lim d d' t : wf s lim d t -> d = d' -> wf s lim d' t.
Proof. intros H <-. exact H. Qed.

Lemma wf_kids_depth_eq s lim d d' kids :
  wf_kids s lim d kids -> d = d' -> wf_kids s lim d' kids.
Proof. intros H <-. exact H. Qed.

Lemma slot_of_char c : 36 <= c <= 126 -> Z.of_nat (slot_of c) + 36 = c.
Proof. unfold slot_of. lia. Qed.

Lemma wf_tstart_nonneg s lim d t : wf s lim d t -> 0 <= tstart t.
Proof.
  destruct t; intros H; simpl.
  - apply wf_leaf_inv in H. lia.
  - apply wf_inner_inv in H. lia.
Qed.

Lemma wf_no_kids s lim d : wf_kids s lim d no_kids.
Proof.
  split; [reflexivity|]. intros c t H. apply no_kids_lookup in H. discriminate.
Qed.

Lemma leaves_shift_start t x : leaves (shift_start t x) = leaves t.
Proof. destruct t; reflexivity. Qed.

Lemma tstart_shift_start t x : tstart (shift_start t x) = tstart t + x.
Proof. destruct t; reflexivity. Qed.

Lemma wf_shift_start s lim d t m :
  wf s lim d t -> 0 <= m -> edge_longer t m -> tstart t + m <= lim ->
  wf s lim (d + m) (shift_start t m).
Proof.
  intros H Hm Hl Hlim. destruct t as [a st jv|a st en kids]; simpl in *.
  - apply wf_leaf_inv in H as (? & ? & ? & ?). constructor; lia.
  - apply wf_inner_inv in H as ((? & ? & ?) & ? & Hag & Hk).
    apply wf_inner_intro; try lia; try assumption.
    + intros jv Hjv k Hk'. specialize (Hag jv Hjv (m + k)).
      replace (st + m + k) with (st + (m + k)) by lia.
      replace (jv + (d + m) + k) with (jv + d + (m + k)) by lia. apply Hag. lia.
    + eapply wf_kids_depth_eq; [exact Hk | lia].
Qed.

Lemma leaves_split_node a0 a1 t m i j c1 c2 :
  36 <= c1 <= 126 -> 36 <= c2 <= 126 -> c1 <> c2 ->
  leaves (split_node a0 a1 t m i j c1 c2) ≡ₚ [j] ++ leaves t.
Proof.
  intros H1 H2 Hne. unfold split_node. cbn [leaves].
  assert (Hs : slot_of c1 <> slot_of c2) by (intros E; apply Hne; by apply slot_of_inj).
  rewrite (flat_map_insert (opt_list leaves) _ (slot_of c2) None _ [j]).
  - rewrite (flat_map_insert (opt_list leaves) _ (slot_of c1) None _ (leaves t)).
    + change (flat_map (opt_list leaves) no_kids) with (@nil Z).
      rewrite app_nil_r. reflexivity.
    + apply lookup_replicate. split; [reflexivity | by apply slot_of_lt].
    + simpl. rewrite leaves_shift_start, app_nil_r. reflexivity.
  - rewrite list_lookup_insert_ne by assumption.
    apply lookup_replicate. split; [reflexivity | by apply slot_of_lt].
  - reflexivity.
Qed.

Lemma wf_split_node s lim d a0 a1 t m i j :
  let c1 := char_at s (tstart t + m) in
  let c2 := char_at s (i - 1) in
  wf s lim d t -> 0 < m -> edge_longer t m ->
  agree s (tstart t) (j + d) m ->
  36 <= c1 <= 126 -> 36 <= c2 <= 126 -> c1 <> c2 ->
  i - 1 = j + d + m -> 0 <= j -> tstart t + m <= lim -> i - 1 <= lim ->
  wf s lim d (split_node a0 a1 t m i j c1 c2).
Proof.
  intros c1 c2 Hw Hm Hl Hag H1 H2 Hne Hi Hj Hlim Hilim.
  pose proof (wf_tstart_nonneg _ _ _ _ Hw) as Hst.
  pose proof (wf_depth_nonneg _ _ _ _ Hw) as Hd.
  pose proof (leaves_split_node a0 a1 t m i j c1 c2 H1 H2 Hne) as Hperm.
  unfold split_node in *. apply wf_inner_intro; try lia.
  - intros E. unfold leaves_kids in E. cbn [leaves] in Hperm. rewrite E in Hperm.
    apply Permutation_nil_l in Hperm. discriminate.
  - intros jv Hjv. replace (tstart t + m - tstart t) with m by lia.
    cbn [leaves] in Hperm. unfold leaves_kids in Hjv. rewrite Hperm in Hjv.
    apply elem_of_cons in Hjv as [->|Hjv]; [assumption|].
    destruct t as [a st jv'|a st en kids]; simpl in *.
    + apply list_elem_of_singleton in Hjv. subst jv'.
      apply wf_leaf_inv in Hw as (-> & _). apply agree_refl.
    + apply wf_inner_inv in Hw as (_ & _ & Hag' & _).
      eapply agree_le; [apply Hag'; exact Hjv | lia].
  - apply wf_kids_insert; [apply wf_kids_insert; [apply wf_no_kids|]|].
    + intros t' Ht'. inversion Ht'; subst t'. rewrite tstart_shift_start.
      split; [symmetry; by apply slot_of_char|].
      eapply wf_depth_eq; [apply wf_shift_start; eauto; lia | lia].
    + intros t' Ht'. inversion Ht'; subst t'. simpl.
      split; [symmetry; by apply slot_of_char|]. constructor; lia.
Qed.

(** ** The next active point *)

Lemma elem_of_zrange j x : x ∈ zrange j <-> 0 <= x < j.
Proof.
  unfold zrange. rewrite list_elem_of_fmap. split.
  - intros (k & -> & Hk). apply elem_of_seq in Hk. lia.
  - intros Hx. exists (Z.to_nat x). split; [lia|]. apply elem_of_seq. lia.
Qed.

(** What was read for suffix [j] is the start of a suffix that has a
    leaf. *)
Lemma prev_leaf s lim i j r kids p l x :
  wf_kids s lim 0 kids -> active_at s i j r kids p l x -> j + 1 < i ->
  exists jv, jv ∈ leaves_kids kids /\ agree s jv j (i - 1 - j).
Proof.
  intros Hwf (ks & Hat & _ & Hon & Hl & H1 & Hin) Hji.
  destruct (on_path_leaves _ _ _ _ _ _ _ Hwf Hon Hat) as (Hwfk & Hd & Hsub & Hagr & Hne).
  rewrite Z.add_0_l in Hwfk. set (d := depth_at kids p) in *.
  destruct (Z_le_gt_dec (l - 1) 0) as [Hz|Hpos].
  - assert (Hp : p <> []) by (intros ->; unfold d in *; simpl in *; lia).
    specialize (Hne Hp). destruct (leaves_kids ks) as [|jv lv] eqn:E; [done|].
    exists jv. split; [apply Hsub; by left|].
    specialize (Hagr jv ltac:(by left)). rewrite !Z.add_0_r in Hagr.
    replace (i - 1 - j) with d by lia. assumption.
  - destruct (in_kids_leaf _ _ _ _ _ _ Hwfk Hin ltac:(lia)) as (jv & Hjv & Hag).
    exists jv. split; [by apply Hsub|].
    replace (i - 1 - j) with (d + (l - 1)) by lia.
    apply agree_app; [lia | | assumption].
    specialize (Hagr jv Hjv). rewrite !Z.add_0_r in Hagr. assumption.
Qed.

(** After the leaf of suffix [j] is in the tree, [s[j+1:i-1]] can be read
    from the root. *)
Lemma next_in_kids s lim i j kids jv :
  wf_kids s lim 0 kids -> leaves_kids kids ≡ₚ zrange (j + 1) ->
  0 <= jv < j -> agree s jv j (i - 1 - j) ->
  in_kids s kids (j + 1) (i - (j + 1) - 1).
Proof.
  intros Hwf Hperm Hjv Hag.
  assert (Hin : jv + 1 ∈ leaves_kids kids) by (rewrite Hperm; apply elem_of_zrange; lia).
  pose proof (leaf_in_kids _ _ _ _ _ (i - (j + 1) - 1) Hwf Hin) as H.
  rewrite Z.add_0_r in H. eapply in_kids_agree; [exact H|].
  intros k Hk. replace (jv + 1 + k) with (jv + (1 + k)) by lia.
  replace (j + 1 + k) with (j + (1 + k)) by lia. apply Hag. lia.
Qed.

(** When the character of the phase is found on the edge, one more
    character can be read. *)
Lemma in_kids_more s lim d ks b m t :
  wf_kids s lim d ks -> 0 <= m ->
  ks !! slot_of (char_at s b) = Some (Some t) ->
  (0 < m -> in_kids s ks b m) ->
  edge_longer t m ->
  char_at s (tstart t + m) = char_at s (b + m) ->
  36 <= char_at s b <= 126 ->
  in_kids s ks (b) (m + 1).
Proof.
  intros [Hlen Hk] Hm Ht Hin Hl Heq Hc.
  destruct (Hk _ _ Ht) as [Hf Hw]. rewrite slot_of_char in Hf by assumption.
  assert (Hag : agree s (tstart t) b m).
  { destruct (Z.eq_dec m 0) as [->|Hnz]; [intros k ?; lia|].
    specialize (Hin ltac:(lia)). inversion Hin; subst; [lia|].
    match goal with Hx : ks !! _ = Some (Some ?t') |- _ =>
      rewrite Ht in Hx; inversion Hx; subst t' end.
    match goal with Hx : in_edge _ _ _ _ |- _ => inversion Hx; subst; simpl in *; auto end.
    lia. }
  assert (Hag1 : agree s (tstart t) b (m + 1)).
  { apply agree_app; [lia | assumption |]. intros k Hk'.
    assert (k = 0) as -> by lia. rewrite !Z.add_0_r. assumption. }
  eapply ik_step; [lia | exact Ht |].
  destruct t as [a st jv|a st en kids2]; simpl in *.
  - by apply ie_leaf.
  - destruct (Z_lt_ge_dec (m + 1) (en - st)).
    + by apply ie_short.
    + apply ie_long; [lia | eapply agree_le; [exact Hag1|lia] |].
      apply ik_done. lia.
Qed.

(** ** One pass of the inner loop *)

Lemma zrange_succ j : 0 <= j -> zrange (j + 1) ≡ₚ [j] ++ zrange j.
Proof.
  intros Hj. unfold zrange. replace (Z.to_nat (j + 1)) with (S (Z.to_nat j)) by lia.
  rewrite seq_S, map_app. simpl. rewrite Z2Nat.id by assumption.
  rewrite Permutation_app_comm. reflexivity.
Qed.

Lemma in_kids_agree_edge s ks b m t :
  in_kids s ks b m -> 0 < m -> ks !! slot_of (char_at s b) = Some (Some t) ->
  edge_longer t m -> agree s (tstart t) b m.
Proof.
  intros Hin Hm Ht Hl. inversion Hin; subst; [lia|].
  match goal with Hx : ks !! _ = Some (Some ?t') |- _ =>
    rewrite Ht in Hx; inversion Hx; subst t' end.
  match goal with Hx : in_edge _ _ _ _ |- _ => inversion Hx; subst; simpl in *; auto end.
  lia.
Qed.

Lemma bind_assoc {A B C} (m : M A) (k1 : A -> M B) (k2 : B -> M C) w :
  bind (bind m k1) k2 w = bind m (fun a => bind (k1 a) k2) w.
Proof. unfold bind. destruct (m w) as [[a w1]| | |]; reflexivity. Qed.

Lemma in_kids_inv s ks b m :
  in_kids s ks b m -> 0 < m ->
  exists t, ks !! slot_of (char_at s b) = Some (Some t) /\ in_edge s t b m.
Proof. intros H Hm. inversion H; subst; [lia|]. eauto. Qed.

Lemma tree_inv_step s i j self self1 w w1 kids p ks c old new A :
  tree_inv s i j self w kids -> 0 <= j ->
  root self1 = root self -> end_obj self1 = end_obj self -> owned self1 w1 ->
  repr_root w1 (root self) (end_obj self) (set_slot kids p c new) ->
  kids_at kids p = Some ks -> ks !! c = Some old -> on_path s j 0 kids p ->
  opt_list leaves new ≡ₚ [j] ++ opt_list leaves old ->
  opt_list addrs new ≡ₚ A ++ opt_list addrs old ->
  (forall a, a ∈ A -> (root self <= a < length (nodes w1))%nat) ->
  (length (nodes w) <= length (nodes w1))%nat ->
  (forall t, new = Some t ->
     char_at s (tstart t) = Z.of_nat c + 36 /\ wf s (i - 1) (0 + depth_at kids p) t) ->
  tree_inv s i (j + 1) self1 w1 (set_slot kids p c new).
Proof.
  intros (Hown & Hrep & Hrange & Hwf & Hperm) Hj Hr He Hown1 Hrep1 Hat Hc Hon Hl Ha HA Hlen Hnew.
  split; [assumption|]. rewrite Hr, He. split; [assumption|]. split; [|split].
  - intros a Hin. rewrite (addrs_set_slot _ _ _ _ _ _ _ Hat Hc Ha) in Hin.
    apply elem_of_app in Hin as [Hin|Hin]; [auto|]. specialize (Hrange a Hin). lia.
  - eapply wf_set_slot; eauto.
  - rewrite (leaves_set_slot _ _ _ _ _ _ _ Hat Hc Hl), Hperm.
    symmetry. by apply zrange_succ.
Qed.

Lemma next_active s i j r kids kids1 p l x self1 w1 :
  wf_kids s (i - 1) 0 kids -> (forall jv, jv ∈ leaves_kids kids -> 0 <= jv < j) ->
  active_at s i j r kids p l x -> tree_inv s i (j + 1) self1 w1 kids1 -> j + 1 < i ->
  active_at s i (j + 1) r kids1 [] (i - (j + 1)) r.
Proof.
  intros Hwf Hlv Hact (_ & _ & _ & Hwf1 & Hperm1) Hlt.
  destruct (prev_leaf _ _ _ _ _ _ _ _ _ Hwf Hact Hlt) as (jv & Hjv & Hag).
  exists kids1. cbn [kids_at addr_at on_path depth_at].
  split; [reflexivity|]. split; [reflexivity|]. split; [exact I|].
  split; [lia|]. split; [lia|]. rewrite Z.add_0_r.
  eapply next_in_kids; eauto.
Qed.

Lemma same_node_at r kids p ks :
  NoDup (r :: addrs_kids kids) -> kids_at kids p = Some ks ->
  same_node (Some (addr_at r kids p)) r = match p with [] => true | _ => false end.
Proof.
  intros Hnd Hat. destruct p as [|c p]; unfold same_node.
  - simpl. apply Nat.eqb_refl.
  - apply Nat.eqb_neq. intros E. apply NoDup_cons in Hnd as [Hr _]. apply Hr.
    rewrite <- E. eapply addr_at_in; eauto.
Qed.

Lemma addr_at_range r kids p ks (n : nat) :
  kids_at kids p = Some ks ->
  (r < n)%nat -> (forall a, a ∈ addrs_kids kids -> (r <= a < n)%nat) ->
  (r <= addr_at r kids p < n)%nat.
Proof.
  intros Hat Hr Hrange. destruct p as [|c p]; [simpl; lia|].
  apply Hrange. eapply addr_at_in; eauto.
Qed.

Lemma repr_root_nodes w w1 r e kids :
  nodes w1 = nodes w -> repr_root w r e kids -> repr_root w1 r e kids.
Proof.
  intros Hn ((nd & H1 & H2 & H3) & Hk & Hnd). split; [|split; [|assumption]].
  - exists nd. rewrite Hn. auto.
  - eapply repr_kids_frame; [exact Hk|]. intros. by rewrite Hn.
Qed.

Lemma tree_inv_nodes s i j self w w1 kids :
  nodes w1 = nodes w -> tree_inv s i j self w kids -> tree_inv s i j self w1 kids.
Proof.
  intros Hn (Hown & Hrep & Hrange & Hwf & Hperm).
  split; [eapply owned_nodes; eauto|]. split; [eapply repr_root_nodes; eauto|].
  rewrite Hn. auto.
Qed.

Lemma tree_inv_mono s i i' j self w kids :
  i <= i' -> tree_inv s i j self w kids -> tree_inv s i' j self w kids.
Proof.
  intros Hi (Hown & Hrep & Hrange & Hwf & Hperm).
  split; [assumption|]. split; [assumption|]. split; [assumption|].
  split; [|assumption]. eapply wf_kids_mono; [|exact Hwf]. lia.
Qed.

Lemma tree_inv_self s i j self self1 w kids :
  root self1 = root self -> end_obj self1 = end_obj self ->
  active_node self1 = active_node self ->
  tree_inv s i j self w kids -> tree_inv s i j self1 w kids.
Proof.
  intros Hr He Ha (Hown & Hrep & Hrange & Hwf & Hperm).
  split; [eapply owned_eq; eauto|]. rewrite Hr, He. auto.
Qed.

(** The active point of a suffix that starts at the character of the
    phase: the root, with one character to read. *)
Lemma active_at_root s i r kids : active_at s (i + 1) i r kids [] 1 r.
Proof.
  exists kids. cbn [kids_at addr_at on_path depth_at].
  split; [reflexivity|]. split; [reflexivity|]. split; [exact I|].
  split; [lia|]. split; [lia|]. constructor. lia.
Qed.

Lemma extend_run e w E :
  ends w !! e = Some E ->
  extend e w = Ok (tt, mkWorld (nodes w) (<[e:=E + 1]> (ends w))).
Proof. unfold extend. intros ->. reflexivity. Qed.

Section Run.

Variable s : str.
(** The characters before [bound] are in the alphabet or the terminator;
    the character at [bound], if there is one, is above the alphabet. *)
Variable bound : Z.
Hypothesis Hbound : bound <= Z.of_nat (length s).
Hypothesis Hchars : forall k, 0 <= k < bound -> 36 <= char_at s k <= 126.
Hypothesis Habove : bound < Z.of_nat (length s) -> 126 < char_at s bound.

Lemma skip_count_cases fuel : forall self p L X w kids i j E,
  repr_root w (root self) (end_obj self) kids ->
  wf_kids s (i - 1) 0 kids ->
  (forall jv, jv ∈ leaves_kids kids -> jv < j) ->
  0 <= j -> i <= bound + 1 -> i <= Z.of_nat (length s) ->
  ends w !! end_obj self = Some E -> i <= E ->
  active_at s i j (root self) kids p L X ->
  L < Z.of_nat fuel ->
  (exists x p' L' X',
     skip_count fuel self s i X L w
     = Ok (x, set_active_length (set_active_node self (Some X')) L', w) /\
     landed s i j (root self) kids p' L' X' /\ (i = bound + 1 -> 2 <= L')) \/
  (i = bound + 1 /\ skip_count fuel self s i X L w = Raise IndexError).
Proof.
  induction fuel as [|fuel IH];
    intros self p L X w kids i j E Hrep Hwf Hlv Hj Hi Hilen HE HiE Hact Hfuel.
  { destruct Hact as (ks & _ & _ & _ & _ & ? & _). lia. }
  pose proof Hact as (ks & Hat & -> & Hon & HL & H1 & Hin).
  destruct (on_path_leaves _ _ _ _ _ _ _ Hwf Hon Hat) as (Hwfk & Hd & Hsub & _ & _).
  rewrite Z.add_0_l in Hwfk. set (d := depth_at kids p) in *.
  cbn [skip_count]. destruct (Z.eqb_spec L 0) as [|_]; [lia|].
  mstep (is_leaf_at _ _ _ _ _ _ Hrep Hat). cbv iota.
  assert (Hpos : i - L = j + d) by lia.
  rewrite (bind_lift_Ok _ _ _ _ (py_index_char s (i - L) ltac:(lia))). cbv beta.
  destruct Hwfk as [Hlen Hk].
  destruct (Z_lt_le_dec (i - L) bound) as [Hlo|Hhi].
  2:{ (* the character of the phase is above the alphabet *)
    right. split; [lia|]. assert (i - L = bound) as -> by lia.
    apply bind_raise. apply (getitem_above _ _ _ _ _ _ _ Hrep Hat Hlen).
    specialize (Habove ltac:(lia)). lia. }
  assert (Hc : 36 <= char_at s (i - L) <= 126) by (apply Hchars; lia).
  assert (H2 : i = bound + 1 -> 2 <= L) by lia.
  destruct (lookup_slot ks _ Hlen Hc) as [o Ho].
  mstep (getitem_at _ _ _ _ _ _ _ _ Hrep Hat Hlen Hc Ho).
  destruct o as [t|]; cbn [option_map].
  - destruct (Hk _ _ Ho) as [Hf Hw].
    pose proof (repr_kids_at _ _ _ _ _ _ Hrep Hat _ _ Ho) as Hrt.
    destruct t as [a st jv|a st en kids2]; cbn [taddr].
    + (* a leaf: its edge is longer than the active length *)
      apply repr_leaf_inv in Hrt as (nd & Hn & Hs & He & Hjv & Hlf).
      apply wf_leaf_inv in Hw as (Hst & ? & ? & ?).
      assert (jv < j) by (apply Hlv, Hsub; eapply elem_of_leaves_kid; [exact Ho|]; by left).
      mstep (get_length_leaf _ _ _ _ _ Hn He HE). rewrite Hs.
      destruct (Z.gtb_spec (E - st) L) as [_|?]; [|lia].
      left. eexists _, p, L, _. split; [reflexivity|]. split; [|exact H2]. split; [exact Hact|].
      intros ks' a' st' en' kids' Hat' Hx. rewrite Hat in Hat'. inversion Hat'; subst ks'.
      rewrite Ho in Hx. discriminate.
    + apply repr_inner_inv in Hrt as (nd & Hn & Hs & He & Hlf & Hch & Hrk).
      apply wf_inner_inv in Hw as ((? & ? & ?) & _ & _ & Hwk2).
      mstep (get_length_inner _ _ _ _ Hn He). rewrite Hs.
      destruct (Z.gtb_spec (en - st) L) as [Hgt|Hle].
      * left. eexists _, p, L, _. split; [reflexivity|]. split; [|exact H2]. split; [exact Hact|].
        intros ks' a' st' en' kids' Hat' Hx. rewrite Hat in Hat'. inversion Hat'; subst ks'.
        rewrite Ho in Hx. inversion Hx; subst. lia.
      * mstep (get_length_inner _ _ _ _ Hn He). rewrite Hs.
        destruct (Z.eq_dec (L - (en - st)) 0) as [Hz|Hnz].
        -- (* the edge is read to its end: the active point stays *)
           rewrite Hz. destruct fuel as [|fuel]; [lia|]. cbn [skip_count Z.eqb].
           rewrite bind_ret. cbv iota. left. eexists _, p, L, _. split; [reflexivity|].
           split; [|exact H2]. split; [exact Hact|].
           intros ks' a' st' en' kids' Hat' Hx. rewrite Hat in Hat'. inversion Hat'; subst ks'.
           rewrite Ho in Hx. inversion Hx; subst. lia.
        -- (* descend *)
           assert (Hin' : agree s st (j + d) (en - st) /\
                          in_kids s kids2 (j + d + (en - st)) (L - 1 - (en - st))).
           { inversion Hin; subst; [lia|].
             match goal with Hx : ks !! _ = Some (Some ?t') |- _ =>
               rewrite <- Hpos, Ho in Hx; inversion Hx; subst t' end.
             match goal with Hx : in_edge _ _ _ _ |- _ => inversion Hx; subst end;
               [lia | auto]. }
           destruct Hin' as [Hag Hin2].
           edestruct (IH (set_active_length (set_active_node self (Some (addr_at (root self) kids p))) L)
                         (p ++ [slot_of (char_at s (i - L))]) (L - (en - st)) a w kids i j E)
             as [(x & p' & L' & X' & Hrun & Hland & HL2)|[Hib Hrun]]; try eassumption; [|lia| |].
           ++ exists kids2. split; [eapply kids_at_snoc; eauto|].
              split; [symmetry; eapply addr_at_snoc; eauto|].
              split; [eapply on_path_snoc; eauto; rewrite Z.add_0_l; exact Hag|].
              rewrite (depth_at_snoc _ _ _ _ _ _ _ _ Hat Ho). fold d.
              split; [lia|]. split; [lia|].
              eapply in_kids_eq; [exact Hin2 | lia | lia].
           ++ left. exists x, p', L', X'. split; [exact Hrun|]. split; assumption.
           ++ right. split; assumption.
  - (* no edge: the node is the answer *)
    cbv iota. left. eexists _, p, L, _. split; [reflexivity|]. split; [|exact H2].
    split; [exact Hact|].
    intros ks' a' st' en' kids' Hat' Hx. rewrite Hat in Hat'. inversion Hat'; subst ks'.
    rewrite Ho in Hx. discriminate.
Qed.

Lemma skip_count_spec fuel self p L X w kids i j E :
  repr_root w (root self) (end_obj self) kids ->
  wf_kids s (i - 1) 0 kids ->
  (forall jv, jv ∈ leaves_kids kids -> jv < j) ->
  0 <= j -> i <= bound ->
  ends w !! end_obj self = Some E -> i <= E ->
  active_at s i j (root self) kids p L X ->
  L < Z.of_nat fuel ->
  exists x p' L' X',
    skip_count fuel self s i X L w
    = Ok (x, set_active_length (set_active_node self (Some X')) L', w) /\
    landed s i j (root self) kids p' L' X'.
Proof.
  intros Hrep Hwf Hlv Hj Hi HE HiE Hact Hfuel.
  destruct (skip_count_cases fuel self p L X w kids i j E)
    as [(x & p' & L' & X' & Hrun & Hland & _)|[Hib _]]; try assumption; try lia.
  eauto 10.
Qed.

Lemma extension_spec fuel self w kids i j E p x L :
  tree_inv s i j self w kids ->
  0 <= j < i -> i <= bound ->
  ends w !! end_obj self = Some E -> i <= E ->
  active_node self = Some x ->
  active_at s i j (root self) kids p L x ->
  (p <> [] -> active_length self = L) ->
  i < Z.of_nat fuel ->
  exists b j1 self1 w1,
    extension fuel self s i j w = Ok ((b, j1, self1), w1) /\
    ext_post s i j self w kids b j1 self1 w1.
Proof.
  intros Hinv Hji Hin HE HiE Hax Hact HL Hfuel.
  pose proof Hinv as (Hown & Hrep & Hrange & Hwf & Hperm).
  pose proof Hrep as (_ & _ & Hnd).
  assert (Hlv : forall jv, jv ∈ leaves_kids kids -> 0 <= jv < j)
    by (intros jv Hjv; rewrite Hperm in Hjv; by apply elem_of_zrange).
  assert (Hroot : (root self < length (nodes w))%nat) by (destruct Hown; assumption).
  unfold extension.
  set (self0 := if same_node (active_node self) (root self)
                then set_active_length self (i - j) else self).
  assert (H0 : root self0 = root self /\ end_obj self0 = end_obj self /\
               active_node self0 = Some x /\ active_length self0 = L).
  { pose proof Hact as (ks & Hat & Hx & _ & HLd & _).
    subst self0. rewrite Hax, Hx, (same_node_at _ _ _ _ Hnd Hat).
    destruct p as [|c0 p0].
    - simpl in HLd. cbn [root end_obj active_node active_length set_active_length].
      rewrite <- Hx. repeat split; try assumption. lia.
    - repeat split; try congruence. apply HL. discriminate. }
  destruct H0 as (Hr0 & He0 & Ha0 & Hl0). clearbody self0.
  assert (Hown0 : owned self0 w) by (eapply owned_eq; [| | |exact Hown]; congruence).
  unfold ext_post. rewrite <- Hr0, <- He0 in *. clear Hown Hinv Hax HL.
  rewrite Ha0. cbn [the_node]. rewrite bind_ret, Hl0.
  destruct (skip_count_spec fuel self0 p L x w kids i j E)
    as (x' & p' & L' & X' & Hrun & Hland); try assumption; try lia.
  { intros jv Hjv. apply Hlv in Hjv. lia. }
  { pose proof Hact as (ks & Hat & _ & Hon & HLd & H1 & _).
    destruct (on_path_leaves _ _ _ _ _ _ _ Hwf Hon Hat) as (_ & ? & _). lia. }
  mstep Hrun. cbn [snd].
  set (self2 := set_active_length (set_active_node self0 (Some X')) L').
  change (active_length self2) with L'. change (active_node self2) with (Some X').
  assert (Hr2 : root self2 = root self0) by reflexivity.
  assert (He2 : end_obj self2 = end_obj self0) by reflexivity.
  destruct Hland as [Hact' Hlong].
  pose proof Hact' as (ks' & Hat' & HX' & Hon' & HL' & H1' & Hin').
  destruct (on_path_leaves _ _ _ _ _ _ _ Hwf Hon' Hat') as (Hwfk & Hd' & Hsub & _ & _).
  rewrite Z.add_0_l in Hwfk. set (d' := depth_at kids p') in *.
  assert (Hpos : i - L' = j + d') by lia.
  assert (Hc : 36 <= char_at s (i - L') <= 126) by (apply Hchars; lia).
  rewrite (bind_lift_Ok _ _ _ _ (py_index_char s (i - L') ltac:(lia))). cbv beta.
  cbn [the_node]. rewrite bind_ret.
  pose proof Hwfk as [Hlen Hk].
  destruct (lookup_slot ks' _ Hlen Hc) as [o Ho].
  assert (HXr : (root self0 <= X' < length (nodes w))%nat).
  { rewrite HX'. eapply addr_at_range; eauto. }
  assert (Hown2 : owned self2 w) by (apply owned_set_active; assumption).
  assert (Hget : Node_getitem X' (char_at s (i - L') - 36) w = Ok (option_map taddr o, w))
    by (rewrite HX'; eapply getitem_at; eauto).
  mstep Hget. clear Hget.
  assert (Hi1 : py_index s (i - 1) = Ok (char_at s (i - 1))) by (apply py_index_char; lia).
  assert (Hci : 36 <= char_at s (i - 1) <= 126) by (apply Hchars; lia).
  destruct o as [t|]; cbn [option_map].
  2:{ (* no edge: a new leaf *)
    assert (HL1 : L' = 1).
    { destruct (Z.eq_dec L' 1); [assumption|].
      destruct (in_kids_inv _ _ _ _ Hin' ltac:(lia)) as (t & Ht & _).
      rewrite <- Hpos, Ho in Ht. discriminate. }
    destruct (new_leaf_run self2 i j w kids p' ks' (char_at s (i - L')))
      as (w1 & Hnew & Hrep1 & Hlen1 & Hends1); try assumption.
    { intros a [->|Ha]%elem_of_cons; [lia|]. apply Hrange in Ha. lia. }
    change (root self2) with (root self0) in Hnew, Hrep1.
    change (end_obj self2) with (end_obj self0) in Hrep1.
    rewrite <- HX' in Hnew. cbv iota. rewrite bind_assoc. mstep Hnew.
    rewrite bind_ret. cbv iota. cbn [the_node].
    rewrite bind_ret.
    destruct (new_leaf_owned _ _ _ _ _ _ _ _ Hown2 HXr Hnew) as [Hown1 Hfr1].
    assert (HX1 : (X' < length (nodes w1))%nat). by lia.
    destruct (lookup_lt_is_Some_2 (nodes w1) X' HX1) as [ndx Hndx].
    mstep (get_node_eq _ _ _ Hndx). unfold ret.
    destruct (owned_node self2 _ _ _ Hown1 (proj1 HXr) Hndx) as (Hsl & _).
    rewrite Hsl.
    eexists _, _, _, _. split; [reflexivity|].
    cbn [root end_obj active_node set_active_node].
    split; [reflexivity|]. split; [reflexivity|]. split; [assumption|].
    split; [reflexivity|]. split; [reflexivity|].
    assert (Hinv1 : tree_inv s i (j + 1) (set_active_node self2 (Some (root self0))) w1
              (set_slot kids p' (slot_of (char_at s (i - L')))
                 (Some (TLeaf (length (nodes w)) (i - L') j)))).
    { eapply (tree_inv_step s i j self2 _ w w1 kids p' ks' _ None _ [length (nodes w)]);
        try eassumption; try reflexivity.
      + split; [assumption|]. split; [assumption|]. split; [assumption|].
        split; assumption.
      + lia.
      + destruct Hown1 as (O1 & O2 & _). split; [exact O1|]. split; [exact O2|].
        exists (root self0). split; [reflexivity|]. split; [reflexivity|exact O1].
      + intros a Ha. apply list_elem_of_singleton in Ha. subst a. lia.
      + lia.
      + intros t Ht. inversion Ht; subst t. cbn [tstart].
        rewrite HL1 in *.
        split; [symmetry; by apply slot_of_char|]. constructor; lia. }
    eexists. split; [exact Hinv1|].
    intros Hlt. eapply next_active; eauto. }
  (* an edge starts with the character *)
  destruct (Hk _ _ Ho) as [Hf Hwt]. rewrite slot_of_char in Hf by assumption.
  assert (Hedge : edge_longer t (L' - 1)).
  { destruct t as [a st jv|a st en kids']; [exact I|]. simpl. eapply Hlong; eauto. }
  assert (Hst : 0 <= tstart t) by (eapply wf_tstart_nonneg; eauto).
  assert (Hlt : tstart t + (L' - 1) < i - 1).
  { destruct t as [a st jv|a st en kids']; simpl in *.
    - apply wf_leaf_inv in Hwt as (-> & ? & ? & ?).
      assert (jv ∈ leaves_kids kids).
      { apply Hsub. eapply elem_of_leaves_kid; [exact Ho|]. simpl. by left. }
      apply Hlv in H2. lia.
    - apply wf_inner_inv in Hwt as ((? & ? & ?) & _). lia. }
  assert (Htin : taddr t ∈ addrs_kids kids).
  { eapply kids_at_addrs_sub; [exact Hat'|]. apply elem_of_addrs_kids.
    exists (slot_of (char_at s (i - L'))), t. split; [assumption|apply taddr_in_addrs]. }
  destruct (repr_node w (end_obj self0) t) as (ndt & Hnt & Hstt).
  { eapply repr_kids_at; eauto. }
  rewrite bind_assoc. mlift Hi1. rewrite bind_assoc.
  mstep (get_start_eq _ _ _ Hnt). rewrite Hstt.
  assert (Hy : py_index s (tstart t + L' - 1) = Ok (char_at s (tstart t + L' - 1)))
    by (apply py_index_char; lia).
  assert (Hcy : 36 <= char_at s (tstart t + L' - 1) <= 126) by (apply Hchars; lia).
  rewrite bind_assoc. mlift Hy.
  destruct (Z.eqb_spec (char_at s (i - 1)) (char_at s (tstart t + L' - 1))) as [Heq|Hne];
    cbn [negb].
  - (* the character is there already *)
    rewrite bind_ret. unfold ret.
    eexists _, _, _, _. split; [reflexivity|].
    split; [reflexivity|]. split; [reflexivity|]. split; [reflexivity|].
    split; [reflexivity|]. split; [reflexivity|].
    split; [split; [assumption|]; split; [assumption|]; split; [assumption|];
            split; assumption|].
    split; [exists (tstart t + L' - 1); split; [lia|congruence]|].
    exists p', X'. split; [reflexivity|].
    change (active_length self2) with L'.
    exists ks'. split; [assumption|]. split; [assumption|]. split; [assumption|].
    fold d'. split; [lia|]. split; [lia|].
    replace (L' + 1 - 1) with (L' - 1 + 1) by lia.
    eapply in_kids_more; try eassumption; try lia.
    + rewrite <- Hpos. assumption.
    + intros _. exact Hin'.
    + replace (j + d' + (L' - 1)) with (i - 1) by lia.
      replace (tstart t + (L' - 1)) with (tstart t + L' - 1) by lia. congruence.
    + rewrite <- Hpos. assumption.
  - (* the edge is split *)
    assert (Hm : 0 < L' - 1).
    { destruct (Z.eq_dec L' 1) as [E1|]; [|lia]. exfalso. apply Hne.
      rewrite E1 in *. replace (tstart t + 1 - 1) with (tstart t) by lia. congruence. }
    replace (tstart t + L' - 1) with (tstart t - 1 + L') in Hy, Hcy, Hne by lia.
    destruct (split_edge_run s self2 i j w kids p' ks' (char_at s (i - L')) t
                (char_at s (tstart t - 1 + L')) (char_at s (i - 1)))
      as (w1 & Hsp & Hrep1 & Hlen1 & Hends1); try assumption.
    { intros a [->|Ha]%elem_of_cons; [lia|]. apply Hrange in Ha. lia. }
    { congruence. }
    change (root self2) with (root self0) in Hsp, Hrep1.
    change (end_obj self2) with (end_obj self0) in Hrep1.
    change (active_length self2) with L' in Hrep1.
    rewrite <- HX' in Hsp. rewrite bind_assoc. mstep Hsp.
    rewrite bind_ret. cbv iota. cbn [the_node]. rewrite bind_ret.
    destruct (split_edge_owned _ _ _ _ _ _ _ _ _ _ Hown2 HXr (Hrange _ Htin) Hsp)
      as [Hown1 Hfr1].
    assert (HX1 : (X' < length (nodes w1))%nat) by lia.
    destruct (lookup_lt_is_Some_2 (nodes w1) X' HX1) as [ndx Hndx].
    mstep (get_node_eq _ _ _ Hndx). unfold ret.
    destruct (owned_node self2 _ _ _ Hown1 (proj1 HXr) Hndx) as (Hsl & _).
    rewrite Hsl.
    eexists _, _, _, _. split; [reflexivity|].
    cbn [root end_obj active_node set_active_node].
    split; [reflexivity|]. split; [reflexivity|]. split; [assumption|].
    split; [reflexivity|]. split; [reflexivity|].
    assert (Hc1 : char_at s (tstart t - 1 + L') <> char_at s (i - 1)) by congruence.
    assert (Hinv1 : tree_inv s i (j + 1) (set_active_node self2 (Some (root self0))) w1
              (set_slot kids p' (slot_of (char_at s (i - L')))
                 (Some (split_node (length (nodes w)) (S (length (nodes w))) t (L' - 1) i j
                          (char_at s (tstart t - 1 + L')) (char_at s (i - 1)))))).
    { eapply (tree_inv_step s i j self2 _ w w1 kids p' ks' _ (Some t) _
                [length (nodes w); S (length (nodes w))]);
        try eassumption; try reflexivity.
      + split; [assumption|]. split; [assumption|]. split; [assumption|].
        split; assumption.
      + lia.
      + destruct Hown1 as (O1 & O2 & _). split; [exact O1|]. split; [exact O2|].
        exists (root self0). split; [reflexivity|]. split; [reflexivity|exact O1].
      + cbn [opt_list]. by apply leaves_split_node.
      + cbn [opt_list]. by apply addrs_split_node.
      + intros a Ha. apply elem_of_cons in Ha as [->|Ha]; [lia|].
        apply list_elem_of_singleton in Ha. subst a. lia.
      + lia.
      + intros t1 Ht1. inversion Ht1; subst t1. cbn [tstart split_node].
        split; [rewrite slot_of_char by assumption; assumption|].
        rewrite Z.add_0_l. fold d'.
        replace (tstart t - 1 + L') with (tstart t + (L' - 1)) by lia.
        apply wf_split_node; try assumption; try lia.
        * eapply in_kids_agree_edge; try eassumption. rewrite <- Hpos. assumption.
        * replace (tstart t + (L' - 1)) with (tstart t - 1 + L') by lia. assumption.
        * replace (tstart t + (L' - 1)) with (tstart t - 1 + L') by lia. assumption. }
    eexists. split; [exact Hinv1|].
    intros Hlt1. eapply next_active; eauto.
Qed.

(** In the phase of a character above the alphabet, the first pass of
    the inner loop ends in an index out of range: in [skip_count], when
    the character is the next to look up, or else in the split of the
    edge, when the new leaf is assigned to its slot. *)
Lemma extension_above fuel self w kids i j E p x L :
  tree_inv s i j self w kids -> 0 <= j < i ->
  i = bound + 1 -> i <= Z.of_nat (length s) ->
  ends w !! end_obj self = Some E -> i <= E ->
  active_node self = Some x -> active_at s i j (root self) kids p L x ->
  (p <> [] -> active_length self = L) -> i < Z.of_nat fuel ->
  extension fuel self s i j w = Raise IndexError.
Proof.
  intros Hinv Hji Hib Hin HE HiE Hax Hact HL Hfuel.
  pose proof Hinv as (Hown & Hrep & Hrange & Hwf & Hperm).
  pose proof Hrep as (_ & _ & Hnd).
  assert (Hlv : forall jv, jv ∈ leaves_kids kids -> 0 <= jv < j)
    by (intros jv Hjv; rewrite Hperm in Hjv; by apply elem_of_zrange).
  assert (Hroot : (root self < length (nodes w))%nat) by (destruct Hown; assumption).
  unfold extension.
  set (self0 := if same_node (active_node self) (root self)
                then set_active_length self (i - j) else self).
  assert (H0 : root self0 = root self /\ end_obj self0 = end_obj self /\
               active_node self0 = Some x /\ active_length self0 = L).
  { pose proof Hact as (ks & Hat & Hx & _ & HLd & _).
    subst self0. rewrite Hax, Hx, (same_node_at _ _ _ _ Hnd Hat).
    destruct p as [|c0 p0].
    - simpl in HLd. cbn [root end_obj active_node active_length set_active_length].
      rewrite <- Hx. repeat split; try assumption. lia.
    - repeat split; try congruence. apply HL. discriminate. }
  destruct H0 as (Hr0 & He0 & Ha0 & Hl0). clearbody self0.
  assert (Hown0 : owned self0 w) by (eapply owned_eq; [| | |exact Hown]; congruence).
  rewrite <- Hr0, <- He0 in *. clear Hown Hinv Hax HL.
  rewrite Ha0. cbn [the_node]. rewrite bind_ret, Hl0.
  destruct (skip_count_cases fuel self0 p L x w kids i j E)
    as [(x' & p' & L' & X' & Hrun & Hland & HL2)|[_ Hrun]]; try assumption; try lia.
  { intros jv Hjv. apply Hlv in Hjv. lia. }
  { pose proof Hact as (ks & Hat & _ & Hon & HLd & H1 & _).
    destruct (on_path_leaves _ _ _ _ _ _ _ Hwf Hon Hat) as (_ & ? & _). lia. }
  2:{ by apply bind_raise. }
  specialize (HL2 Hib).
  mstep Hrun. cbn [snd].
  set (self2 := set_active_length (set_active_node self0 (Some X')) L').
  change (active_length self2) with L'. change (active_node self2) with (Some X').
  destruct Hland as [Hact' Hlong].
  pose proof Hact' as (ks' & Hat' & HX' & Hon' & HL' & H1' & Hin').
  destruct (on_path_leaves _ _ _ _ _ _ _ Hwf Hon' Hat') as (Hwfk & Hd' & Hsub & _ & _).
  rewrite Z.add_0_l in Hwfk. set (d' := depth_at kids p') in *.
  assert (Hpos : i - L' = j + d') by lia.
  assert (Hc : 36 <= char_at s (i - L') <= 126) by (apply Hchars; lia).
  rewrite (bind_lift_Ok _ _ _ _ (py_index_char s (i - L') ltac:(lia))). cbv beta.
  cbn [the_node]. rewrite bind_ret.
  pose proof Hwfk as [Hlen Hk].
  destruct (in_kids_inv _ _ _ _ Hin' ltac:(lia)) as (t & Ho & _).
  rewrite <- Hpos in Ho.
  assert (Hget : Node_getitem X' (char_at s (i - L') - 36) w = Ok (option_map taddr (Some t), w))
    by (rewrite HX'; eapply getitem_at; eauto).
  mstep Hget. clear Hget. cbn [option_map].
  assert (Hi1 : py_index s (i - 1) = Ok (char_at s (i - 1))) by (apply py_index_char; lia).
  assert (Hci : 126 < char_at s (i - 1)).
  { replace (i - 1) with bound by lia. apply Habove. lia. }
  destruct (Hk _ _ Ho) as [Hf Hwt]. rewrite slot_of_char in Hf by assumption.
  assert (Hst : 0 <= tstart t) by (eapply wf_tstart_nonneg; eauto).
  assert (Hlt : tstart t + (L' - 1) < i - 1).
  { destruct t as [a st jv|a st en kids']; simpl in *.
    - apply wf_leaf_inv in Hwt as (-> & ? & ? & ?).
      assert (Hjv : jv ∈ leaves_kids kids).
      { apply Hsub. eapply elem_of_leaves_kid; [exact Ho|]. simpl. by left. }
      apply Hlv in Hjv. lia.
    - apply wf_inner_inv in Hwt as ((? & ? & ?) & _).
      specialize (Hlong _ _ _ _ _ Hat' Ho). lia. }
  destruct (repr_node w (end_obj self0) t) as (ndt & Hnt & Hstt).
  { eapply repr_kids_at; eauto. }
  rewrite bind_assoc. mlift Hi1. rewrite bind_assoc.
  mstep (get_start_eq _ _ _ Hnt). rewrite Hstt.
  assert (Hy : py_index s (tstart t + L' - 1) = Ok (char_at s (tstart t + L' - 1)))
    by (apply py_index_char; lia).
  assert (Hcy : 36 <= char_at s (tstart t + L' - 1) <= 126) by (apply Hchars; lia).
  rewrite bind_assoc. mlift Hy.
  destruct (Z.eqb_spec (char_at s (i - 1)) (char_at s (tstart t + L' - 1))) as [Heq|Hne];
    [lia|]. cbn [negb].
  replace (tstart t + L' - 1) with (tstart t - 1 + L') in Hy, Hcy by lia.
  apply bind_raise. apply bind_raise. rewrite HX'.
  apply (split_edge_above s self2 i j w kids p' ks' (char_at s (i - L')) t
           (char_at s (tstart t - 1 + L')) (char_at s (i - 1))); try assumption.
  intros a Ha. change (root self2) with (root self0) in Ha.
  apply elem_of_cons in Ha as [->|Ha]; [lia|]. apply Hrange in Ha. lia.
Qed.

Lemma extensions_spec fuel_skip : forall fuel self w kids i j E p x L,
  tree_inv s i j self w kids -> 0 <= j < i -> i <= bound ->
  ends w !! end_obj self = Some E -> i <= E ->
  active_node self = Some x -> active_at s i j (root self) kids p L x ->
  (p <> [] -> active_length self = L) ->
  i < Z.of_nat fuel_skip -> i - j < Z.of_nat fuel ->
  exists j1 self1 w1,
    extensions fuel fuel_skip self s i j w = Ok ((j1, self1), w1) /\
    exts_post s i j self w j1 self1 w1.
Proof.
  induction fuel as [|fuel IH]; intros self w kids i j E p x L
    Hinv Hji Hin HE HiE Hax Hact HL Hfs Hf; [lia|].
  cbn [extensions].
  destruct (Z.ltb_spec j i) as [_|]; [|lia].
  destruct (extension_spec fuel_skip self w kids i j E p x L)
    as (b & j1 & self1 & w1 & Hrun & Hr1 & He1 & Hends1 & Hpost); try assumption.
  mstep Hrun. destruct b.
  - destruct Hpost as (-> & Han1 & kids1 & Hinv1 & Hact1).
    destruct (Z.eq_dec (j + 1) i) as [Hlast|Hmore].
    + (* the last suffix of the phase *)
      destruct fuel as [|fuel']; [lia|]. cbn [extensions].
      destruct (Z.ltb_spec (j + 1) i) as [|_]; [lia|]. unfold ret.
      eexists _, _, _. split; [reflexivity|].
      split; [assumption|]. split; [assumption|]. split; [assumption|].
      split; [lia|]. exists kids1. split; [assumption|].
      left. split; assumption.
    + destruct (IH self1 w1 kids1 i (j + 1) E [] (root self) (i - (j + 1)))
        as (j2 & self2 & w2 & Hrun2 & Hr2 & He2 & Hends2 & Hj2 & kids2 & Hinv2 & Hfin);
        try assumption; try lia.
      all: try (rewrite Hr1).
      * congruence.
      * apply Hact1. lia.
      * intros Hp. by destruct Hp.
      * eexists _, _, _. split; [exact Hrun2|].
        split; [congruence|]. split; [congruence|]. split; [congruence|].
        split; [lia|]. exists kids2. split; [assumption|].
        rewrite Hr1 in Hfin. assumption.
  - destruct Hpost as (-> & -> & Hinv1 & Hpos & p1 & x1 & Han1 & Hact1).
    unfold ret. eexists _, _, _. split; [reflexivity|].
    split; [assumption|]. split; [assumption|]. split; [reflexivity|].
    split; [lia|]. exists kids. split; [assumption|].
    right. split; [lia|]. split; [assumption|]. eauto.
Qed.

Lemma extensions_above fuel fuel_skip self w kids i j E p x L :
  tree_inv s i j self w kids -> 0 <= j < i ->
  i = bound + 1 -> i <= Z.of_nat (length s) ->
  ends w !! end_obj self = Some E -> i <= E ->
  active_node self = Some x -> active_at s i j (root self) kids p L x ->
  (p <> [] -> active_length self = L) ->
  i < Z.of_nat fuel_skip -> (0 < fuel)%nat ->
  extensions fuel fuel_skip self s i j w = Raise IndexError.
Proof.
  intros Hinv Hji Hib Hin HE HiE Hax Hact HL Hfs Hf.
  destruct fuel as [|fuel]; [lia|]. cbn [extensions].
  destruct (Z.ltb_spec j i) as [_|]; [|lia].
  apply bind_raise. eapply extension_above; eauto.
Qed.

Let n := Z.of_nat (length s).

(** The phases of the characters before [bound]. *)
Lemma phases_upto fuel_in fuel : forall (k : nat) self w i j E,
  1 <= i -> i + Z.of_nat k <= bound + 1 -> phase_inv s i j self w ->
  ends w !! end_obj self = Some E -> i - 1 <= E ->
  bound < Z.of_nat fuel_in ->
  exists self1 w1 j1,
    phases (k + fuel) fuel_in self s n i j w
    = phases fuel fuel_in self1 s n (i + Z.of_nat k) j1 w1 /\
    phase_inv s (i + Z.of_nat k) j1 self1 w1 /\
    root self1 = root self /\ end_obj self1 = end_obj self /\
    ends w1 !! end_obj self = Some (E + Z.of_nat k).
Proof.
  induction k as [|k IH]; intros self w i j E Hi Hik Hinv HE HiE Hfin.
  { exists self, w, j. rewrite !Z.add_0_r. auto. }
  cbn [Nat.add phases]. destruct Hinv as (kids & Hinv & Hj & Hpos & p & x & L & Hax & Hat & HL).
  destruct (Z.leb_spec i n) as [_|Hgt]; [|unfold n in Hgt; lia].
  mstep (extend_run _ _ _ HE).
  set (w' := mkWorld (nodes w) (<[end_obj self:=E + 1]> (ends w))).
  set (self' := set_previous_node self None).
  assert (HE' : ends w' !! end_obj self' = Some (E + 1)).
  { apply list_lookup_insert_eq. eapply lookup_lt_Some; eauto. }
  assert (Hinv' : tree_inv s i j self' w' kids).
  { apply (tree_inv_self _ _ _ self); try reflexivity.
    apply (tree_inv_nodes _ _ _ _ w); [reflexivity|].
    eapply tree_inv_mono; [|exact Hinv]. lia. }
  destruct (extensions_spec fuel_in fuel_in self' w' kids i j (E + 1) p x L)
    as (j1 & self1 & w1 & Hrun & Hr1 & He1 & Hends1 & Hj1 & kids1 & Hinv1 & Hcases);
    try assumption; try lia.
  mstep Hrun. cbn [fst snd].
  change (root self') with (root self) in Hr1, Hcases.
  change (end_obj self') with (end_obj self) in He1, HE'.
  set (self2 := set_active_length self1 (active_length self1 + 1)).
  destruct (IH self2 w1 (i + 1) j1 (E + 1))
    as (self3 & w3 & j3 & Hrun3 & Hinv3 & Hr3 & He3 & HE3); try lia.
  - exists kids1. replace (i + 1 - 1) with i by lia. replace (i + 1 - 2) with (i - 1) by lia.
    split; [apply (tree_inv_self _ _ _ self1); try reflexivity; assumption|].
    split; [lia|]. split.
    + intros Hlt. destruct Hcases as [[-> _]|(_ & Hp & _)]; [lia|exact Hp].
    + destruct Hcases as [[-> Han]|(Hlt & _ & p1 & x1 & Han & Hat1)].
      * exists [], (root self), 1. change (root self2) with (root self1).
        rewrite Hr1. split; [assumption|]. split; [apply active_at_root|].
        intros Hp. by destruct Hp.
      * exists p1, x1, (active_length self1 + 1). change (root self2) with (root self1).
        rewrite Hr1. split; [assumption|]. split; [assumption|]. reflexivity.
  - change (end_obj self2) with (end_obj self1). rewrite He1, Hends1. exact HE'.
  - exists self3, w3, j3.
    change (root self2) with (root self1) in Hr3.
    change (end_obj self2) with (end_obj self1) in He3, HE3.
    replace (i + Z.of_nat (S k)) with (i + 1 + Z.of_nat k) by lia.
    split; [exact Hrun3|]. split; [exact Hinv3|].
    split; [congruence|]. split; [congruence|].
    rewrite He1 in HE3. rewrite HE3. f_equal. lia.
Qed.

(** The run of the phases over a text whose characters are all in the
    alphabet, with a last character that occurs once. *)
Lemma phases_spec fuel_in fuel self w i j E :
  bound = n ->
  (forall pos, 0 <= pos < n - 1 -> char_at s pos <> char_at s (n - 1)) ->
  1 <= i <= n + 1 -> phase_inv s i j self w ->
  ends w !! end_obj self = Some E -> i - 1 <= E ->
  n < Z.of_nat fuel_in -> n + 1 - i < Z.of_nat fuel ->
  exists self1 w1,
    phases fuel fuel_in self s n i j w = Ok (self1, w1) /\
    root self1 = root self /\ end_obj self1 = end_obj self /\
    ends w1 !! end_obj self = Some (E + (n + 1 - i)) /\
    exists kids, tree_inv s n n self1 w1 kids.
Proof.
  intros Hb Hlast Hi Hinv HE HiE Hfin Hf.
  destruct (phases_upto fuel_in (fuel - Z.to_nat (n + 1 - i)) (Z.to_nat (n + 1 - i))
              self w i j E)
    as (self1 & w1 & j1 & Hrun & Hinv1 & Hr1 & He1 & HE1); try assumption; try lia.
  replace (Z.to_nat (n + 1 - i) + (fuel - Z.to_nat (n + 1 - i)))%nat with fuel in Hrun by lia.
  rewrite Z2Nat.id in * by lia. replace (i + (n + 1 - i)) with (n + 1) in * by lia.
  rewrite Hrun.
  destruct (fuel - Z.to_nat (n + 1 - i))%nat as [|fuel'] eqn:Ef; [lia|].
  cbn [phases]. destruct (Z.leb_spec (n + 1) n) as [|_]; [lia|].
  exists self1, w1. split; [reflexivity|]. split; [exact Hr1|]. split; [exact He1|].
  split; [exact HE1|].
  destruct Hinv1 as (kids & Hinv1 & Hj1 & Hpos & _). exists kids.
  replace (n + 1 - 1) with n in * by lia.
  destruct (Z.eq_dec j1 n) as [->|Hne]; [assumption|].
  destruct (Hpos ltac:(lia)) as (pos & Hp & Heq).
  replace (n + 1 - 2) with (n - 1) in * by lia. by apply Hlast in Heq.
Qed.

(** The run of the phases when there is a character above the alphabet:
    the phases before it build the tree of what is before it, and its
    own phase ends in an index out of range. *)
Lemma phases_above fuel_in fuel self w i j E :
  bound < n -> 1 <= i <= bound + 1 -> phase_inv s i j self w ->
  ends w !! end_obj self = Some E -> i - 1 <= E ->
  bound + 1 < Z.of_nat fuel_in -> bound + 1 - i < Z.of_nat fuel ->
  phases fuel fuel_in self s n i j w = Raise IndexError.
Proof.
  intros Hb Hi Hinv HE HiE Hfin Hf.
  destruct (phases_upto fuel_in (fuel - Z.to_nat (bound + 1 - i)) (Z.to_nat (bound + 1 - i))
              self w i j E)
    as (self1 & w1 & j1 & Hrun & Hinv1 & Hr1 & He1 & HE1); try assumption; try lia.
  replace (Z.to_nat (bound + 1 - i) + (fuel - Z.to_nat (bound + 1 - i)))%nat
    with fuel in Hrun by lia.
  rewrite Z2Nat.id in * by lia. replace (i + (bound + 1 - i)) with (bound + 1) in * by lia.
  rewrite Hrun.
  destruct (fuel - Z.to_nat (bound + 1 - i))%nat as [|fuel'] eqn:Ef; [lia|].
  cbn [phases]. destruct (Z.leb_spec (bound + 1) n) as [_|]; [|lia].
  rewrite <- He1 in HE1. mstep (extend_run _ _ _ HE1).
  destruct Hinv1 as (kids & Hinv1 & Hj1 & _ & p & x & L & Hax & Hat & HL).
  apply bind_raise.
  eapply (extensions_above fuel_in fuel_in _ _ kids (bound + 1) j1 (E + (bound + 1 - i) + 1) p x L);
    try assumption; try reflexivity; try lia.
  all: try (unfold n in Hb; lia).
  - apply (tree_inv_self _ _ _ self1); try reflexivity.
    apply (tree_inv_nodes _ _ _ _ w1); [reflexivity|].
    eapply tree_inv_mono; [|exact Hinv1]. lia.
  - apply list_lookup_insert_eq. eapply lookup_lt_Some; eauto.
Qed.
End Run.

(** ** The construction *)

Lemma valid_input_chars text c :
  valid_input text = true -> c ∈ text -> 37 <= c <= 126.
Proof.
  unfold valid_input. rewrite forallb_forall. intros H Hc.
  apply list_elem_of_In, H in Hc. unfold in_alphabet in Hc.
  apply andb_true_iff in Hc as [H1 H2]. lia.
Qed.

Lemma char_at_app_l (s t : str) k :
  0 <= k < Z.of_nat (length s) -> char_at (s ++ t) k = char_at s k.
Proof. intros Hk. unfold char_at. apply app_nth1. lia. Qed.

Lemma char_at_last (s : str) c : char_at (s ++ [c]) (Z.of_nat (length s)) = c.
Proof.
  unfold char_at. rewrite Nat2Z.id, app_nth2 by lia. by rewrite Nat.sub_diag.
Qed.

Lemma char_at_last_l (s t : str) c :
  char_at (s ++ c :: t) (Z.of_nat (length s)) = c.
Proof.
  unfold char_at. rewrite Nat2Z.id, app_nth2 by lia. by rewrite Nat.sub_diag.
Qed.

Lemma char_at_elem (s : str) k : 0 <= k < Z.of_nat (length s) -> char_at s k ∈ s.
Proof. intros Hk. unfold char_at. apply list_elem_of_In, nth_In. lia. Qed.

Lemma terminated_chars text k :
  valid_input text = true ->
  0 <= k < Z.of_nat (length (text ++ [dollar])) ->
  36 <= char_at (text ++ [dollar]) k <= 126.
Proof.
  intros Hv Hk. rewrite length_app in Hk. simpl in Hk.
  destruct (Z.eq_dec k (Z.of_nat (length text))) as [->|Hne].
  - rewrite char_at_last. unfold dollar. lia.
  - rewrite char_at_app_l by lia.
    pose proof (valid_input_chars text _ Hv (char_at_elem text k ltac:(lia))). lia.
Qed.

Lemma terminator_once text pos :
  valid_input text = true ->
  0 <= pos < Z.of_nat (length (text ++ [dollar])) - 1 ->
  char_at (text ++ [dollar]) pos <>
  char_at (text ++ [dollar]) (Z.of_nat (length (text ++ [dollar])) - 1).
Proof.
  intros Hv Hk. rewrite length_app in *. simpl in *.
  replace (Z.of_nat (length text + 1) - 1) with (Z.of_nat (length text)) in * by lia.
  rewrite char_at_last, char_at_app_l by lia.
  pose proof (valid_input_chars text _ Hv (char_at_elem text pos ltac:(lia))).
  unfold dollar. lia.
Qed.

Lemma Ukkonen_attrs_run e w :
  exists self w1,
    Ukkonen_attrs e w = Ok (self, w1) /\
    root self = length (nodes w) /\ end_obj self = e /\
    active_node self = Some (root self) /\ ends w1 = ends w /\
    forall s, tree_inv s 0 0 self w1 no_kids.
Proof.
  unfold Ukkonen_attrs.
  destruct (Node_new_step 0 (EndRef e) None None false w) as (w1 & R1 & N1 & F1 & L1 & E1).
  mstep R1. mstep (get_node_eq _ _ _ N1).
  destruct (put_node_step (length (nodes w))
              (set_suffix_link (mkNode None 0 (EndRef e) None [] None false empty_slots)
                               (Some (length (nodes w)))) _ w1 N1)
    as (w2 & R2 & N2 & F2 & L2 & E2).
  mstep R2. unfold ret. eexists _, _. split; [reflexivity|].
  cbn [root end_obj active_node].
  split; [reflexivity|]. split; [reflexivity|]. split; [reflexivity|].
  split; [congruence|]. intros s.
  destruct (Ukkonen_attrs_owned e w
              (mkUkkonen (length (nodes w)) (Some (length (nodes w))) None e 0) w2)
    as (Hown & _).
  { unfold Ukkonen_attrs. mstep R1. mstep (get_node_eq _ _ _ N1). mstep R2. reflexivity. }
  split; [exact Hown|]. cbn [root end_obj]. split; [|split; [|split]].
  - split; [|split].
    + eexists. split; [exact N2|]. split; reflexivity.
    + intros c t H. apply no_kids_lookup in H. discriminate.
    + change (addrs_kids no_kids) with (@nil addr). apply NoDup_singleton.
  - intros a Ha. change (addrs_kids no_kids) with (@nil addr) in Ha. by apply elem_of_nil in Ha.
  - apply wf_no_kids.
  - reflexivity.
Qed.

Lemma phase_inv_start s self w :
  tree_inv s 0 0 self w no_kids -> active_node self = Some (root self) ->
  phase_inv s 1 0 self w.
Proof.
  intros Hinv Han. exists no_kids. split; [exact Hinv|]. split; [lia|].
  split; [lia|]. exists [], (root self), 1. split; [exact Han|].
  split; [exact (active_at_root s 0 (root self) no_kids)|].
  intros Hp. by destruct Hp.
Qed.

(** Phase 0 of [run_algorithm]: the [End] is advanced and the inner loop
    has nothing to do. *)
Lemma phases_start fuel fuel_in self s n w E :
  ends w !! end_obj self = Some E -> 0 <= n ->
  phases (S fuel) (S fuel_in) self s n 0 0 w =
  phases fuel (S fuel_in) (set_active_length (set_previous_node self None)
                             (active_length self + 1)) s n 1 0
         (mkWorld (nodes w) (<[end_obj self:=E + 1]> (ends w))).
Proof.
  intros HE Hn. cbn [phases]. destruct (Z.leb_spec 0 n) as [_|]; [|lia].
  mstep (extend_run _ _ _ HE). cbn [extensions].
  destruct (Z.ltb_spec 0 0) as [|_]; [lia|]. rewrite bind_ret. reflexivity.
Qed.

Section Construction.
Variable text : str.
Hypothesis Hvalid : valid_input text = true.
Let s := text ++ [dollar].
Let n := Z.of_nat (length s).

Lemma run_algorithm_spec fuel self w E :
  tree_inv s 0 0 self w no_kids -> active_node self = Some (root self) ->
  ends w !! end_obj self = Some E -> -1 <= E ->
  n + 1 < Z.of_nat fuel ->
  exists self1 w1,
    run_algorithm fuel self text w = Ok (self1, w1) /\
    root self1 = root self /\ end_obj self1 = end_obj self /\
    ends w1 !! end_obj self = Some (E + (n + 1)) /\
    exists kids, tree_inv s n n self1 w1 kids.
Proof.
  intros Hinv Han HE HE1 Hf. unfold run_algorithm. fold s. fold n.
  destruct fuel as [|fuel]; [lia|].
  rewrite (phases_start _ _ _ _ _ _ E HE) by lia.
  set (w' := mkWorld (nodes w) (<[end_obj self:=E + 1]> (ends w))).
  set (self1 := set_active_length (set_previous_node self None) (active_length self + 1)).
  assert (HE' : ends w' !! end_obj self1 = Some (E + 1)).
  { apply list_lookup_insert_eq. eapply lookup_lt_Some; eauto. }
  destruct (phases_spec s n (Z.le_refl n)
              (fun k => terminated_chars text k Hvalid)
              (fun H => False_rect _ (Z.lt_irrefl n H))
              (S fuel) fuel self1 w' 1 0 (E + 1) eq_refl
              (fun pos => terminator_once text pos Hvalid))
    as (self2 & w2 & Hrun & Hr2 & He2 & HE2 & Hk2); try assumption; try (fold n; lia).
  - apply phase_inv_start; [|exact Han].
    apply (tree_inv_self _ _ _ self); try reflexivity.
    apply (tree_inv_nodes _ _ _ _ w); [reflexivity|]. exact Hinv.
  - exists self2, w2. split; [exact Hrun|]. split; [exact Hr2|]. split; [exact He2|].
    split; [|exact Hk2]. change (end_obj self1) with (end_obj self) in HE2.
    rewrite HE2. f_equal. fold n. lia.
Qed.

Lemma Ukkonen_init_spec fuel e w E :
  ends w !! e = Some E -> -1 <= E -> n + 1 < Z.of_nat fuel ->
  exists self w1,
    Ukkonen_init fuel text e w = Ok (self, w1) /\
    root self = length (nodes w) /\ end_obj self = e /\
    ends w1 !! e = Some (E + (n + 1)) /\
    exists kids, tree_inv s n n self w1 kids.
Proof.
  intros HE HE1 Hf. unfold Ukkonen_init.
  destruct (Ukkonen_attrs_run e w) as (self & w1 & Hrun & Hr & He & Han & Hends & Hinv).
  mstep Hrun.
  destruct (run_algorithm_spec fuel self w1 E (Hinv s) Han)
    as (self2 & w2 & Hrun2 & Hr2 & He2 & HE2 & Hk2); try assumption.
  { rewrite He, Hends. exact HE. }
  exists self2, w2. split; [exact Hrun2|]. split; [congruence|]. split; [congruence|].
  split; [rewrite <- He; exact HE2|exact Hk2].
Qed.
End Construction.

Section Above.
Variables pre rest : str.
Variable c : Z.
Hypothesis Hvalid : valid_input pre = true.
Hypothesis Hc : 126 < c.
Let text := pre ++ c :: rest.
Let s := text ++ [dollar].
Let bound := Z.of_nat (length pre).

Lemma above_bound : bound <= Z.of_nat (length s).
Proof. unfold bound, s, text. rewrite !length_app. simpl. lia. Qed.

Lemma above_chars k : 0 <= k < bound -> 36 <= char_at s k <= 126.
Proof.
  intros Hk. unfold s, text. rewrite <- app_assoc, char_at_app_l by (fold bound; lia).
  pose proof (valid_input_chars pre _ Hvalid (char_at_elem pre k Hk)). lia.
Qed.

Lemma above_char : 126 < char_at s bound.
Proof. unfold s, text, bound. by rewrite <- app_assoc, <- app_comm_cons, char_at_last_l. Qed.

Lemma run_algorithm_above fuel self w E :
  tree_inv s 0 0 self w no_kids -> active_node self = Some (root self) ->
  ends w !! end_obj self = Some E -> -1 <= E ->
  (length pre + 2 <= fuel)%nat ->
  run_algorithm fuel self text w = Raise IndexError.
Proof.
  intros Hinv Han HE HE1 Hf. unfold run_algorithm. fold s.
  destruct fuel as [|fuel]; [lia|].
  rewrite (phases_start _ _ _ _ _ _ E HE) by lia.
  set (w' := mkWorld (nodes w) (<[end_obj self:=E + 1]> (ends w))).
  set (self1 := set_active_length (set_previous_node self None) (active_length self + 1)).
  apply (phases_above s bound above_bound above_chars (fun _ => above_char)
           (S fuel) fuel self1 w' 1 0 (E + 1)); try (unfold bound; lia).
  - pose proof above_bound. unfold s, text, bound in *.
    rewrite !length_app in *. simpl in *. lia.
  - apply phase_inv_start; [|exact Han].
    apply (tree_inv_self _ _ _ self); try reflexivity.
    apply (tree_inv_nodes _ _ _ _ w); [reflexivity|]. exact Hinv.
  - apply list_lookup_insert_eq. eapply lookup_lt_Some; eauto.
Qed.

Lemma Ukkonen_init_above fuel e w E :
  ends w !! e = Some E -> -1 <= E -> (length pre + 2 <= fuel)%nat ->
  Ukkonen_init fuel text e w = Raise IndexError.
Proof.
  intros HE HE1 Hf. unfold Ukkonen_init.
  destruct (Ukkonen_attrs_run e w) as (self & w1 & Hrun & Hr & He & Han & Hends & Hinv).
  mstep Hrun. apply (run_algorithm_above fuel self w1 E (Hinv s) Han); try assumption.
  rewrite He, Hends. exact HE.
Qed.
End Above.

(** ** The traversal *)

Lemma get_suffix_tree_aux_S fuel node acc :
  get_suffix_tree_aux (S fuel) node acc =
  let* nd := get_node node in
  if leaf_node nd then
    match j nd with
    | Some jv => ret (acc ++ [jv + 1])
    | None => raise TypeError
    end
  else fold_left (visit fuel) (child_nodes nd) (ret acc).
Proof. reflexivity. Qed.

Lemma height_kids_cons o kids :
  height_kids (o :: kids) = Nat.max (from_option height 0%nat o) (height_kids kids).
Proof. reflexivity. Qed.

Lemma leaves_kids_cons o kids :
  leaves_kids (o :: kids) = opt_list leaves o ++ leaves_kids kids.
Proof. reflexivity. Qed.

Lemma visit_kids fuel w e :
  (forall t acc, repr w e t -> (height t <= fuel)%nat ->
     get_suffix_tree_aux fuel (taddr t) acc w = Ok (acc ++ map (fun jv => jv + 1) (leaves t), w)) ->
  forall kids (m : M (list Z)) w0 acc,
    m w0 = Ok (acc, w) ->
    Forall (fun o => forall t, o = Some t -> repr w e t) kids ->
    (height_kids kids <= fuel)%nat ->
    fold_left (visit fuel) (map (option_map taddr) kids) m w0 =
    Ok (acc ++ map (fun jv => jv + 1) (leaves_kids kids), w).
Proof.
  intros Hrec. induction kids as [|o kids IH]; intros m w0 acc Hm Hrep Hh.
  - simpl. rewrite app_nil_r. exact Hm.
  - cbn [map fold_left]. rewrite height_kids_cons in Hh.
    apply Forall_cons in Hrep as [Ho Hrep].
    rewrite leaves_kids_cons, map_app, app_assoc.
    apply IH; [|assumption|lia].
    unfold visit. mstep Hm. destruct o as [t|]; cbn [option_map opt_list from_option] in *.
    + apply Hrec; [by apply Ho | lia].
    + simpl. rewrite app_nil_r. reflexivity.
Qed.

Lemma repr_kids_Forall w e kids :
  repr_kids w e kids -> Forall (fun o => forall t, o = Some t -> repr w e t) kids.
Proof.
  intros H. apply Forall_lookup. intros c o Hc t ->. eapply H; eauto.
Qed.

Lemma get_suffix_tree_aux_leaves w e : forall fuel t acc,
  repr w e t -> (height t <= fuel)%nat ->
  get_suffix_tree_aux fuel (taddr t) acc w = Ok (acc ++ map (fun jv => jv + 1) (leaves t), w).
Proof.
  induction fuel as [|fuel IH]; intros t acc Hrep Hh.
  - destruct t; simpl in Hh; lia.
  - rewrite get_suffix_tree_aux_S. inversion Hrep; subst; cbn [taddr leaves height] in *.
    + match goal with H : nodes w !! _ = Some _ |- _ => mstep (get_node_eq _ _ _ H) end.
      repeat match goal with H : _ = _ |- _ => rewrite H end.
      reflexivity.
    + match goal with H : nodes w !! _ = Some _ |- _ => mstep (get_node_eq _ _ _ H) end.
      repeat match goal with H : leaf_node _ = _ |- _ => rewrite H end.
      repeat match goal with H : child_nodes _ = _ |- _ => rewrite H end.
      apply (visit_kids fuel w e IH); [reflexivity| by apply repr_kids_Forall |].
      unfold height_kids. lia.
Qed.

(** The walk from the root yields the leaves of the tree in depth-first
    order, counted from 1. *)
Lemma get_suffix_tree_leaves fuel self w kids :
  repr_root w (root self) (end_obj self) kids -> (height_kids kids < fuel)%nat ->
  get_suffix_tree fuel self w = Ok (map (fun jv => jv + 1) (leaves_kids kids), w).
Proof.
  intros ((nd & Hn & Hl & Hch) & Hk & _) Hh. unfold get_suffix_tree.
  destruct fuel as [|fuel]; [lia|]. rewrite get_suffix_tree_aux_S.
  mstep (get_node_eq _ _ _ Hn). rewrite Hl, Hch.
  change (map (fun jv => jv + 1) (leaves_kids kids))
    with ([] ++ map (fun jv => jv + 1) (leaves_kids kids)).
  apply (visit_kids fuel w (end_obj self)); [|reflexivity|by apply repr_kids_Forall|lia].
  intros. by apply (get_suffix_tree_aux_leaves w (end_obj self)).
Qed.

Lemma height_pos t : (1 <= height t)%nat.
Proof. destruct t; simpl; lia. Qed.

Lemma height_kids_le kids (b : nat) :
  (forall c t, kids !! c = Some (Some t) -> (height t <= b)%nat) ->
  (height_kids kids <= b)%nat.
Proof.
  induction kids as [|o kids IH]; intros H; [simpl; lia|].
  rewrite height_kids_cons. apply Nat.max_lub.
  - destruct o as [t|]; simpl; [|lia]. apply (H 0%nat). reflexivity.
  - apply IH. intros c t Hc. apply (H (S c)). exact Hc.
Qed.

Lemma wf_height s lim : forall t d,
  wf s lim d t -> Z.of_nat (height t) <= lim - d + 1.
Proof.
  induction t as [a st jv|a st en kids IH] using tree_ind'; intros d H.
  - apply wf_leaf_inv in H as (? & ? & ? & ?). simpl. lia.
  - pose proof H as Hw. apply wf_inner_inv in H as ((? & ? & ?) & Hne & _ & [Hlen Hk]).
    destruct (wf_has_leaf _ _ _ _ Hw) as [jv Hjv]. cbn [leaves] in Hjv.
    apply elem_of_leaves_kids in Hjv as (c & t & Hc & _).
    destruct (Hk _ _ Hc) as [_ Hwt]. pose proof (IH _ _ Hc _ Hwt). pose proof (height_pos t).
    cbn [height]. fold (height_kids kids).
    assert ((height_kids kids <= Z.to_nat (lim - d))%nat); [|lia].
    apply height_kids_le. intros c' t' Hc'. destruct (Hk _ _ Hc') as [_ Hwt'].
    pose proof (IH _ _ Hc' _ Hwt'). lia.
Qed.

Lemma wf_kids_height s lim kids :
  wf_kids s lim 0 kids -> 0 <= lim + 1 -> Z.of_nat (height_kids kids) <= lim + 1.
Proof.
  intros [_ Hk] Hl.
  assert ((height_kids kids <= Z.to_nat (lim + 1))%nat); [|lia].
  apply height_kids_le. intros c t Hc. destruct (Hk _ _ Hc) as [_ Hw].
  pose proof (wf_height _ _ _ _ Hw). lia.
Qed.

(** ** The order of the leaves *)

Example sorted_suffix_offsets_banana :
  sorted_suffix_offsets (str_of_string "banana$") = [7; 6; 4; 2; 1; 5; 3].
Proof. vm_compute. reflexivity. Qed.

Lemma lex_le_refl u : lex_le u u = true.
Proof.
  induction u as [|a u IH]; [reflexivity|]. simpl.
  rewrite Z.eqb_refl, IH. apply orb_true_r.
Qed.

Lemma lex_le_cons a u b v :
  lex_le (a :: u) (b :: v) = true <-> a < b \/ (a = b /\ lex_le u v = true).
Proof.
  simpl. rewrite orb_true_iff, andb_true_iff, Z.ltb_lt, Z.eqb_eq. tauto.
Qed.

#[global] Instance lex_order_trans : Transitive lex_order.
Proof.
  unfold lex_order. intros u. induction u as [|a u IH]; intros v w Huv Hvw; [reflexivity|].
  destruct v as [|b v]; [discriminate|]. destruct w as [|c w]; [discriminate|].
  apply lex_le_cons in Huv, Hvw. apply lex_le_cons.
  destruct Huv as [?|[-> ?]], Hvw as [?|[-> ?]]; try (left; lia).
  right. split; [reflexivity|]. eapply IH; eauto.
Qed.

#[global] Instance lex_order_total : Total lex_order.
Proof.
  unfold lex_order. intros u. induction u as [|a u IH]; intros v; [by left|].
  destruct v as [|b v]; [by right|]. rewrite !lex_le_cons.
  destruct (Z.lt_trichotomy a b) as [?|[->|?]]; [by left; left| |by right; left].
  destruct (IH v); [left|right]; right; auto.
Qed.

#[global] Instance lex_order_antisymm : AntiSymm (=) lex_order.
Proof.
  unfold lex_order. intros u. induction u as [|a u IH]; intros v Huv Hvu.
  - destruct v; [reflexivity|discriminate].
  - destruct v as [|b v]; [discriminate|]. apply lex_le_cons in Huv, Hvu.
    destruct Huv as [?|[-> ?]], Hvu as [?|[? ?]]; try lia. f_equal. by apply IH.
Qed.

Lemma drop_nth_cons (s : str) : forall q,
  (q < length s)%nat -> drop q s = nth q s 0 :: drop (S q) s.
Proof.
  induction s as [|c s IH]; intros [|q] Hq; simpl in *; try lia; [reflexivity|].
  apply IH. lia.
Qed.

Lemma suffix_cons s k :
  0 <= k < Z.of_nat (length s) -> suffix s k = char_at s k :: suffix s (k + 1).
Proof.
  intros Hk. unfold suffix, char_at.
  replace (Z.to_nat (k + 1)) with (S (Z.to_nat k)) by lia.
  apply drop_nth_cons. lia.
Qed.

(** Suffixes that start with the same [m] characters compare as what
    follows them. *)
Lemma lex_le_common s a b (m : nat) :
  0 <= a -> 0 <= b ->
  a + Z.of_nat m <= Z.of_nat (length s) -> b + Z.of_nat m <= Z.of_nat (length s) ->
  agree s a b (Z.of_nat m) ->
  lex_le (suffix s (a + Z.of_nat m)) (suffix s (b + Z.of_nat m)) = true ->
  lex_le (suffix s a) (suffix s b) = true.
Proof.
  revert a b. induction m as [|m IH]; intros a b Ha Hb Han Hbn Hag Hle.
  - by rewrite !Z.add_0_r in Hle.
  - rewrite (suffix_cons s a), (suffix_cons s b) by lia. apply lex_le_cons. right.
    split; [specialize (Hag 0 ltac:(lia)); by rewrite !Z.add_0_r in Hag|].
    apply IH; try lia.
    + intros k Hk. specialize (Hag (1 + k) ltac:(lia)).
      by rewrite !Z.add_assoc in Hag.
    + replace (a + 1 + Z.of_nat m) with (a + Z.of_nat (S m)) by lia.
      replace (b + 1 + Z.of_nat m) with (b + Z.of_nat (S m)) by lia. exact Hle.
Qed.

Lemma lex_le_first s a b :
  0 <= a < Z.of_nat (length s) -> 0 <= b < Z.of_nat (length s) ->
  char_at s a < char_at s b -> lex_le (suffix s a) (suffix s b) = true.
Proof.
  intros Ha Hb Hlt. rewrite (suffix_cons s a), (suffix_cons s b) by lia.
  apply lex_le_cons. by left.
Qed.

Lemma StronglySorted_impl_elem {A} (R1 R2 : relation A) l :
  (forall x y, x ∈ l -> y ∈ l -> R1 x y -> R2 x y) ->
  StronglySorted R1 l -> StronglySorted R2 l.
Proof.
  intros H Hs. induction Hs as [|x l Hs IH Hx]; constructor.
  - apply IH. intros a b Ha Hb. apply H; by right.
  - rewrite Forall_forall in *. intros y Hy. apply H; [by left|by right|]. by apply Hx.
Qed.

Lemma StronglySorted_flat_map {A B} (R : relation B) (f : A -> list B) l :
  (forall i x, l !! i = Some x -> StronglySorted R (f x)) ->
  (forall (i i' : nat) x x' a b,
     (i < i')%nat -> l !! i = Some x -> l !! i' = Some x' ->
     a ∈ f x -> b ∈ f x' -> R a b) ->
  StronglySorted R (flat_map f l).
Proof.
  induction l as [|x l IH]; intros Hs Hc; [constructor|]. simpl.
  apply StronglySorted_app_2.
  - intros a b Ha Hb. apply list_elem_of_In, in_flat_map in Hb as (x' & Hx' & Hb).
    apply list_elem_of_In, list_elem_of_lookup in Hx' as [i' Hi'].
    apply (Hc 0%nat (S i') x x'); try done; [lia|]. by apply list_elem_of_In.
  - apply (Hs 0%nat). reflexivity.
  - apply IH.
    + intros i y Hy. apply (Hs (S i)). exact Hy.
    + intros i i' y y' a b Hlt Hy Hy'. apply (Hc (S i) (S i')); [lia|exact Hy|exact Hy'].
Qed.

Lemma wf_leaf_bound s lim : forall t d jv,
  wf s lim d t -> jv ∈ leaves t -> 0 <= jv /\ 0 <= d /\ jv + d <= lim.
Proof.
  induction t as [a st jv0|a st en kids IH] using tree_ind'; intros d jv H Hjv.
  - apply wf_leaf_inv in H as (? & ? & ? & ?). simpl in Hjv.
    apply list_elem_of_singleton in Hjv. subst. lia.
  - apply wf_inner_inv in H as ((? & ? & ?) & _ & _ & [_ Hk]).
    cbn [leaves] in Hjv. apply elem_of_leaves_kids in Hjv as (c & t & Hc & Hjv).
    destruct (Hk _ _ Hc) as [_ Hw]. destruct (IH _ _ Hc _ _ Hw Hjv) as (? & ? & ?). lia.
Qed.

Section Sorted.
Variable s : str.
Variable lim : Z.
Hypothesis Hlim : lim < Z.of_nat (length s).

Lemma leaves_kids_sorted d kids :
  wf_kids s lim d kids ->
  (forall c t, kids !! c = Some (Some t) -> StronglySorted (below s d) (leaves t)) ->
  StronglySorted (below s d) (leaves_kids kids).
Proof.
  intros [_ Hk] Hs. apply StronglySorted_flat_map.
  - intros c [t|] Hc; simpl; [eauto|constructor].
  - intros c c' [t|] [t'|] a b Hlt Hc Hc' Ha Hb; simpl in Ha, Hb;
      try (by apply elem_of_nil in Ha); try (by apply elem_of_nil in Hb).
    destruct (Hk _ _ Hc) as [Hf Hw]. destruct (Hk _ _ Hc') as [Hf' Hw'].
    rewrite (wf_first_char _ _ _ _ _ Hw Ha) in Hf.
    rewrite (wf_first_char _ _ _ _ _ Hw' Hb) in Hf'.
    destruct (wf_leaf_bound _ _ _ _ _ Hw Ha) as (? & ? & ?).
    destruct (wf_leaf_bound _ _ _ _ _ Hw' Hb) as (? & ? & ?).
    apply lex_le_first; lia.
Qed.

Lemma leaves_sorted : forall t d, wf s lim d t -> StronglySorted (below s d) (leaves t).
Proof.
  induction t as [a st jv|a st en kids IH] using tree_ind'; intros d H.
  - simpl. repeat constructor.
  - pose proof H as Hw. apply wf_inner_inv in H as ((? & ? & ?) & _ & Hag & Hk).
    cbn [leaves]. fold (leaves_kids kids).
    apply (StronglySorted_impl_elem (below s (d + (en - st)))).
    + intros x y Hx Hy Hxy. unfold below, lex_order in *.
      apply elem_of_leaves_kids in Hx as (c & t & Hc & Hx).
      apply elem_of_leaves_kids in Hy as (c' & t' & Hc' & Hy).
      destruct Hk as [_ Hk].
      destruct (Hk _ _ Hc) as [_ Hwt]. destruct (Hk _ _ Hc') as [_ Hwt'].
      destruct (wf_leaf_bound _ _ _ _ _ Hwt Hx) as (? & ? & ?).
      destruct (wf_leaf_bound _ _ _ _ _ Hwt' Hy) as (? & ? & ?).
      apply (lex_le_common s _ _ (Z.to_nat (en - st))); try lia.
      * rewrite Z2Nat.id by lia. intros k Hk'.
        rewrite <- (Hag x), <- (Hag y); try done.
        -- apply elem_of_leaves_kids. eauto.
        -- apply elem_of_leaves_kids. eauto.
      * rewrite Z2Nat.id by lia. by rewrite <- !Z.add_assoc.
    + apply leaves_kids_sorted; [exact Hk|]. intros c t Hc.
      destruct Hk as [_ Hk]. destruct (Hk _ _ Hc) as [_ Hwt]. eapply IH; eauto.
Qed.

Lemma tree_leaves_sorted kids :
  wf_kids s lim 0 kids -> StronglySorted (below s 0) (leaves_kids kids).
Proof.
  intros Hk. apply leaves_kids_sorted; [exact Hk|]. intros c t Hc.
  destruct Hk as [_ Hk]. destruct (Hk _ _ Hc) as [_ Hwt]. by apply leaves_sorted.
Qed.
End Sorted.

(** ** The result *)

Lemma suffixes_zrange s : suffixes s = map (suffix s) (zrange (Z.of_nat (length s))).
Proof.
  unfold suffixes, zrange. rewrite Nat2Z.id, map_map. apply map_ext.
  intros k. unfold suffix. by rewrite Nat2Z.id.
Qed.

Lemma start_offset_suffix s jv :
  0 <= jv < Z.of_nat (length s) -> start_offset s (suffix s jv) = jv + 1.
Proof. intros H. unfold start_offset, suffix. rewrite length_drop. lia. Qed.

(** The leaves of a well-formed tree that has one leaf for each suffix are,
    in the order of the walk, the suffixes in their order. *)
Lemma order_of_tree s kids :
  wf_kids s (Z.of_nat (length s) - 1) 0 kids ->
  leaves_kids kids ≡ₚ zrange (Z.of_nat (length s)) ->
  map (fun jv => jv + 1) (leaves_kids kids) = sorted_suffix_offsets s.
Proof.
  intros Hwf Hperm.
  assert (Hs : StronglySorted lex_order (map (suffix s) (leaves_kids kids))).
  { apply (StronglySorted_fmap _ (below s 0)).
    - intros a b. unfold below. by rewrite !Z.add_0_r.
    - apply (tree_leaves_sorted s (Z.of_nat (length s) - 1)); [lia|exact Hwf]. }
  assert (Hp : map (suffix s) (leaves_kids kids) ≡ₚ suffixes s).
  { rewrite suffixes_zrange. by apply Permutation_map. }
  unfold sorted_suffix_offsets.
  rewrite <- (StronglySorted_unique lex_order _ _ Hs
                (StronglySorted_merge_sort lex_order (suffixes s))).
  - rewrite map_map. apply map_ext_in. intros jv Hjv.
    rewrite start_offset_suffix; [reflexivity|].
    apply elem_of_zrange. rewrite <- Hperm. by apply list_elem_of_In.
  - rewrite Hp. symmetry. apply merge_sort_Permutation.
Qed.

Lemma one_to_zrange k : map (fun jv => jv + 1) (zrange (Z.of_nat k)) = one_to k.
Proof.
  unfold zrange, one_to. rewrite Nat2Z.id, map_map, <- seq_shift, map_map.
  apply map_ext. intros. lia.
Qed.

Lemma NoDup_one_to k : NoDup (one_to k).
Proof.
  unfold one_to. apply NoDup_fmap_2; [intros a b; lia|apply NoDup_seq].
Qed.

Lemma elem_of_one_to k x : x ∈ one_to k <-> 1 <= x <= Z.of_nat k.
Proof.
  unfold one_to. rewrite list_elem_of_fmap. split.
  - intros (y & -> & Hy). apply elem_of_seq in Hy. lia.
  - intros Hx. exists (Z.to_nat x). split; [lia|]. apply elem_of_seq. lia.
Qed.

Lemma repr_root_frame w w1 r e kids :
  repr_root w r e kids ->
  (forall a, a ∈ r :: addrs_kids kids -> nodes w1 !! a = nodes w !! a) ->
  repr_root w1 r e kids.
Proof.
  intros ((nd & H1 & H2 & H3) & Hk & Hnd) Hfr. split; [|split; [|assumption]].
  - exists nd. rewrite Hfr; [auto|by left].
  - eapply repr_kids_frame; [exact Hk|]. intros a Ha. apply Hfr. by right.
Qed.

Section Correct.
Variable text : str.
Hypothesis Hvalid : valid_input text = true.
Let s := text ++ [dollar].
Let n := Z.of_nat (length s).

Lemma tree_inv_finished self w kids : tree_inv s n n self w kids -> finished s self w kids.
Proof.
  intros ((Hr & _) & Hrep & Hrange & Hwf & Hperm).
  split; [exact Hrep|]. split; [|split; assumption].
  intros a [->|Ha]%elem_of_cons; [exact Hr|]. apply Hrange in Ha. lia.
Qed.

Lemma finished_frame self w w1 kids :
  finished s self w kids ->
  (forall a, (a < length (nodes w))%nat -> nodes w1 !! a = nodes w !! a) ->
  (length (nodes w) <= length (nodes w1))%nat ->
  finished s self w1 kids.
Proof.
  intros (Hrep & Hrange & Hwf & Hperm) Hfr Hlen.
  split; [|split; [|split; assumption]].
  - eapply repr_root_frame; [exact Hrep|]. intros a Ha. apply Hfr, Hrange, Ha.
  - intros a Ha. apply Hrange in Ha. lia.
Qed.

(** The walk of a finished tree. *)
Lemma traversal_correct fuel self w kids :
  finished s self w kids -> (length text + 1 < fuel)%nat ->
  get_suffix_tree fuel self w = Ok (sorted_suffix_offsets s, w).
Proof.
  intros (Hrep & _ & Hwf & Hperm) Hf.
  rewrite <- (order_of_tree s kids Hwf Hperm).
  apply get_suffix_tree_leaves; [exact Hrep|].
  pose proof (wf_kids_height _ _ _ Hwf ltac:(lia)).
  unfold n, s in *. rewrite length_app in *. simpl in *. lia.
Qed.

Lemma Ukkonen_init_finished fuel e w E :
  ends w !! e = Some E -> -1 <= E -> (length text + 3 <= fuel)%nat ->
  exists self w1 kids,
    Ukkonen_init fuel text e w = Ok (self, w1) /\ finished s self w1 kids /\
    (forall a, (a < length (nodes w))%nat -> nodes w1 !! a = nodes w !! a) /\
    (length (nodes w) <= length (nodes w1))%nat /\
    ends w1 !! e = Some (E + (n + 1)).
Proof.
  intros HE HE1 Hf.
  destruct (Ukkonen_init_spec text Hvalid fuel e w E HE HE1)
    as (self & w1 & Hrun & Hr & He & HE2 & kids & Hinv).
  { rewrite length_app. simpl. lia. }
  exists self, w1, kids. split; [exact Hrun|].
  split; [by apply tree_inv_finished|].
  apply Ukkonen_init_constructing, constructing_frame in Hrun as (_ & Hfr & _).
  split; [exact Hfr|]. split; [|exact HE2].
  destruct Hinv as ((Hlt & _) & _). lia.
Qed.

Lemma Ukkonen_default_constructs fuel :
  (length text + 3 <= fuel)%nat -> constructs s loaded (Ukkonen_default fuel text).
Proof.
  intros Hf w (E & HE & HE1). unfold Ukkonen_default.
  destruct (Ukkonen_init_finished fuel default_End w E HE HE1 Hf)
    as (self & w1 & kids & Hrun & Hfin & Hfr & Hlen & HE2).
  exists self, w1, kids. split; [exact Hrun|]. split; [exact Hfin|].
  split; [exact Hfr|]. split; [exact Hlen|].
  eexists. split; [exact HE2|]. lia.
Qed.

Lemma Ukkonen_fresh_constructs fuel :
  (length text + 3 <= fuel)%nat -> constructs s (fun _ => True) (Ukkonen_fresh fuel text).
Proof.
  intros Hf w _. unfold Ukkonen_fresh.
  set (w' := mkWorld (nodes w) (ends w ++ [-1])).
  assert (Hnew : End_new w = Ok (length (ends w), w')) by reflexivity.
  mstep Hnew.
  assert (HE : ends w' !! length (ends w) = Some (-1)).
  { simpl. rewrite lookup_app_r by lia. by rewrite Nat.sub_diag. }
  destruct (Ukkonen_init_finished fuel (length (ends w)) w' (-1) HE ltac:(lia) Hf)
    as (self & w1 & kids & Hrun & Hfin & Hfr & Hlen & HE2).
  exists self, w1, kids. split; [exact Hrun|]. split; [exact Hfin|].
  split; [exact Hfr|]. split; [exact Hlen|exact I].
Qed.

Lemma suffix_order_spec fuel w :
  loaded w -> (length text + 3 <= fuel)%nat ->
  exists w1, suffix_order fuel text w = Ok (sorted_suffix_offsets s, w1).
Proof.
  intros Hw Hf. unfold suffix_order.
  destruct (Ukkonen_default_constructs fuel Hf w Hw)
    as (self & w1 & kids & Hrun & Hfin & _).
  mstep Hrun. exists w1. apply (traversal_correct fuel self w1 kids Hfin). lia.
Qed.

Lemma two_instances_spec fuel P mk w :
  constructs s P mk -> P w -> (length text + 1 < fuel)%nat ->
  exists w2,
    two_instances fuel mk w = Ok ((sorted_suffix_offsets s, sorted_suffix_offsets s), w2).
Proof.
  intros Hmk Hw Hf. unfold two_instances.
  destruct (Hmk w Hw) as (u1 & w1 & kids1 & Hrun1 & Hfin1 & _ & _ & Hw1).
  destruct (Hmk w1 Hw1) as (u2 & w2 & kids2 & Hrun2 & Hfin2 & Hfr & Hlen & _).
  mstep Hrun1. mstep Hrun2.
  mstep (traversal_correct fuel u1 w2 kids1 (finished_frame _ _ _ _ Hfin1 Hfr Hlen) Hf).
  mstep (traversal_correct fuel u2 w2 kids2 Hfin2 Hf).
  exists w2. reflexivity.
Qed.
End Correct.

Lemma sorted_suffix_offsets_perm s :
  sorted_suffix_offsets s ≡ₚ one_to (length s).
Proof.
  unfold sorted_suffix_offsets.
  rewrite (Permutation_map (start_offset s) (merge_sort_Permutation lex_order (suffixes s))).
  rewrite suffixes_zrange, map_map, <- one_to_zrange.
  apply Permutation_refl', map_ext_in. intros jv Hjv.
  apply start_offset_suffix, elem_of_zrange. by apply list_elem_of_In.
Qed.

Lemma elem_of_suffixes s u :
  u ∈ suffixes s -> exists k, 0 <= k < Z.of_nat (length s) /\ u = suffix s k.
Proof.
  rewrite suffixes_zrange, list_elem_of_fmap. intros (k & -> & Hk).
  apply elem_of_zrange in Hk. eauto.
Qed.

(** The suffixes at the entries of [sorted_suffix_offsets s] go up. *)
Lemma sorted_suffix_offsets_sorted s :
  StronglySorted (fun a b => lex_order (suffix s (a - 1)) (suffix s (b - 1)))
                 (sorted_suffix_offsets s).
Proof.
  unfold sorted_suffix_offsets.
  apply (StronglySorted_fmap _
           (fun x y => lex_order (suffix s (start_offset s x - 1))
                                 (suffix s (start_offset s y - 1)))); [auto|].
  apply (StronglySorted_impl_elem lex_order);
    [|apply StronglySorted_merge_sort; apply _].
  intros x y Hx Hy Hxy. rewrite merge_sort_Permutation in Hx, Hy.
  apply elem_of_suffixes in Hx as (k & Hk & ->).
  apply elem_of_suffixes in Hy as (k' & Hk' & ->).
  rewrite !start_offset_suffix by assumption.
  by replace (k + 1 - 1) with k by lia; replace (k' + 1 - 1) with k' by lia.
Qed.

Lemma loaded_world0 : loaded world0.
Proof. exists (-1). split; [reflexivity|lia]. Qed.

(** ** Slots *)

Lemma py_norm_in_range len k :
  - len <= k < len -> py_norm len k = Some (Z.to_nat (k mod len)).
Proof.
  intros Hk. unfold py_norm.
  destruct (Z.leb_spec 0 k); destruct (Z.ltb_spec k len); simpl; try lia.
  - by rewrite Z.mod_small by lia.
  - destruct (Z.leb_spec (- len) k); destruct (Z.ltb_spec k 0); simpl; try lia.
    f_equal. f_equal. rewrite <- (Z.mod_small (len + k) len) by lia.
    rewrite <- (Z_mod_plus_full k 1 len). f_equal. lia.
Qed.

Lemma py_norm_out_of_range len k :
  k < - len \/ len <= k -> py_norm len k = None.
Proof.
  intros Hk. unfold py_norm.
  destruct (Z.leb_spec 0 k); destruct (Z.ltb_spec k len); simpl; try lia;
    destruct (Z.leb_spec (- len) k); destruct (Z.ltb_spec k 0); simpl; try lia; reflexivity.
Qed.

Lemma py_index_in_range {A} (l : list A) k :
  - Z.of_nat (length l) <= k < Z.of_nat (length l) ->
  exists x, l !! Z.to_nat (k mod Z.of_nat (length l)) = Some x /\ py_index l k = Ok x.
Proof.
  intros Hk. unfold py_index. rewrite py_norm_in_range by assumption.
  destruct (lookup_lt_is_Some_2 l (Z.to_nat (k mod Z.of_nat (length l)))) as [x Hx].
  { pose proof (Z.mod_pos_bound k (Z.of_nat (length l)) ltac:(lia)). lia. }
  exists x. by rewrite Hx.
Qed.

Lemma py_setitem_in_range {A} (l : list A) k v :
  - Z.of_nat (length l) <= k < Z.of_nat (length l) ->
  py_setitem l k v = Ok (<[Z.to_nat (k mod Z.of_nat (length l)):=v]> l).
Proof. intros Hk. unfold py_setitem. by rewrite py_norm_in_range. Qed.

(** What is assigned to a slot is what is read from it. *)
Lemma py_index_setitem {A} (l l1 : list A) k v :
  py_setitem l k v = Ok l1 -> py_index l1 k = Ok v.
Proof.
  unfold py_setitem, py_index. destruct (py_norm _ k) as [p|] eqn:E; [|discriminate].
  intros H. inversion H. subst. rewrite length_insert, E.
  rewrite list_lookup_insert_eq; [reflexivity|].
  unfold py_norm in E.
  destruct ((0 <=? k) && (k <? Z.of_nat (length l))) eqn:E1.
  - inversion E. apply andb_true_iff in E1 as [? ?%Z.ltb_lt]. lia.
  - destruct ((- Z.of_nat (length l) <=? k) && (k <? 0)) eqn:E2; [|discriminate].
    inversion E. apply andb_true_iff in E2 as [?%Z.leb_le ?%Z.ltb_lt]. lia.
Qed.

Lemma Node_setitem_Ok a k v w u w1 :
  Node_setitem a k v w = Ok (u, w1) ->
  exists nd l, nodes w !! a = Some nd /\ py_setitem (child_nodes nd) k v = Ok l /\
               w1 = mkWorld (<[a:=set_child_nodes nd l]> (nodes w)) (ends w).
Proof.
  intros H. unfold Node_setitem in H.
  apply bind_Ok in H as (nd & w2 & H1 & H). apply get_node_Ok in H1 as [H1 ->].
  apply bind_Ok in H as (l & w2 & H2 & H). apply lift_Ok in H2 as [H2 ->].
  apply put_node_Ok in H as [_ ->]. eauto.
Qed.

(** ** The traversal and the instance *)

(** ** The list that the walk fills *)



(** ** The first entry *)

Lemma lex_le_terminator text k :
  valid_input text = true -> 0 <= k < Z.of_nat (length text) ->
  lex_le (suffix (text ++ [dollar]) k) [dollar] = false.
Proof.
  intros Hv Hk. rewrite suffix_cons by (rewrite length_app; simpl; lia).
  rewrite char_at_app_l by lia.
  pose proof (valid_input_chars text _ Hv (char_at_elem text k Hk)) as Hc.
  cbn [lex_le]. unfold dollar.
  destruct (Z.ltb_spec (char_at text k) 36); [lia|].
  destruct (Z.eqb_spec (char_at text k) 36); [lia|]. reflexivity.
Qed.

Lemma suffix_terminator text :
  suffix (text ++ [dollar]) (Z.of_nat (length text)) = [dollar].
Proof. unfold suffix. rewrite Nat2Z.id, drop_app_length. reflexivity. Qed.

(** The terminator alone is the least suffix. *)
Lemma sorted_suffix_offsets_head text :
  valid_input text = true ->
  exists rest, sorted_suffix_offsets (text ++ [dollar]) = (Z.of_nat (length text) + 1) :: rest.
Proof.
  intros Hv. set (s := text ++ [dollar]).
  pose proof (sorted_suffix_offsets_perm s) as Hp.
  pose proof (sorted_suffix_offsets_sorted s) as Hs.
  assert (Hn : length s = S (length text)) by (unfold s; rewrite length_app; simpl; lia).
  assert (Hin : Z.of_nat (length text) + 1 ∈ sorted_suffix_offsets s).
  { rewrite Hp. apply elem_of_one_to. lia. }
  destruct (sorted_suffix_offsets s) as [|a rest]; [by apply elem_of_nil in Hin|].
  exists rest. f_equal.
  assert (Ha : 1 <= a <= Z.of_nat (length s)).
  { apply elem_of_one_to. rewrite <- Hp. by left. }
  destruct (Z.eq_dec a (Z.of_nat (length text) + 1)) as [|Hne]; [assumption|exfalso].
  apply elem_of_cons in Hin as [Hin|Hin]; [congruence|].
  apply StronglySorted_cons in Hs as [Hs _]. rewrite Forall_forall in Hs.
  specialize (Hs _ Hin). unfold lex_order in Hs.
  replace (Z.of_nat (length text) + 1 - 1) with (Z.of_nat (length text)) in Hs by lia.
  unfold s in Hs. rewrite suffix_terminator, lex_le_terminator in Hs; [discriminate|assumption|lia].
Qed.

(** ** An [End] of its own *)

Lemma Ukkonen_init_other_ends fuel text e w u w1 :
  Ukkonen_init fuel text e w = Ok (u, w1) ->
  length (ends w1) = length (ends w) /\
  forall e', e' <> e -> ends w1 !! e' = ends w !! e'.
Proof.
  intros H. unfold Ukkonen_init in H. mbind H as A self.
  apply Ukkonen_attrs_owned in A as (Hown & _ & He & Hends & _).
  unfold run_algorithm in H.
  apply phases_owned in H as (_ & _ & _ & _ & (El & _ & Eo)); [|assumption].
  rewrite He in Eo. rewrite <- Hends. auto.
Qed.

(** ** What the construction allocates *)

Lemma count_leaves_flags w : count_leaves w = count_true (flags w).
Proof.
  unfold count_leaves, count_true, flags. induction (nodes w) as [|nd l IH]; [reflexivity|].
  cbn [map]. rewrite !filter_cons. destruct (decide (leaf_node nd = true)); simpl; lia.
Qed.

Lemma count_true_app l1 l2 : count_true (l1 ++ l2) = (count_true l1 + count_true l2)%nat.
Proof. unfold count_true. by rewrite filter_app, length_app. Qed.

Lemma length_flags w : length (flags w) = length (nodes w).
Proof. unfold flags. by rewrite length_map. Qed.

Lemma flags_insert l a nd nd' :
  l !! a = Some nd -> leaf_node nd' = leaf_node nd ->
  map leaf_node (<[a:=nd']> l) = map leaf_node l.
Proof.
  intros Hl Hf. change (leaf_node <$> <[a:=nd']> l = leaf_node <$> l).
  rewrite list_fmap_insert, Hf. apply list_insert_id. by rewrite list_lookup_fmap, Hl.
Qed.

Lemma put_node_flags a nd nd' w u w1 :
  nodes w !! a = Some nd -> leaf_node nd' = leaf_node nd ->
  put_node a nd' w = Ok (u, w1) -> flags w1 = flags w.
Proof.
  intros Hn Hf H. apply put_node_Ok in H as [_ ->]. unfold flags. simpl.
  eapply flags_insert; eauto.
Qed.

Lemma Node_setitem_flags a k v w u w1 :
  Node_setitem a k v w = Ok (u, w1) -> flags w1 = flags w.
Proof.
  intros H. apply Node_setitem_Ok in H as (nd & l & Hn & _ & ->). unfold flags. simpl.
  eapply flags_insert; eauto.
Qed.

Lemma Node_new_flags st en inc sl lf w a w1 :
  Node_new st en inc sl lf w = Ok (a, w1) -> flags w1 = flags w ++ [lf].
Proof.
  intros H. apply Node_new_Ok in H as [_ ->]. unfold flags. simpl. by rewrite map_app.
Qed.

Lemma new_leaf_flags self i j an k w u w1 :
  new_leaf self i j an k w = Ok (u, w1) -> flags w1 = flags w ++ [true].
Proof.
  intros H. unfold new_leaf in H.
  mbind H as A1. apply Node_new_flags in A1.
  mbind H as A2. apply Node_setitem_flags in A2.
  mread H. mread H. mread H.
  eapply put_node_flags in H; [|eassumption|reflexivity]. congruence.
Qed.

Lemma split_edge_flags self text i j an k ae w u w1 :
  split_edge self text i j an k ae w = Ok (u, w1) -> flags w1 = flags w ++ [false; true].
Proof.
  intros H. unfold split_edge in H.
  mread H. mread H.
  mbind H as A1. apply Node_new_flags in A1.
  mbind H as A2. apply Node_setitem_flags in A2.
  mread H. mread H. mread H.
  mbind H as A3. eapply put_node_flags in A3; [|eassumption|reflexivity].
  mbind H as A4. apply Node_setitem_flags in A4.
  mread H.
  mbind H as A5. apply Node_new_flags in A5.
  mbind H as A6. apply Node_setitem_flags in A6.
  mread H. mread H. mread H.
  eapply put_node_flags in H; [|eassumption|reflexivity].
  rewrite H, A6, A5, A4, A3, A2, A1, <- app_assoc. reflexivity.
Qed.

(** One pass of the inner loop makes a leaf, or an internal node and a
    leaf, or nothing, and sets no flag of a node that is there. *)
Lemma extension_flags fuel self text i j w b j1 self1 w1 :
  extension fuel self text i j w = Ok ((b, j1, self1), w1) ->
  (b = true /\ j1 = j + 1 /\
   (flags w1 = flags w ++ [true] \/ flags w1 = flags w ++ [false; true])) \/
  (b = false /\ j1 = j /\ w1 = w).
Proof.
  intros H. unfold extension in H.
  set (self0 := if same_node (active_node self) (root self)
                then set_active_length self (i - j) else self) in H.
  clearbody self0.
  mread H.
  mbind H as A [nd0 self2].
  pose proof (read_only_skip_count _ _ _ _ _ _ _ _ _ A). subst.
  cbn [snd] in H.
  mread H. mread H. mread H.
  match goal with Hx : py_index (child_nodes _) _ = Ok ?x |- _ => rename x into oae end.
  mbind H as B cont.
  match type of H with _ ?w' = _ => rename w' into w2 end.
  assert (Hcont : (cont = true /\ (flags w2 = flags w ++ [true] \/
                                   flags w2 = flags w ++ [false; true])) \/
                  (cont = false /\ w2 = w)).
  { destruct oae as [ae|].
    - mread B. mread B. mread B. destruct (negb _).
      + mbind B as C. apply split_edge_flags in C. minv B. left. auto.
      + minv B. right. auto.
    - mbind B as C. apply new_leaf_flags in C. minv B. left. auto. }
  destruct Hcont as [[-> Hf]|[-> ->]].
  - mread H. mread H. minv H. left. auto.
  - minv H. right. auto.
Qed.

Lemma extensions_flags fuel fuel_skip : forall self text i j w j1 self1 w1,
  extensions fuel fuel_skip self text i j w = Ok ((j1, self1), w1) ->
  j <= i ->
  exists new,
    flags w1 = flags w ++ new /\ j <= j1 <= i /\
    Z.of_nat (count_true new) = j1 - j /\ Z.of_nat (length new) <= 2 * (j1 - j).
Proof.
  induction fuel as [|fuel IH]; intros self text i j w j1 self1 w1 H Hj;
    simpl in H; [discriminate|].
  destruct (Z.ltb_spec j i).
  - mbind H as A [[b j2] self2].
    apply extension_flags in A as [(-> & -> & Hf)|(-> & -> & ->)].
    + apply IH in H as (new & Hf2 & Hj2 & Hc & Hl); [|lia].
      destruct Hf as [Hf|Hf]; rewrite Hf, <- app_assoc in Hf2.
      * exists ([true] ++ new). split; [exact Hf2|]. split; [lia|].
        rewrite count_true_app, length_app.
        change (count_true [true]) with 1%nat. simpl length. lia.
      * exists ([false; true] ++ new). split; [exact Hf2|]. split; [lia|].
        rewrite count_true_app, length_app.
        change (count_true [false; true]) with 1%nat. simpl length. lia.
    + minv H. exists []. rewrite app_nil_r. change (count_true []) with 0%nat.
    simpl length. split; [reflexivity|]. lia.
  - minv H. exists []. rewrite app_nil_r. change (count_true []) with 0%nat.
    simpl length. split; [reflexivity|]. lia.
Qed.

Lemma extend_flags e w u w1 : extend e w = Ok (u, w1) -> flags w1 = flags w.
Proof. intros H. apply extend_Ok in H as (v & _ & ->). reflexivity. Qed.

Lemma phases_flags fuel fuel_in : forall self text n i j w u w1,
  phases fuel fuel_in self text n i j w = Ok (u, w1) ->
  0 <= j <= i ->
  exists new jf,
    flags w1 = flags w ++ new /\ j <= jf <= Z.max j n /\
    Z.of_nat (count_true new) = jf - j /\ Z.of_nat (length new) <= 2 * (jf - j).
Proof.
  induction fuel as [|fuel IH]; intros self text n i j w u w1 H Hj;
    simpl in H; [discriminate|].
  destruct (Z.leb_spec i n).
  - mbind H as A. apply extend_flags in A.
    mbind H as B [j2 self2].
    apply extensions_flags in B as (new1 & Hf1 & Hj1 & Hc1 & Hl1); [|lia].
    cbn [fst snd] in H.
    apply IH in H as (new2 & jf & Hf2 & Hj2 & Hc2 & Hl2); [|lia].
    exists (new1 ++ new2), jf. rewrite Hf2, Hf1, A, <- app_assoc.
    split; [reflexivity|]. rewrite count_true_app, length_app. lia.
  - minv H. exists [], j. rewrite app_nil_r. change (count_true []) with 0%nat.
    simpl length. split; [reflexivity|]. lia.
Qed.

Lemma Ukkonen_init_flags fuel text e w u w1 :
  Ukkonen_init fuel text e w = Ok (u, w1) ->
  exists new,
    flags w1 = flags w ++ false :: new /\
    (count_true new <= length text + 1)%nat /\
    (length new <= 2 * count_true new)%nat.
Proof.
  intros H. unfold Ukkonen_init in H. mbind H as A self.
  unfold Ukkonen_attrs in A.
  mbind A as A1 r. apply Node_new_flags in A1.
  mread A. mbind A as A2. eapply put_node_flags in A2; [|eassumption|reflexivity].
  minv A. unfold run_algorithm in H.
  apply phases_flags in H as (new & jf & Hf & Hj & Hc & Hl); [|lia].
  exists new. rewrite Hf, A2, A1, <- app_assoc. split; [reflexivity|].
  rewrite length_app in Hj. simpl in Hj. lia.
Qed.

Lemma construction_allocates_linearly_bound fuel text e w u w1 :
  Ukkonen_init fuel text e w = Ok (u, w1) ->
  (length (nodes w1) <= length (nodes w) + (2 * length text + 3))%nat.
Proof.
  intros H. apply Ukkonen_init_flags in H as (new & Hf & Hc & Hl).
  pose proof (f_equal length Hf) as Hlen.
  rewrite length_app, !length_flags in Hlen. simpl in Hlen. lia.
Qed.

(** ** The shape of the nodes *)

Lemma flags_lookup w (a : addr) b :
  flags w !! a = Some b <-> exists nd, nodes w !! a = Some nd /\ leaf_node nd = b.
Proof.
  unfold flags, addr in *. change (map leaf_node (nodes w)) with (leaf_node <$> nodes w).
  rewrite list_lookup_fmap. destruct (nodes w !! a) as [nd|] eqn:E; simpl.
  - split.
    + intros H. exists nd. split; [reflexivity|congruence].
    + intros (nd' & H & <-). congruence.
  - split; [discriminate|]. intros (nd' & H & _). discriminate.
Qed.

Lemma flags_lookup_app w w1 new (a : addr) b :
  flags w1 = flags w ++ new -> flags w !! a = Some b -> flags w1 !! a = Some b.
Proof. intros -> H. by apply lookup_app_l_Some. Qed.

Lemma node_shape_set_child nd l :
  node_shape nd -> leaf_node nd = false -> length l = 91%nat ->
  node_shape (set_child_nodes nd l).
Proof.
  intros (H1 & H2 & H3 & H4 & H5) Hlf Hl. unfold node_shape. cbn.
  split; [assumption|]. split; [assumption|]. split; [assumption|].
  split; [congruence|assumption].
Qed.

Lemma node_shape_set_start nd v : node_shape nd -> node_shape (set_start nd v).
Proof. intros H. exact H. Qed.

Lemma all_shape_put r w a nd nd' u w1 :
  all_shape r w -> nodes w !! a = Some nd -> (node_shape nd -> node_shape nd') ->
  put_node a nd' w = Ok (u, w1) -> all_shape r w1.
Proof.
  intros Hs Hn Hf H. apply put_node_Ok in H as [Hlt ->]. intros b ndb Hb Hl. simpl in Hl.
  destruct (decide (a = b)) as [->|Hne].
  - rewrite list_lookup_insert_eq in Hl by assumption. inversion Hl; subst. eauto.
  - rewrite list_lookup_insert_ne in Hl by assumption. eauto.
Qed.

Lemma all_shape_but_setitem r x w a k v u w1 :
  all_shape_but r x w -> flags w !! a = Some false ->
  Node_setitem a k v w = Ok (u, w1) -> all_shape_but r x w1.
Proof.
  intros Hs Ha H. apply Node_setitem_Ok in H as (nd & l & Hn & Hset & ->).
  apply flags_lookup in Ha as (nd' & Hn' & Hlf).
  assert (nd' = nd) by congruence; subst nd'.
  apply py_setitem_Ok in Hset as [p ->].
  intros b ndb Hb Hx Hl. simpl in Hl.
  destruct (decide (a = b)) as [->|Hne].
  - rewrite list_lookup_insert_eq in Hl by (eapply lookup_lt_Some; eauto).
    inversion Hl; subst. apply node_shape_set_child; [eauto|assumption|].
    rewrite length_insert. by destruct (Hs b nd Hb Hx Hn).
  - rewrite list_lookup_insert_ne in Hl by assumption. eauto.
Qed.

Lemma all_shape_all_but r x w : all_shape r w -> all_shape_but r x w.
Proof. intros H a nd Ha _ Hl. eauto. Qed.

Lemma all_shape_setitem r w a k v u w1 :
  all_shape r w -> flags w !! a = Some false ->
  Node_setitem a k v w = Ok (u, w1) -> all_shape r w1.
Proof.
  intros Hs Ha H b ndb Hb Hl.
  destruct (decide (b = length (nodes w1))) as [->|Hne].
  - apply lookup_lt_Some in Hl. lia.
  - eapply (all_shape_but_setitem r (length (nodes w1))); eauto using all_shape_all_but.
Qed.

Lemma all_shape_new_inner r w st en sl a w1 :
  all_shape r w -> Node_new st en None sl false w = Ok (a, w1) -> all_shape r w1.
Proof.
  intros Hs H. apply Node_new_Ok in H as [-> ->]. intros b ndb Hb Hl. simpl in Hl.
  destruct (decide (b < length (nodes w))%nat).
  - rewrite lookup_app_l in Hl by assumption. eauto.
  - rewrite lookup_app_r in Hl by lia.
    destruct (b - length (nodes w))%nat; [|discriminate]. inversion Hl.
    unfold node_shape. cbn. split; [reflexivity|]. split; [reflexivity|].
    split; [reflexivity|]. split; [discriminate|reflexivity].
Qed.

Lemma attach_leaf_shape r' par k st e r jv w u w1 :
  all_shape r' w -> flags w !! par = Some false ->
  attach_leaf par k st e r jv w = Ok (u, w1) -> all_shape r' w1.
Proof.
  intros Hs Hpar H. unfold attach_leaf in H.
  mbind H as A1 a0. apply Node_new_Ok in A1 as [-> ->].
  set (nw := mkNode None st (EndRef e) (Some r) [] None true empty_slots) in *.
  set (w0 := mkWorld (nodes w ++ [nw]) (ends w)) in *.
  assert (Hpar0 : flags w0 !! par = Some false).
  { apply (flags_lookup_app w w0 [true]); [|assumption]. unfold flags, w0. simpl.
    by rewrite map_app. }
  assert (Hparlt : (par < length (nodes w))%nat).
  { apply lookup_lt_Some in Hpar. by rewrite length_flags in Hpar. }
  assert (Hs0 : all_shape_but r' (length (nodes w)) w0).
  { intros b ndb Hb Hx Hl. unfold w0 in Hl. simpl in Hl.
    destruct (decide (b < length (nodes w))%nat).
    - rewrite lookup_app_l in Hl by assumption. eauto.
    - apply lookup_lt_Some in Hl. rewrite length_app in Hl. simpl in Hl. lia. }
  mbind H as A2. pose proof A2 as A2'.
  apply (all_shape_but_setitem _ _ _ _ _ _ _ _ Hs0 Hpar0) in A2'.
  apply Node_setitem_Ok in A2 as (nd & l & Hn & Hset & ->).
  mbind H as A3 ch. unfold Node_getitem in A3.
  apply bind_Ok in A3 as (nd1 & wx & G & A3). apply get_node_Ok in G as [G ->].
  apply lift_Ok in A3 as [A3 ->]. simpl in G.
  rewrite list_lookup_insert_eq in G by (eapply lookup_lt_Some; eauto).
  inversion G; subst nd1. cbn in A3. rewrite (py_index_setitem _ _ _ _ Hset) in A3.
  inversion A3; subst ch. cbn [the_node] in H. rewrite bind_ret in H.
  mbind H as A4 nd4. apply get_node_Ok in A4 as [A4 ->]. simpl in A4.
  rewrite list_lookup_insert_ne in A4 by lia.
  rewrite lookup_app_r, Nat.sub_diag in A4 by lia. inversion A4; subst nd4.
  apply put_node_Ok in H as [_ ->].
  intros b ndb Hb Hl. simpl in Hl.
  destruct (decide (b = length (nodes w))) as [->|Hne].
  - rewrite list_lookup_insert_eq in Hl
      by (rewrite length_insert, length_app; simpl; lia).
    inversion Hl. unfold node_shape. cbn. split; [reflexivity|]. split; [reflexivity|].
    split; [reflexivity|]. split; [|discriminate]. intros _. split; [discriminate|reflexivity].
  - rewrite list_lookup_insert_ne in Hl by congruence. eapply A2'; eauto.
Qed.

Lemma new_leaf_shape r' self i j an k w u w1 :
  all_shape r' w -> flags w !! an = Some false ->
  new_leaf self i j an k w = Ok (u, w1) -> all_shape r' w1.
Proof. intros Hs Ha H. eapply attach_leaf_shape; [exact Hs|exact Ha|exact H]. Qed.

Ltac name_world H x := match type of H with _ ?w' = _ => rename w' into x end.

Lemma split_edge_shape r' self text i j an k ae w u w1 :
  all_shape r' w -> flags w !! an = Some false ->
  split_edge self text i j an k ae w = Ok (u, w1) -> all_shape r' w1.
Proof.
  intros Hs Ha H. unfold split_edge in H.
  mread H. mread H.
  mbind H as A1 a0. name_world H wa.
  pose proof (Node_new_flags _ _ _ _ _ _ _ _ A1) as F1.
  pose proof (all_shape_new_inner _ _ _ _ _ _ _ Hs A1) as S1.
  apply Node_new_Ok in A1 as [-> _].
  mbind H as A2. name_world H wb.
  pose proof (Node_setitem_flags _ _ _ _ _ _ A2) as F2.
  apply (all_shape_setitem _ _ _ _ _ _ _ S1) in A2 as S2;
    [|eapply flags_lookup_app; eauto].
  mread H. mread H. mread H.
  mbind H as A3. name_world H wc. pose proof A3 as A3'.
  eapply put_node_flags in A3'; [|eassumption|reflexivity].
  eapply (all_shape_put _ _ _ _ _ _ _ S2) in A3; [|eassumption|apply node_shape_set_start].
  assert (Fa0 : flags wc !! length (nodes w) = Some false).
  { rewrite A3', F2, F1, lookup_app_r by (rewrite length_flags; lia).
    by rewrite length_flags, Nat.sub_diag. }
  mbind H as A4. name_world H wd.
  pose proof (Node_setitem_flags _ _ _ _ _ _ A4) as F4.
  apply (all_shape_setitem _ _ _ _ _ _ _ A3 Fa0) in A4.
  mread H.
  eapply attach_leaf_shape; [exact A4| |exact H]. by rewrite F4.
Qed.

Lemma skip_count_inner fuel : forall self text cp a_node a_length w node self1 w1,
  skip_count fuel self text cp a_node a_length w = Ok ((node, self1), w1) ->
  active_inner self w -> active_inner self1 w.
Proof.
  induction fuel as [|fuel IH]; intros self text cp a_node a_length w node self1 w1 H Ha;
    simpl in H; [discriminate|].
  mbind H as A leaf.
  assert (Hleaf : w0 = w /\ (leaf = false -> flags w !! a_node = Some false)).
  { destruct (a_length =? 0).
    - inversion A. split; [reflexivity|discriminate].
    - unfold is_leaf in A. apply bind_Ok in A as (nd & w2 & G & A).
      apply get_node_Ok in G as [G ->]. inversion A; subst.
      split; [reflexivity|]. intros Hf. apply flags_lookup. eauto. }
  destruct Hleaf as [-> Hleaf]. destruct leaf.
  - inversion H; subst. assumption.
  - specialize (Hleaf eq_refl).
    assert (Ha' : active_inner (set_active_length (set_active_node self (Some a_node)) a_length) w)
      by (exists a_node; split; [reflexivity|assumption]).
    mread H. mbind H as B edge.
    pose proof (read_only_Node_getitem _ _ _ _ _ B). subst.
    destruct edge as [edge|]; [|inversion H; subst; assumption].
    mbind H as C len. pose proof (read_only_get_length _ _ _ _ C). subst.
    destruct (len >? a_length); [inversion H; subst; assumption|].
    mbind H as D len'. pose proof (read_only_get_length _ _ _ _ D). subst.
    eapply IH; eauto.
Qed.

Lemma extension_shape fuel self text i j w b j1 self1 w1 :
  all_shape (root self) w -> active_inner self w ->
  extension fuel self text i j w = Ok ((b, j1, self1), w1) ->
  all_shape (root self) w1 /\ (b = false -> active_inner self1 w1).
Proof.
  intros Hs Ha H. unfold extension in H.
  set (self0 := if same_node (active_node self) (root self)
                then set_active_length self (i - j) else self) in H.
  assert (Ha0 : active_inner self0 w) by (subst self0; destruct (same_node _ _); exact Ha).
  clearbody self0.
  mread H.
  mbind H as A [nd0 self2].
  pose proof (read_only_skip_count _ _ _ _ _ _ _ _ _ A). subst.
  apply skip_count_inner in A; [|assumption].
  cbn [snd] in H.
  mread H. mread H.
  destruct A as (an & Han & Hanf).
  match goal with Hx : active_node self2 = Some ?x |- _ =>
    assert (x = an) by congruence; subst x end.
  mread H.
  match goal with Hx : py_index (child_nodes _) _ = Ok ?x |- _ => rename x into oae end.
  mbind H as B cont. name_world H w2.
  assert (Hcont : all_shape (root self) w2 /\ (cont = false -> w2 = w)).
  { destruct oae as [ae|].
    - mread B. mread B. mread B. destruct (negb _).
      + mbind B as C. apply (split_edge_shape (root self)) in C; [|assumption|assumption].
        minv B. split; [assumption|discriminate].
      + minv B. split; [assumption|reflexivity].
    - mbind B as C. apply (new_leaf_shape (root self)) in C; [|assumption|assumption].
      minv B. split; [assumption|discriminate]. }
  destruct Hcont as [S2 Hw]. destruct cont.
  - mread H. mread H. minv H. split; [assumption|discriminate].
  - minv H. rewrite (Hw eq_refl) in *. split; [assumption|].
    intros _. exists an. split; assumption.
Qed.

Lemma extension_shaped fuel self text i j w b j1 self1 w1 :
  owned self w -> shaped self w ->
  extension fuel self text i j w = Ok ((b, j1, self1), w1) ->
  shaped self1 w1.
Proof.
  intros Hown (Hp & Hs & Hr & Ha) H.
  destruct (extension_shape _ _ _ _ _ _ _ _ _ _ Hs Ha H) as [S1 A1].
  pose proof (extension_flags _ _ _ _ _ _ _ _ _ _ H) as Hf.
  apply extension_owned in H as (_ & _ & Hr1 & _ & Hp1 & Ht & _); [|assumption].
  split; [congruence|]. rewrite Hr1. split; [assumption|].
  destruct Hf as [(-> & _ & Hf)|(-> & _ & ->)].
  - assert (Hr' : flags w1 !! root self = Some false)
      by (destruct Hf as [Hf|Hf]; eapply flags_lookup_app; eauto).
    split; [assumption|]. destruct (Ht eq_refl) as [Han _].
    exists (root self). split; assumption.
  - split; [assumption|]. by apply A1.
Qed.

Lemma Ukkonen_attrs_shaped e w self w1 :
  Ukkonen_attrs e w = Ok (self, w1) -> shaped self w1.
Proof.
  intros H. unfold Ukkonen_attrs in H.
  mbind H as A r. apply Node_new_Ok in A as [-> ->].
  mread H. mbind H as B. apply put_node_Ok in B as [Hlt ->]. minv H.
  cbn [nodes ends] in *.
  match goal with Hx : (_ ++ _) !! _ = Some ?nd |- _ =>
    rewrite lookup_app_r, Nat.sub_diag in Hx by lia; inversion Hx; subst nd; clear Hx end.
  split; [reflexivity|]. cbn [root active_node]. split; [|split].
  - intros b nd Hb Hl. simpl in Hl. pose proof (lookup_lt_Some _ _ _ Hl) as Hlen.
    rewrite length_insert, length_app in Hlen. simpl in Hlen.
    assert (b = length (nodes w)) as -> by lia.
    rewrite list_lookup_insert_eq in Hl by (rewrite length_app; simpl; lia).
    inversion Hl. unfold node_shape. cbn. split; [reflexivity|]. split; [reflexivity|].
    split; [reflexivity|]. split; [discriminate|reflexivity].
  - apply flags_lookup. eexists. split; [simpl|].
    { rewrite list_lookup_insert_eq by (rewrite length_app; simpl; lia). reflexivity. }
    reflexivity.
  - exists (length (nodes w)). split; [reflexivity|].
    apply flags_lookup. eexists. split; [simpl|].
    { rewrite list_lookup_insert_eq by (rewrite length_app; simpl; lia). reflexivity. }
    reflexivity.
Qed.

Lemma constructing_shaped e w0 text self w :
  constructing e w0 text self w -> shaped self w.
Proof.
  induction 1 as [self w H|self w u w1 Hc IH H|self w fuel i j b j1 self1 w1 Hc IH H
                 |self w Hc IH].
  - eapply Ukkonen_attrs_shaped; eauto.
  - destruct IH as (Hp & Hs & Hr & Ha). pose proof (extend_flags _ _ _ _ H) as Hf.
    apply extend_Ok in H as (v & _ & ->).
    split; [reflexivity|]. split; [exact Hs|]. split; [exact Hr|exact Ha].
  - apply constructing_owned in Hc as [Hown _]. eapply extension_shaped; eauto.
  - exact IH.
Qed.

(** ** The walk of any tree *)

Lemma walks_fold fuel self w :
  (forall a acc, (root self <= a < length (nodes w))%nat ->
                 walks w (get_suffix_tree_aux fuel a acc)) ->
  forall l m,
    (forall c, Some c ∈ l -> (root self <= c < length (nodes w))%nat) ->
    walks w m -> walks w (fold_left (visit fuel) l m).
Proof.
  intros IH. induction l as [|c l IHl]; intros m Hl Hm; [exact Hm|].
  cbn [fold_left]. apply IHl; [intros c' Hc'; apply Hl; by right|].
  unfold visit, walks, bind. destruct Hm as [->|[st ->]]; [by left|].
  destruct c as [c|]; [apply IH, Hl; by left|]. right. eexists. reflexivity.
Qed.

Lemma walks_aux self w :
  owned self w -> all_shape (root self) w ->
  forall fuel a acc, (root self <= a < length (nodes w))%nat ->
                     walks w (get_suffix_tree_aux fuel a acc).
Proof.
  intros Hown Hs. induction fuel as [|fuel IH]; intros a acc Ha; [by left|].
  rewrite get_suffix_tree_aux_S.
  destruct (lookup_lt_is_Some_2 (nodes w) a ltac:(lia)) as [nd Hn].
  unfold walks. rewrite (bind_eq _ _ _ _ _ (get_node_eq _ _ _ Hn)).
  destruct (Hs a nd (proj1 Ha) Hn) as (_ & _ & _ & Hleaf & _).
  destruct (leaf_node nd) eqn:Hlf.
  - destruct (Hleaf eq_refl) as [Hj _]. destruct (j nd); [|done]. right. eexists. reflexivity.
  - apply (walks_fold fuel self w IH); [|right; eexists; reflexivity].
    intros c Hc. destruct (owned_node self w a nd Hown (proj1 Ha) Hn) as (_ & _ & Hch). by apply Hch.
Qed.

(** ** The leaves of a construction *)

(** ** The leaves of a text over the alphabet *)

Section Leaves.
Variable s : str.
Variable bound : Z.
Hypothesis Hbound : bound <= Z.of_nat (length s).
Hypothesis Hchars : forall k, 0 <= k < bound -> 36 <= char_at s k <= 126.
Hypothesis Habove : bound < Z.of_nat (length s) -> 126 < char_at s bound.
Let n := Z.of_nat (length s).

(** The phases of the characters before [bound] make one leaf for each
    suffix they add. *)
Lemma phases_upto_leaves fuel_in fuel : forall (k : nat) self w i j E,
  1 <= i -> i + Z.of_nat k <= bound + 1 -> phase_inv s i j self w ->
  ends w !! end_obj self = Some E -> i - 1 <= E ->
  bound < Z.of_nat fuel_in ->
  exists self1 w1 j1 new,
    phases (k + fuel) fuel_in self s n i j w
    = phases fuel fuel_in self1 s n (i + Z.of_nat k) j1 w1 /\
    phase_inv s (i + Z.of_nat k) j1 self1 w1 /\
    flags w1 = flags w ++ new /\ Z.of_nat (count_true new) = j1 - j.
Proof.
  induction k as [|k IH]; intros self w i j E Hi Hik Hinv HE HiE Hfin.
  { exists self, w, j, []. rewrite !Z.add_0_r, app_nil_r.
    change (count_true []) with 0%nat. split; [reflexivity|]. split; [assumption|].
    split; [reflexivity|lia]. }
  cbn [Nat.add phases].
  pose proof Hinv as (kids & Hinv0 & Hj & Hpos & p & x & L & Hax & Hat & HL).
  destruct (Z.leb_spec i n) as [_|Hgt]; [|unfold n in Hgt; lia].
  mstep (extend_run _ _ _ HE).
  set (w' := mkWorld (nodes w) (<[end_obj self:=E + 1]> (ends w))).
  set (self' := set_previous_node self None).
  assert (HE' : ends w' !! end_obj self' = Some (E + 1)).
  { apply list_lookup_insert_eq. eapply lookup_lt_Some; eauto. }
  assert (Hinv' : tree_inv s i j self' w' kids).
  { apply (tree_inv_self _ _ _ self); try reflexivity.
    apply (tree_inv_nodes _ _ _ _ w); [reflexivity|].
    eapply tree_inv_mono; [|exact Hinv0]. lia. }
  destruct (extensions_spec s bound Hbound Hchars Habove
              fuel_in fuel_in self' w' kids i j (E + 1) p x L)
    as (j1 & self1 & w1 & Hrun & Hr1 & He1 & Hends1 & Hj1 & kids1 & Hinv1 & Hcases);
    try assumption; try lia.
  destruct (extensions_flags _ _ _ _ _ _ _ _ _ _ Hrun ltac:(lia))
    as (new1 & Hf1 & _ & Hc1 & _).
  mstep Hrun. cbn [fst snd].
  change (root self') with (root self) in Hr1, Hcases.
  change (end_obj self') with (end_obj self) in He1, HE'.
  change (flags w') with (flags w) in Hf1.
  set (self2 := set_active_length self1 (active_length self1 + 1)).
  destruct (IH self2 w1 (i + 1) j1 (E + 1))
    as (self3 & w3 & j3 & new3 & Hrun3 & Hinv3 & Hf3 & Hc3); try lia.
  - exists kids1. replace (i + 1 - 1) with i by lia. replace (i + 1 - 2) with (i - 1) by lia.
    split; [apply (tree_inv_self _ _ _ self1); try reflexivity; assumption|].
    split; [lia|]. split.
    + intros Hlt. destruct Hcases as [[-> _]|(_ & Hp & _)]; [lia|exact Hp].
    + destruct Hcases as [[-> Han]|(Hlt & _ & p1 & x1 & Han & Hat1)].
      * exists [], (root self), 1. change (root self2) with (root self1).
        rewrite Hr1. split; [assumption|]. split; [apply active_at_root|].
        intros Hp. by destruct Hp.
      * exists p1, x1, (active_length self1 + 1). change (root self2) with (root self1).
        rewrite Hr1. split; [assumption|]. split; [assumption|]. reflexivity.
  - change (end_obj self2) with (end_obj self1). rewrite He1, Hends1. exact HE'.
  - exists self3, w3, j3, (new1 ++ new3).
    replace (i + Z.of_nat (S k)) with (i + 1 + Z.of_nat k) by lia.
    split; [exact Hrun3|]. split; [exact Hinv3|].
    rewrite Hf3, Hf1, <- app_assoc. split; [reflexivity|].
    rewrite count_true_app. lia.
Qed.

Lemma phases_leaves fuel_in fuel self w i j E :
  bound = n ->
  (forall pos, 0 <= pos < n - 1 -> char_at s pos <> char_at s (n - 1)) ->
  1 <= i <= n + 1 -> phase_inv s i j self w ->
  ends w !! end_obj self = Some E -> i - 1 <= E ->
  n < Z.of_nat fuel_in -> n + 1 - i < Z.of_nat fuel ->
  exists self1 w1 new,
    phases fuel fuel_in self s n i j w = Ok (self1, w1) /\
    flags w1 = flags w ++ new /\ Z.of_nat (count_true new) = n - j.
Proof.
  intros Hb Hlast Hi Hinv HE HiE Hfin Hf.
  destruct (phases_upto_leaves fuel_in (fuel - Z.to_nat (n + 1 - i)) (Z.to_nat (n + 1 - i))
              self w i j E)
    as (self1 & w1 & j1 & new & Hrun & Hinv1 & Hf1 & Hc1); try assumption; try lia.
  replace (Z.to_nat (n + 1 - i) + (fuel - Z.to_nat (n + 1 - i)))%nat with fuel in Hrun by lia.
  rewrite Z2Nat.id in * by lia. replace (i + (n + 1 - i)) with (n + 1) in * by lia.
  rewrite Hrun.
  destruct (fuel - Z.to_nat (n + 1 - i))%nat as [|fuel'] eqn:Ef; [lia|].
  cbn [phases]. destruct (Z.leb_spec (n + 1) n) as [|_]; [lia|].
  exists self1, w1, new. split; [reflexivity|]. split; [exact Hf1|].
  destruct Hinv1 as (kids & Hinv1 & Hj1 & Hpos & _).
  destruct (Z.eq_dec j1 n) as [->|Hne]; [assumption|].
  destruct (Hpos ltac:(lia)) as (pos & Hp & Heq).
  replace (n + 1 - 2) with (n - 1) in * by lia. by apply Hlast in Heq.
Qed.
End Leaves.

Lemma Ukkonen_init_leaves text fuel e w E :
  valid_input text = true ->
  ends w !! e = Some E -> -1 <= E -> (length text + 3 <= fuel)%nat ->
  exists self w1 new,
    Ukkonen_init fuel text e w = Ok (self, w1) /\
    flags w1 = flags w ++ false :: new /\ count_true new = S (length text).
Proof.
  intros Hvalid HE HE1 Hf. unfold Ukkonen_init.
  destruct (Ukkonen_attrs_run e w) as (self & w0 & Hrun & Hr & He & Han & Hends & Hinv).
  assert (Hf0 : flags w0 = flags w ++ [false]).
  { unfold Ukkonen_attrs in Hrun.
    mbind Hrun as A1 r. apply Node_new_flags in A1.
    mread Hrun. mbind Hrun as A2. eapply put_node_flags in A2; [|eassumption|reflexivity].
    minv Hrun. congruence. }
  mstep Hrun. unfold run_algorithm.
  set (s := text ++ [dollar]). set (n := Z.of_nat (length s)).
  assert (Hn : n = Z.of_nat (length text) + 1)
    by (unfold n, s; rewrite length_app; simpl; lia).
  assert (HE0 : ends w0 !! end_obj self = Some E) by (rewrite He, Hends; exact HE).
  destruct fuel as [|fuel]; [lia|].
  rewrite (phases_start _ _ _ _ _ _ E HE0) by lia.
  set (w' := mkWorld (nodes w0) (<[end_obj self:=E + 1]> (ends w0))).
  set (self1 := set_active_length (set_previous_node self None) (active_length self + 1)).
  assert (HE' : ends w' !! end_obj self1 = Some (E + 1)).
  { apply list_lookup_insert_eq. eapply lookup_lt_Some; eauto. }
  destruct (phases_leaves s n (Z.le_refl n)
              (fun k => terminated_chars text k Hvalid)
              (fun H => False_rect _ (Z.lt_irrefl n H))
              (S fuel) fuel self1 w' 1 0 (E + 1) eq_refl
              (fun pos => terminator_once text pos Hvalid))
    as (self2 & w2 & new & Hrun2 & Hf2 & Hc2); try assumption; try (fold n; lia).
  - apply phase_inv_start; [|exact Han].
    apply (tree_inv_self _ _ _ self); try reflexivity.
    apply (tree_inv_nodes _ _ _ _ w0); [reflexivity|]. exact (Hinv s).
  - exists self2, w2, new. split; [exact Hrun2|].
    change (flags w') with (flags w0) in Hf2. rewrite Hf2, Hf0, <- app_assoc.
    split; [reflexivity|]. fold n in Hc2. lia.
Qed.

(** ** A new leaf *)

Lemma py_index_inv {A} (l : list A) k x :
  py_index l k = Ok x ->
  exists p, py_norm (Z.of_nat (length l)) k = Some p /\ l !! p = Some x /\
            forall v, py_setitem l k v = Ok (<[p:=v]> l).
Proof.
  unfold py_index, py_setitem. destruct (py_norm _ k) as [p|]; [|discriminate].
  destruct (l !! p) as [y|] eqn:E; [|discriminate]. intros H. inversion H; subst. eauto.
Qed.

Lemma put_node_eq (a : addr) nd nd0 w :
  nodes w !! a = Some nd0 -> put_node a nd w = Ok (tt, mkWorld (<[a:=nd]> (nodes w)) (ends w)).
Proof. intros H. unfold put_node. by rewrite H. Qed.

Lemma new_leaf_forward self i j an k nd o w :
  nodes w !! an = Some nd -> py_index (child_nodes nd) k = Ok o ->
  exists p,
    py_norm (Z.of_nat (length (child_nodes nd))) k = Some p /\
    child_nodes nd !! p = Some o /\
    new_leaf self i j an k w
    = Ok (tt, with_child w an nd p
                (mkNode None (i - active_length self) (EndRef (end_obj self))
                        (Some (root self)) [] (Some j) true empty_slots)).
Proof.
  intros Hn Hk. destruct (py_index_inv _ _ _ Hk) as (p & Hpn & Hp & Hset).
  exists p. split; [exact Hpn|]. split; [exact Hp|]. unfold new_leaf.
  destruct (Node_new_step (i - active_length self) (EndRef (end_obj self)) None
              (Some (root self)) true w) as (w1 & R1 & N1 & F1 & L1 & E1).
  pose proof R1 as R1'. apply Node_new_Ok in R1' as [_ Hw1].
  mstep R1.
  assert (Hlt : (an < length (nodes w))%nat) by (eapply lookup_lt_Some; eauto).
  assert (Hn1 : nodes w1 !! an = Some nd) by (rewrite F1; assumption).
  set (a0 := length (nodes w)) in *.
  set (nd1 := set_child_nodes nd (<[p:=Some a0]> (child_nodes nd))).
  assert (R2 : Node_setitem an k (Some a0) w1
               = Ok (tt, mkWorld (<[an:=nd1]> (nodes w1)) (ends w1))).
  { unfold Node_setitem. mstep (get_node_eq _ _ _ Hn1). mlift (Hset (Some a0)).
    unfold put_node. by rewrite Hn1. }
  mstep R2.
  set (w2 := mkWorld (<[an:=nd1]> (nodes w1)) (ends w1)).
  assert (Hn2 : nodes w2 !! an = Some nd1).
  { apply list_lookup_insert_eq. eapply lookup_lt_Some; eauto. }
  assert (R3 : Node_getitem an k w2 = Ok (Some a0, w2)).
  { eapply Node_getitem_eq; [exact Hn2|]. apply (py_index_setitem (child_nodes nd)), Hset. }
  mstep R3. cbn [the_node]. rewrite bind_ret.
  assert (Hn3 : nodes w2 !! a0 = Some (mkNode None (i - active_length self)
                  (EndRef (end_obj self)) (Some (root self)) [] None true empty_slots)).
  { unfold w2. simpl. rewrite list_lookup_insert_ne by lia. exact N1. }
  mstep (get_node_eq _ _ _ Hn3). rewrite (put_node_eq _ _ _ _ Hn3).
  unfold with_child. do 2 f_equal. unfold w2. cbn [nodes ends].
  rewrite Hw1. cbn [nodes ends]. f_equal.
  rewrite insert_app_l by assumption.
  rewrite insert_app_r_alt by (rewrite length_insert; fold a0; lia).
  rewrite length_insert. fold a0. rewrite Nat.sub_diag. reflexivity.
Qed.

(** ** The split of an edge *)

Lemma Node_setitem_forward (a : addr) k v w nd p :
  nodes w !! a = Some nd ->
  py_norm (Z.of_nat (length (child_nodes nd))) k = Some p ->
  Node_setitem a k v w
  = Ok (tt, mkWorld (<[a:=set_child_nodes nd (<[p:=v]> (child_nodes nd))]> (nodes w)) (ends w)).
Proof.
  intros Hn Hp. unfold Node_setitem. mstep (get_node_eq _ _ _ Hn).
  assert (Hset : py_setitem (child_nodes nd) k v = Ok (<[p:=v]> (child_nodes nd)))
    by (unfold py_setitem; by rewrite Hp).
  mlift Hset. by apply put_node_eq with nd.
Qed.

Lemma py_norm_lt len k p : py_norm len k = Some p -> Z.of_nat p < len.
Proof.
  unfold py_norm. destruct ((0 <=? k) && (k <? len)) eqn:E1.
  - intros H. inversion H. apply andb_true_iff in E1 as [?%Z.leb_le ?%Z.ltb_lt]. lia.
  - destruct ((- len <=? k) && (k <? 0)) eqn:E2; [|discriminate].
    intros H. inversion H. apply andb_true_iff in E2 as [?%Z.leb_le ?%Z.ltb_lt]. lia.
Qed.

Lemma py_index_norm {A} (l : list A) k p x :
  py_norm (Z.of_nat (length l)) k = Some p -> l !! p = Some x -> py_index l k = Ok x.
Proof. intros Hp Hx. unfold py_index. by rewrite Hp, Hx. Qed.

Lemma split_edge_forward self text i j (an : addr) k nd p (ae : addr) ed x y q1 q2 w :
  nodes w !! an = Some nd ->
  py_norm (Z.of_nat (length (child_nodes nd))) k = Some p ->
  nodes w !! ae = Some ed -> ae <> an ->
  py_index text (i - 1) = Ok x ->
  py_index text (start ed + active_length self - 1) = Ok y ->
  py_norm 91 (y - 36) = Some q1 -> py_norm 91 (x - 36) = Some q2 ->
  split_edge self text i j an k ae w
  = Ok (tt, with_split w an nd p ae ed (active_length self - 1)
              (mkNode None (start ed) (EndInt (start ed + active_length self - 1))
                      (Some (root self)) [] None false
                      (<[q2:=Some (S (length (nodes w)))]> (<[q1:=Some ae]> empty_slots)))
              (mkNode None (i - 1) (EndRef (end_obj self)) (Some (root self)) [] (Some j)
                      true empty_slots)).
Proof.
  intros Hn Hp He Hne Hx Hy Hq1 Hq2.
  assert (Han : (an < length (nodes w))%nat) by (eapply lookup_lt_Some; eauto).
  assert (Hae : (ae < length (nodes w))%nat) by (eapply lookup_lt_Some; eauto).
  set (L := length (nodes w)) in *.
  set (al := active_length self) in *.
  set (inner0 := mkNode None (start ed) (EndInt (start ed + al - 1)) (Some (root self)) []
                        None false empty_slots).
  set (nd1 := set_child_nodes nd (<[p:=Some L]> (child_nodes nd))).
  set (ed1 := set_start ed (start ed + (al - 1))).
  set (N := <[ae:=ed1]> (<[an:=nd1]> (nodes w))).
  assert (HN : length N = L) by (unfold N; by rewrite !length_insert).
  unfold split_edge. fold al.
  mstep (get_start_eq _ _ _ He). mstep (get_start_eq _ _ _ He).
  (* the new internal node *)
  assert (R1 : Node_new (start ed) (EndInt (start ed + al - 1)) None (Some (root self)) false w
               = Ok (L, mkWorld (nodes w ++ [inner0]) (ends w))) by reflexivity.
  mstep R1.
  set (w1 := mkWorld (nodes w ++ [inner0]) (ends w)).
  assert (Hn1 : nodes w1 !! an = Some nd) by (unfold w1; cbn [nodes]; by rewrite lookup_app_l).
  rewrite (bind_eq _ _ _ _ _ (Node_setitem_forward an k (Some L) w1 nd p Hn1 Hp)).
  unfold w1 at 1 2. cbn [nodes ends]. rewrite insert_app_l by assumption. fold nd1.
  set (w2 := mkWorld (<[an:=nd1]> (nodes w) ++ [inner0]) (ends w)).
  assert (He2 : nodes w2 !! ae = Some ed).
  { unfold w2. cbn [nodes]. rewrite lookup_app_l by (rewrite length_insert; assumption).
    rewrite list_lookup_insert_ne by congruence. exact He. }
  mstep (get_start_eq _ _ _ He2).
  replace (start ed - 1 + al) with (start ed + al - 1) by lia. mlift Hy.
  mstep (get_node_eq _ _ _ He2).
  rewrite (bind_eq _ _ _ _ _ (put_node_eq ae ed1 ed w2 He2)).
  unfold w2 at 1 2. cbn [nodes ends].
  rewrite insert_app_l by (rewrite length_insert; assumption). fold N.
  set (w3 := mkWorld (N ++ [inner0]) (ends w)).
  assert (Hi3 : nodes w3 !! L = Some inner0).
  { unfold w3. cbn [nodes]. rewrite lookup_app_r by lia. rewrite HN, Nat.sub_diag. reflexivity. }
  rewrite (bind_eq _ _ _ _ _ (Node_setitem_forward L (y - 36) (Some ae) w3 inner0 q1 Hi3 Hq1)).
  unfold w3 at 1 2. cbn [nodes ends]. rewrite insert_app_r_alt by lia.
  rewrite HN, Nat.sub_diag. cbn [insert list_insert].
  set (inner1 := set_child_nodes inner0 (<[q1:=Some ae]> (child_nodes inner0))).
  mlift Hx.
  set (w4 := mkWorld (N ++ [inner1]) (ends w)).
  set (leaf0 := mkNode None (i - 1) (EndRef (end_obj self)) (Some (root self)) [] None true
                       empty_slots).
  assert (R5 : Node_new (i - 1) (EndRef (end_obj self)) None (Some (root self)) true w4
               = Ok (S L, mkWorld ((N ++ [inner1]) ++ [leaf0]) (ends w))).
  { unfold Node_new, w4. cbn [nodes ends]. rewrite length_app, HN. simpl length.
    by rewrite Nat.add_1_r. }
  mstep R5.
  set (w5 := mkWorld ((N ++ [inner1]) ++ [leaf0]) (ends w)).
  assert (Hi5 : nodes w5 !! L = Some inner1).
  { unfold w5. cbn [nodes]. rewrite lookup_app_l by (rewrite length_app, HN; simpl; lia).
    rewrite lookup_app_r by lia. rewrite HN, Nat.sub_diag. reflexivity. }
  assert (Hq2' : py_norm (Z.of_nat (length (child_nodes inner1))) (x - 36) = Some q2).
  { cbn [inner1 inner0 child_nodes set_child_nodes]. rewrite length_insert. exact Hq2. }
  rewrite (bind_eq _ _ _ _ _
             (Node_setitem_forward L (x - 36) (Some (S L)) w5 inner1 q2 Hi5 Hq2')).
  unfold w5 at 1 2. cbn [nodes ends].
  rewrite insert_app_l by (rewrite length_app, HN; simpl; lia).
  rewrite insert_app_r_alt by lia. rewrite HN, Nat.sub_diag. cbn [insert list_insert].
  set (inner2 := set_child_nodes inner1 (<[q2:=Some (S L)]> (child_nodes inner1))).
  set (w6 := mkWorld ((N ++ [inner2]) ++ [leaf0]) (ends w)).
  assert (Hi6 : nodes w6 !! L = Some inner2).
  { unfold w6. cbn [nodes]. rewrite lookup_app_l by (rewrite length_app, HN; simpl; lia).
    rewrite lookup_app_r by lia. rewrite HN, Nat.sub_diag. reflexivity. }
  assert (Hg : py_index (child_nodes inner2) (x - 36) = Ok (Some (S L))).
  { apply py_index_norm with q2.
    - cbn [inner2 child_nodes set_child_nodes]. rewrite length_insert. exact Hq2'.
    - cbn [inner2 child_nodes set_child_nodes]. apply list_lookup_insert_eq.
      apply py_norm_lt in Hq2'. lia. }
  mstep (Node_getitem_eq _ _ _ _ _ Hi6 Hg). cbn [the_node]. rewrite bind_ret.
  assert (Hl6 : nodes w6 !! S L = Some leaf0).
  { unfold w6. cbn [nodes]. rewrite lookup_app_r by (rewrite length_app, HN; simpl; lia).
    rewrite length_app, HN. simpl length. replace (S L - (L + 1))%nat with 0%nat by lia.
    reflexivity. }
  mstep (get_node_eq _ _ _ Hl6). rewrite (put_node_eq _ _ _ _ Hl6).
  unfold with_split, w6. cbn [nodes ends]. fold L nd1 ed1 N. do 2 f_equal.
  rewrite insert_app_r_alt by (rewrite length_app, HN; simpl; lia).
  rewrite length_app, HN. simpl length. replace (S L - (L + 1))%nat with 0%nat by lia.
  cbn [insert list_insert]. rewrite <- app_assoc. reflexivity.
Qed.

(** ** What the construction can raise *)

Lemma safe_bind {A B} (m : M A) (k : A -> M B) w :
  safe (m w) -> (forall a w1, m w = Ok (a, w1) -> safe (k a w1)) -> safe (bind m k w).
Proof.
  unfold bind. destruct (m w) as [[a w1]|e| |]; simpl; intros H1 H2; auto.
Qed.

Lemma py_index_safe {A} (l : list A) k : safe (py_index l k).
Proof. unfold py_index. destruct (py_norm _ _); [destruct (l !! _)|]; exact I. Qed.

Lemma py_setitem_safe {A} (l : list A) k v : safe (py_setitem l k v).
Proof. unfold py_setitem. destruct (py_norm _ _); exact I. Qed.

Lemma lift_safe {A} (r : result A) w : safe r -> safe (lift r w).
Proof. destruct r; simpl; auto. Qed.

Lemma node_there (a : addr) w : (a < length (nodes w))%nat -> exists nd, nodes w !! a = Some nd.
Proof. intros H. by apply lookup_lt_is_Some_2. Qed.

Lemma Node_setitem_safe (a : addr) k v w :
  (a < length (nodes w))%nat -> safe (Node_setitem a k v w).
Proof.
  intros Ha. destruct (node_there a w Ha) as [nd Hn].
  unfold Node_setitem. mstep (get_node_eq _ _ _ Hn).
  apply safe_bind; [apply lift_safe, py_setitem_safe|].
  intros l w1 A. apply lift_Ok in A as [_ ->]. by rewrite (put_node_eq _ _ _ _ Hn).
Qed.

Lemma Node_setitem_getitem (a : addr) k v w u w1 :
  Node_setitem a k v w = Ok (u, w1) ->
  Node_getitem a k w1 = Ok (v, w1) /\ length (nodes w1) = length (nodes w).
Proof.
  intros H. apply Node_setitem_Ok in H as (nd & l & Hn & Hset & ->).
  assert (Ha : (a < length (nodes w))%nat) by (eapply lookup_lt_Some; eauto).
  split; [|cbn [nodes]; by rewrite length_insert].
  eapply Node_getitem_eq.
  - cbn [nodes]. by apply list_lookup_insert_eq.
  - cbn [child_nodes set_child_nodes]. by apply (py_index_setitem (child_nodes nd)).
Qed.

Lemma get_length_there (a : addr) w nd :
  nodes w !! a = Some nd ->
  (forall e, end_ nd = EndRef e -> (e < length (ends w))%nat) ->
  exists z, get_length a w = Ok (z, w).
Proof.
  intros Hn He. destruct (end_ nd) as [e|z] eqn:E.
  - destruct (lookup_lt_is_Some_2 (ends w) e (He e eq_refl)) as [v Hv].
    eexists. eapply get_length_leaf; eauto.
  - eexists. eapply get_length_inner; eauto.
Qed.

Lemma skip_count_safe fuel : forall self text cp (a_node : addr) a_length w,
  owned self w -> ends_there (root self) w ->
  (root self <= a_node < length (nodes w))%nat ->
  safe (skip_count fuel self text cp a_node a_length w).
Proof.
  induction fuel as [|fuel IH]; intros self text cp a_node a_length w Hown Hends Ha;
    simpl; [exact I|].
  destruct (node_there a_node w (proj2 Ha)) as [nd Hn].
  assert (Hleaf : (if a_length =? 0 then ret true else is_leaf a_node) w
                  = Ok ((a_length =? 0) || leaf_node nd, w)).
  { destruct (a_length =? 0); [reflexivity|]. by apply is_leaf_eq. }
  mstep Hleaf. destruct ((a_length =? 0) || leaf_node nd); [exact I|].
  apply safe_bind; [apply lift_safe, py_index_safe|].
  intros c w1 A. apply lift_Ok in A as [_ ->].
  unfold Node_getitem. rewrite bind_assoc. mstep (get_node_eq _ _ _ Hn).
  apply safe_bind; [apply lift_safe, py_index_safe|].
  intros edge w1 A. apply lift_Ok in A as [A ->].
  destruct edge as [edge|]; [|exact I].
  assert (He : (root self <= edge < length (nodes w))%nat).
  { eapply owned_child; [exact Hown | | exact Hn | exact A]. lia. }
  destruct (node_there edge w (proj2 He)) as [ed Hed].
  destruct (get_length_there edge w ed Hed) as [z Hz].
  { intros e. apply (Hends edge ed e); [lia | exact Hed]. }
  mstep Hz. destruct (z >? a_length); [exact I|]. mstep Hz.
  apply IH; [by apply owned_set_active | exact Hends | exact He].
Qed.

(** The end of [new_leaf] and of [split_edge]. *)
Lemma attach_leaf_safe (par : addr) k st e r jv w :
  (par < length (nodes w))%nat -> safe (attach_leaf par k st e r jv w).
Proof.
  intros Hp. unfold attach_leaf.
  destruct (Node_new_step st (EndRef e) None (Some r) true w) as (w1 & R1 & N1 & F1 & L1 & E1).
  mstep R1.
  apply safe_bind; [apply Node_setitem_safe; lia|].
  intros [] w2 A2. apply Node_setitem_getitem in A2 as [G2 L2]. mstep G2.
  cbn [the_node]. rewrite bind_ret.
  destruct (node_there (length (nodes w)) w2) as [nd Hn]; [lia|].
  mstep (get_node_eq _ _ _ Hn). by rewrite (put_node_eq _ _ _ _ Hn).
Qed.

Lemma new_leaf_safe self i j (an : addr) k w :
  (an < length (nodes w))%nat -> safe (new_leaf self i j an k w).
Proof. intros H. by apply (attach_leaf_safe an k _ (end_obj self) (root self) j). Qed.

Lemma split_edge_safe self text i j (an : addr) k (ae : addr) w :
  (an < length (nodes w))%nat -> (ae < length (nodes w))%nat ->
  safe (split_edge self text i j an k ae w).
Proof.
  intros Han Hae. destruct (node_there ae w Hae) as [ed He].
  unfold split_edge. mstep (get_start_eq _ _ _ He). mstep (get_start_eq _ _ _ He).
  destruct (Node_new_step (start ed) (EndInt (start ed + active_length self - 1)) None
              (Some (root self)) false w) as (w1 & R1 & N1 & F1 & L1 & E1).
  mstep R1.
  apply safe_bind; [apply Node_setitem_safe; lia|].
  intros [] w2 A2. apply Node_setitem_getitem in A2 as [_ L2].
  destruct (node_there ae w2) as [ed2 He2]; [lia|].
  mstep (get_start_eq _ _ _ He2).
  apply safe_bind; [apply lift_safe, py_index_safe|].
  intros c w' A. apply lift_Ok in A as [_ ->].
  mstep (get_node_eq _ _ _ He2).
  rewrite (bind_eq _ _ _ _ _ (put_node_eq ae _ _ _ He2)).
  match goal with |- safe (bind _ _ ?W) => set (w3 := W) end.
  assert (L3 : length (nodes w3) = length (nodes w2)) by (unfold w3; cbn; by rewrite length_insert).
  apply safe_bind; [apply Node_setitem_safe; lia|].
  intros [] w4 A4. apply Node_setitem_getitem in A4 as [_ L4].
  apply safe_bind; [apply lift_safe, py_index_safe|].
  intros c' w' A. apply lift_Ok in A as [_ ->].
  apply (attach_leaf_safe (length (nodes w)) (c' - 36) (i - 1) (end_obj self) (root self) j).
  lia.
Qed.

Lemma extension_safe fuel self text i j w :
  owned self w -> ends_there (root self) w -> safe (extension fuel self text i j w).
Proof.
  intros Hown Hends. unfold extension.
  set (self0 := if same_node (active_node self) (root self)
                then set_active_length self (i - j) else self).
  assert (Hown0 : owned self0 w)
    by (subst self0; destruct (same_node _ _); auto using owned_set_active_length).
  assert (Hr0 : root self0 = root self) by (subst self0; destruct (same_node _ _); reflexivity).
  clearbody self0.
  destruct (owned_active _ _ Hown0) as (a0 & Ha0 & Ha0r).
  rewrite Ha0. cbn [the_node]. rewrite bind_ret.
  apply safe_bind; [apply skip_count_safe; [exact Hown0 | by rewrite Hr0 | exact Ha0r]|].
  intros [node self1] w1 A.
  apply skip_count_Ok in A as (-> & Hr1 & _ & _ & Hown1); [|exact Hown0|exact Ha0r].
  cbn [snd].
  apply safe_bind; [apply lift_safe, py_index_safe|].
  intros c w1 A. apply lift_Ok in A as [_ ->].
  destruct (owned_active _ _ Hown1) as (an & Han & Hanr).
  rewrite Han. cbn [the_node]. rewrite bind_ret.
  destruct (node_there an w (proj2 Hanr)) as [nd Hn].
  unfold Node_getitem. rewrite bind_assoc. mstep (get_node_eq _ _ _ Hn).
  apply safe_bind; [apply lift_safe, py_index_safe|].
  intros oae w1 A. apply lift_Ok in A as [A ->].
  apply safe_bind.
  - destruct oae as [ae|].
    + assert (Hae : (root self1 <= ae < length (nodes w))%nat).
      { eapply owned_child; [exact Hown1 | | exact Hn | exact A]. lia. }
      destruct (node_there ae w (proj2 Hae)) as [ed Hed].
      apply safe_bind; [apply lift_safe, py_index_safe|].
      intros x w1 B. apply lift_Ok in B as [_ ->].
      mstep (get_start_eq _ _ _ Hed).
      apply safe_bind; [apply lift_safe, py_index_safe|].
      intros y w1 B. apply lift_Ok in B as [_ ->].
      destruct (negb (x =? y)); [|exact I].
      apply safe_bind; [apply split_edge_safe; lia|]. intros; exact I.
    + apply safe_bind; [apply new_leaf_safe; lia|]. intros; exact I.
  - intros cont w2 B. destruct cont; [|exact I].
    assert (Hlen : (length (nodes w) <= length (nodes w2))%nat).
    { destruct oae as [ae|].
      - mread B. mread B. mread B. destruct (negb _); [|minv B; lia].
        mbind B as C. apply split_edge_owned in C as (_ & _ & ? & _); [minv B; lia|assumption|lia|].
        eapply owned_child; [exact Hown1 | | exact Hn | eassumption]. lia.
      - mbind B as C. apply new_leaf_owned in C as (_ & _ & ? & _); [minv B; lia|assumption|lia]. }
    cbn [the_node]. rewrite bind_ret.
    destruct (node_there an w2) as [nd2 Hn2]; [lia|].
    mstep (get_node_eq _ _ _ Hn2). exact I.
Qed.

(** *** The ends of the nodes *)

Lemma endvals_insert l a nd nd' :
  l !! a = Some nd -> end_ nd' = end_ nd ->
  map end_ (<[a:=nd']> l) = map end_ l.
Proof.
  intros Hl Hf. change (end_ <$> <[a:=nd']> l = end_ <$> l).
  rewrite list_fmap_insert, Hf. apply list_insert_id. by rewrite list_lookup_fmap, Hl.
Qed.

Lemma put_node_endvals a nd nd' w u w1 :
  nodes w !! a = Some nd -> end_ nd' = end_ nd ->
  put_node a nd' w = Ok (u, w1) -> endvals w1 = endvals w.
Proof.
  intros Hn Hf H. apply put_node_Ok in H as [_ ->]. unfold endvals. simpl.
  eapply endvals_insert; eauto.
Qed.

Lemma Node_setitem_endvals a k v w u w1 :
  Node_setitem a k v w = Ok (u, w1) -> endvals w1 = endvals w.
Proof.
  intros H. apply Node_setitem_Ok in H as (nd & l & Hn & _ & ->). unfold endvals. simpl.
  eapply endvals_insert; eauto.
Qed.

Lemma Node_new_endvals st en inc sl lf w a w1 :
  Node_new st en inc sl lf w = Ok (a, w1) -> endvals w1 = endvals w ++ [en].
Proof.
  intros H. apply Node_new_Ok in H as [_ ->]. unfold endvals. simpl. by rewrite map_app.
Qed.

Lemma new_leaf_endvals self i j an k w u w1 :
  new_leaf self i j an k w = Ok (u, w1) -> endvals w1 = endvals w ++ [EndRef (end_obj self)].
Proof.
  intros H. unfold new_leaf in H.
  mbind H as A1. apply Node_new_endvals in A1.
  mbind H as A2. apply Node_setitem_endvals in A2.
  mread H. mread H. mread H.
  eapply put_node_endvals in H; [|eassumption|reflexivity]. congruence.
Qed.

Lemma split_edge_endvals self text i j an k ae w u w1 :
  split_edge self text i j an k ae w = Ok (u, w1) ->
  exists z, endvals w1 = endvals w ++ [EndInt z; EndRef (end_obj self)].
Proof.
  intros H. unfold split_edge in H.
  mread H. mread H.
  mbind H as A1. apply Node_new_endvals in A1.
  mbind H as A2. apply Node_setitem_endvals in A2.
  mread H. mread H. mread H.
  mbind H as A3. eapply put_node_endvals in A3; [|eassumption|reflexivity].
  mbind H as A4. apply Node_setitem_endvals in A4.
  mread H.
  mbind H as A5. apply Node_new_endvals in A5.
  mbind H as A6. apply Node_setitem_endvals in A6.
  mread H. mread H. mread H.
  eapply put_node_endvals in H; [|eassumption|reflexivity].
  eexists. rewrite H, A6, A5, A4, A3, A2, A1, <- app_assoc. reflexivity.
Qed.

Lemma ends_there_grow r e w w1 new :
  ends_there r w -> endvals w1 = endvals w ++ new -> Forall (end_of e) new ->
  (e < length (ends w))%nat -> length (ends w1) = length (ends w) ->
  ends_there r w1.
Proof.
  intros Hw Hv Hnew He Hl a nd e' Ha Hn Hend. rewrite Hl.
  assert (Hva : endvals w1 !! a = Some (EndRef e')).
  { unfold endvals. change (map end_ (nodes w1)) with (end_ <$> nodes w1).
    by rewrite list_lookup_fmap, Hn, <- Hend. }
  rewrite Hv in Hva. apply lookup_app_Some in Hva as [Hva|[_ Hva]].
  - unfold endvals in Hva. change (map end_ (nodes w)) with (end_ <$> nodes w) in Hva.
    rewrite list_lookup_fmap in Hva.
    destruct (nodes w !! a) as [nd0|] eqn:E; [|discriminate]. simpl in Hva.
    apply (Hw a nd0 e' Ha E). congruence.
  - rewrite Forall_forall in Hnew.
    destruct (Hnew (EndRef e')) as [Heq|[z Hz]]; [eapply list_elem_of_lookup_2; eauto| |discriminate].
    congruence.
Qed.

Lemma extension_ends_there fuel self text i j w b j1 self1 w1 :
  owned self w -> ends_there (root self) w -> (end_obj self < length (ends w))%nat ->
  extension fuel self text i j w = Ok ((b, j1, self1), w1) ->
  ends_there (root self1) w1 /\ (end_obj self1 < length (ends w1))%nat.
Proof.
  intros Hown Hends He H.
  pose proof (extension_owned _ _ _ _ _ _ _ _ _ _ Hown H) as (_ & (HE & _) & Hr & He1 & _).
  rewrite Hr, He1, HE. split; [|exact He].
  unfold extension in H.
  set (self0 := if same_node (active_node self) (root self)
                then set_active_length self (i - j) else self) in H.
  assert (Hown0 : owned self0 w)
    by (subst self0; destruct (same_node _ _); auto using owned_set_active_length).
  assert (He0 : end_obj self0 = end_obj self) by (subst self0; destruct (same_node _ _); reflexivity).
  clearbody self0.
  mread H.
  mbind H as A [nd0 self2].
  apply skip_count_Ok in A as (-> & _ & He2 & _ & _); [|assumption|].
  2:{ destruct (owned_active _ _ Hown0) as (x & Hx & Hxr). congruence. }
  cbn [snd] in H.
  mread H. mread H. mread H.
  match goal with Hx : py_index (child_nodes _) _ = Ok ?x |- _ => rename x into oae end.
  mbind H as B cont.
  match type of H with _ ?w' = _ => rename w' into w2 end.
  assert (Hw1 : w1 = w2) by (destruct cont; [mread H; mread H; minv H | minv H]; reflexivity).
  subst w2.
  assert (Hcont : exists new, endvals w1 = endvals w ++ new /\ Forall (end_of (end_obj self)) new).
  { destruct oae as [ae|].
    - mread B. mread B. mread B. destruct (negb _).
      + mbind B as C. apply split_edge_endvals in C as [z C]. minv B.
        eexists. split; [exact C|]. rewrite He2, He0.
        apply Forall_cons; split; [right; eauto|].
        apply Forall_cons; split; [left; reflexivity | apply Forall_nil; exact I].
      + minv B. exists []. rewrite app_nil_r. split; [reflexivity | apply Forall_nil; exact I].
    - mbind B as C. apply new_leaf_endvals in C. minv B.
      eexists. split; [exact C|]. rewrite He2, He0.
      apply Forall_cons; split; [left; reflexivity | apply Forall_nil; exact I]. }
  destruct Hcont as (new & Hv & Hnew).
  apply (ends_there_grow _ (end_obj self) w w1 new Hends Hv Hnew He). by rewrite HE.
Qed.

Lemma extensions_ends_there fuel fuel_skip : forall self text i j w j1 self1 w1,
  owned self w -> ends_there (root self) w -> (end_obj self < length (ends w))%nat ->
  extensions fuel fuel_skip self text i j w = Ok ((j1, self1), w1) ->
  ends_there (root self1) w1 /\ (end_obj self1 < length (ends w1))%nat.
Proof.
  induction fuel as [|fuel IH]; intros self text i j w j1 self1 w1 Hown Hends He H;
    simpl in H; [discriminate|].
  destruct (j <? i).
  - mbind H as A [[b j2] self2].
    pose proof (extension_owned _ _ _ _ _ _ _ _ _ _ Hown A) as (O & _).
    apply extension_ends_there in A as (E2 & L2); [|assumption..].
    destruct b.
    + eapply IH; eauto.
    + minv H. auto.
  - minv H. auto.
Qed.

Lemma extensions_safe fuel fuel_skip : forall self text i j w,
  owned self w -> ends_there (root self) w -> (end_obj self < length (ends w))%nat ->
  safe (extensions fuel fuel_skip self text i j w).
Proof.
  induction fuel as [|fuel IH]; intros self text i j w Hown Hends He; simpl; [exact I|].
  destruct (j <? i); [|exact I].
  apply safe_bind; [by apply extension_safe|].
  intros [[b j2] self2] w2 A.
  pose proof (extension_owned _ _ _ _ _ _ _ _ _ _ Hown A) as (O & _).
  apply extension_ends_there in A as (E2 & L2); [|assumption..].
  destruct b; [|exact I]. by apply IH.
Qed.

Lemma phases_safe fuel fuel_in : forall self text n i j w,
  owned self w -> ends_there (root self) w -> (end_obj self < length (ends w))%nat ->
  safe (phases fuel fuel_in self text n i j w).
Proof.
  induction fuel as [|fuel IH]; intros self text n i j w Hown Hends He; simpl; [exact I|].
  destruct (i <=? n); [|exact I].
  destruct (lookup_lt_is_Some_2 (ends w) _ He) as [E HE].
  mstep (extend_run _ _ _ HE).
  set (w1 := mkWorld (nodes w) (<[end_obj self:=E + 1]> (ends w))).
  assert (Hown1 : owned (set_previous_node self None) w1)
    by (apply owned_set_previous_node; by apply (owned_nodes self w)).
  assert (Hl1 : length (ends w1) = length (ends w)) by (unfold w1; cbn; by rewrite length_insert).
  assert (Hends1 : ends_there (root self) w1).
  { intros a nd e Ha Hn Hend. rewrite Hl1. eapply Hends; eauto. }
  assert (He1 : (end_obj (set_previous_node self None) < length (ends w1))%nat)
    by (rewrite Hl1; exact He).
  apply safe_bind; [by apply extensions_safe|].
  intros [j2 self2] w2 A. cbn [fst snd].
  pose proof (extensions_owned _ _ _ _ _ _ _ _ _ _ Hown1 A) as (O & _).
  apply extensions_ends_there in A as (E2 & L2); [|assumption..].
  apply IH; [by apply owned_set_active_length | exact E2 | exact L2].
Qed.

Lemma Ukkonen_init_safe fuel text (e : addr) w :
  (e < length (ends w))%nat -> safe (Ukkonen_init fuel text e w).
Proof.
  intros He. unfold Ukkonen_init.
  apply safe_bind.
  - unfold Ukkonen_attrs.
    destruct (Node_new_step 0 (EndRef e) None None false w) as (w1 & R1 & N1 & F1 & L1 & E1).
    mstep R1. mstep (get_node_eq _ _ _ N1). by rewrite (bind_eq _ _ _ _ _ (put_node_eq _ _ _ _ N1)).
  - intros self w1 A.
    pose proof (Ukkonen_attrs_owned _ _ _ _ A) as (Hown & Hr & Heo & HE & _).
    unfold run_algorithm. apply phases_safe; [exact Hown | | rewrite Heo, HE; exact He].
    unfold Ukkonen_attrs in A.
    mbind A as A1 r. apply Node_new_Ok in A1 as [-> ->].
    mread A. mbind A as A2. apply put_node_Ok in A2 as [_ ->]. minv A.
    intros a nd e' Ha Hn Hend. cbn [root nodes ends] in *.
    assert (a = length (nodes w)).
    { apply lookup_lt_Some in Hn. rewrite length_insert, length_app in Hn. simpl in Hn. lia. }
    subst a. rewrite list_lookup_insert_eq in Hn by (rewrite length_app; simpl; lia).
    match goal with Hx : _ !! _ = Some ?n |- _ =>
      rewrite lookup_app_r in Hx by lia; rewrite Nat.sub_diag in Hx; inversion Hx; subst n end.
    inversion Hn; subst nd. simpl in Hend. inversion Hend. subst e'. exact He.
Qed.

(** ** The active point and the shared end *)

Lemma skip_count_attrs fuel : forall self text cp a_node a_length w node self1 w1,
  skip_count fuel self text cp a_node a_length w = Ok ((node, self1), w1) ->
  root self1 = root self /\ end_obj self1 = end_obj self /\
  previous_node self1 = previous_node self.
Proof.
  induction fuel as [|fuel IH]; intros self text cp a_node a_length w node self1 w1 H;
    simpl in H; [discriminate|].
  minv H; auto.
  match goal with
  | H : skip_count _ _ _ _ _ _ _ = _ |- _ => apply IH in H as (? & ? & ?)
  end. auto.
Qed.

(** ** Claims *)

(** C7: the traversal leaves every node and every [End] object as it found
    them, so a call of [get_suffix_tree] that returns a list returns the
    same list when it is called again, any number of times. *)
Theorem get_suffix_tree_restartable fuel self w r w1 :
  get_suffix_tree fuel self w = Ok (r, w1) ->
  w1 = w /\
  forall k, repeat_calls k (get_suffix_tree fuel self) w1 = Ok (replicate k r, w1).
Proof.
  intros H.
  assert (w1 = w) as -> by (eapply read_only_get_suffix_tree_aux; exact H).
  split; [reflexivity|]. intros k. by apply repeat_calls_read_only.
Qed.

(** C5: the empty string is accepted; the store then holds one leaf and
    the traversal returns [[1]]. *)
Theorem empty_input fuel :
  exists u w,
    Ukkonen_default (3 + fuel) [] world0 = Ok (u, w) /\
    count_leaves w = 1%nat /\
    get_suffix_tree (3 + fuel) u w = Ok ([1], w).
Proof.
  eexists _, _. split; [vm_compute; reflexivity|].
  split; vm_compute; reflexivity.
Qed.

(** C3, refuted as stated: a text with a space, which is below the
    alphabet, and a text with the terminator in it are not rejected;
    construction and traversal return normally (for the second with two
    entries for four suffixes). *)
Lemma unsupported_symbol_accepted :
  valid_input (str_of_string "a b") = false /\
  value (suffix_order 100 (str_of_string "a b") world0) = Ok [4; 1; 3; 2] /\
  valid_input (str_of_string "a$a") = false /\
  value (suffix_order 100 (str_of_string "a$a") world0) = Ok [2; 1].
Proof. repeat split; vm_compute; reflexivity. Qed.

Lemma get_suffix_tree_restartable_witness :
  get_suffix_tree 10 (fst tree_a) (snd tree_a) = Ok ([2; 1], snd tree_a) /\
  (snd tree_a = snd tree_a /\
   forall k, repeat_calls k (get_suffix_tree 10 (fst tree_a)) (snd tree_a)
             = Ok (replicate k [2; 1], snd tree_a)).
Proof.
  assert (H : get_suffix_tree 10 (fst tree_a) (snd tree_a) = Ok ([2; 1], snd tree_a))
    by (vm_compute; reflexivity).
  split; [exact H | exact (get_suffix_tree_restartable _ _ _ _ _ H)].
Defined.

(** C6: when the slot of the active node selected by the extension is
    occupied and the character of the phase, [text[i-1]], equals the
    character at the active length along that edge, the extension leaves
    the loop: the inner loop returns at once with [j] unchanged and the
    store untouched, and the next phase starts with the same [j]. *)
Theorem showstopper_freezes_j fuel_out fuel self text n i j w0 w a0 node self1 c an edge x st :
  let self' := set_previous_node self None in
  let self0 :=
    if same_node (active_node self') (root self')
    then set_active_length self' (i - j) else self' in
  i <= n ->
  j < i ->
  extend (end_obj self) w0 = Ok (tt, w) ->
  active_node self0 = Some a0 ->
  skip_count (S fuel) self0 text i a0 (active_length self0) w = Ok ((node, self1), w) ->
  py_index text (i - active_length self1) = Ok c ->
  active_node self1 = Some an ->
  Node_getitem an (c - 36) w = Ok (Some edge, w) ->
  py_index text (i - 1) = Ok x ->
  get_start edge w = Ok (st, w) ->
  py_index text (st + active_length self1 - 1) = Ok x ->
  extension (S fuel) self' text i j w = Ok ((false, j, self1), w) /\
  extensions (S fuel) (S fuel) self' text i j w = Ok ((j, self1), w) /\
  phases (S fuel_out) (S fuel) self text n i j w0
  = phases fuel_out (S fuel) (set_active_length self1 (active_length self1 + 1))
           text n (i + 1) j w.
Proof.
  intros self' self0 Hin Hji Hext Ha0 Hskip Hc Han Hedge Hx Hst Hy.
  assert (E : extension (S fuel) self' text i j w = Ok ((false, j, self1), w)).
  { unfold extension. fold self0. rewrite Ha0.
    unfold bind at 1. cbn [the_node ret].
    unfold bind at 1. rewrite Hskip. cbn [snd].
    unfold bind at 1. rewrite Hc. cbn [lift].
    unfold bind at 1. rewrite Han. cbn [the_node ret].
    unfold bind at 1. rewrite Hedge.
    unfold bind at 1. unfold bind at 1. rewrite Hx. cbn [lift].
    unfold bind at 1. rewrite Hst.
    unfold bind at 1. rewrite Hy. cbn [lift].
    rewrite Z.eqb_refl. cbn [negb ret]. reflexivity. }
  assert (E2 : extensions (S fuel) (S fuel) self' text i j w = Ok ((j, self1), w)).
  { cbn [extensions]. destruct (Z.ltb_spec j i); [|lia].
    rewrite (bind_eq _ _ _ _ _ E). reflexivity. }
  split; [exact E|]. split; [exact E2|].
  cbn [phases]. destruct (Z.leb_spec i n); [|lia].
  rewrite (bind_eq _ _ _ _ _ Hext). fold self'.
  rewrite (bind_eq _ _ _ _ _ E2). reflexivity.
Qed.

Lemma showstopper_freezes_j_witness :
  let self := fst aa_before_phase2 in
  let text := str_of_string "aa$" in
  let self1 := mkUkkonen 0%nat (Some 0%nat) None 0%nat 1 in
  extension 10 (set_previous_node self None) text 2 1 aa_phase2
    = Ok ((false, 1, self1), aa_phase2) /\
  extensions 10 10 (set_previous_node self None) text 2 1 aa_phase2
    = Ok ((1, self1), aa_phase2) /\
  phases 10 10 self text 3 2 1 (snd aa_before_phase2)
    = phases 9 10 (set_active_length self1 (active_length self1 + 1)) text 3 (2 + 1) 1 aa_phase2.
Proof.
  intros self text self1.
  apply (showstopper_freezes_j 9 9 self text 3 2 1 (snd aa_before_phase2) aa_phase2
           0%nat 0%nat self1 97 0%nat 1%nat 97 0);
    first [lia | vm_compute; reflexivity].
Defined.

(** C9: in every state of the construction and in the finished tree, the
    suffix link of every node of the tree, the root included, is the
    root; so an extension that runs to its end leaves the active node on
    the root. *)
Theorem suffix_links_point_to_root e w0 text self w :
  constructing e w0 (text ++ [dollar]) self w \/
  (exists fuel, Ukkonen_init fuel text e w0 = Ok (self, w)) ->
  links_to_root self w /\
  forall fuel i j b j1 self1 w1,
    extension fuel self (text ++ [dollar]) i j w = Ok ((b, j1, self1), w1) ->
    b = true -> active_node self1 = Some (root self1).
Proof.
  intros H.
  assert (Hc : constructing e w0 (text ++ [dollar]) self w).
  { destruct H as [H|[fuel H]]; [assumption|]. eapply Ukkonen_init_constructing; eauto. }
  apply constructing_owned in Hc as [Hown _].
  split; [apply owned_links; assumption|].
  intros fuel i j b j1 self1 w1 Hx Hb.
  apply extension_owned in Hx as (_ & _ & Hr & _ & _ & Ht & _); [|assumption].
  rewrite Hr. apply Ht. assumption.
Qed.

Lemma suffix_links_point_to_root_witness :
  links_to_root (fst tree_a) (snd tree_a) /\
  forall fuel i j b j1 self1 w1,
    extension fuel (fst tree_a) (str_of_string "a" ++ [dollar]) i j (snd tree_a)
      = Ok ((b, j1, self1), w1) ->
    b = true -> active_node self1 = Some (root self1).
Proof.
  apply (suffix_links_point_to_root default_End world0 (str_of_string "a")).
  right. exists 10%nat. vm_compute. reflexivity.
Defined.

(** C10: [Ukkonen(text)] uses the one [End] object that was made when the
    class was defined.  When a first such construction returns, that
    object's [end_pointer] stands at its old value plus [len(text) + 2]
    (so it is no longer [-1]), and every leaf of the first tree reads its
    end from it.  All through a second such construction the nodes of the
    first tree are as they were, and each [extend()] of the second
    construction adds one to [get_end()] of every leaf of the first
    tree. *)
Theorem default_End_is_shared fuel1 t1 w0 u1 w1 v :
  Ukkonen_default fuel1 t1 w0 = Ok (u1, w1) ->
  ends w0 !! default_End = Some v ->
  -1 <= v ->
  end_obj u1 = default_End /\
  ends w1 !! default_End = Some (v + Z.of_nat (length t1) + 2) /\
  ends w1 !! default_End <> Some (-1) /\
  (forall a nd, (root u1 <= a)%nat -> nodes w1 !! a = Some nd -> leaf_node nd = true ->
                end_ nd = EndRef default_End) /\
  forall t2 self2 w2,
    constructing default_End w1 (t2 ++ [dollar]) self2 w2 \/
    (exists fuel2, Ukkonen_default fuel2 t2 w1 = Ok (self2, w2)) ->
    end_obj self2 = default_End /\
    forall a nd, (root u1 <= a)%nat -> nodes w1 !! a = Some nd -> leaf_node nd = true ->
      nodes w2 !! a = Some nd /\
      forall u w3, extend (end_obj self2) w2 = Ok (u, w3) ->
        exists x, get_end a w2 = Ok (x, w2) /\ get_end a w3 = Ok (x + 1, w3).
Proof.
  intros H Hv Hge. unfold Ukkonen_default in *.
  pose proof (Ukkonen_init_ends _ _ _ _ _ _ _ H Hv) as [He Hv1].
  pose proof (Ukkonen_init_constructing _ _ _ _ _ _ H) as Hc.
  apply constructing_owned in Hc as [Hown _].
  assert (Hleaf : forall a nd, (root u1 <= a)%nat -> nodes w1 !! a = Some nd ->
                    leaf_node nd = true -> end_ nd = EndRef default_End).
  { intros a nd Ha Hl Hlf. destruct (owned_node _ _ _ _ Hown Ha Hl) as (_ & Hx & _).
    rewrite He in Hx. auto. }
  splits; try assumption.
  - rewrite Hv1. intros E. inversion E. lia.
  - intros t2 self2 w2 H2.
    assert (Hc2 : constructing default_End w1 (t2 ++ [dollar]) self2 w2).
    { destruct H2 as [H2|[fuel2 H2]]; [assumption|].
      eapply Ukkonen_init_constructing; eauto. }
    pose proof (constructing_owned _ _ _ _ _ Hc2) as [_ He2].
    pose proof (constructing_frame _ _ _ _ _ Hc2) as (_ & Hn2 & Hl2).
    split; [assumption|]. intros a nd Ha Hl Hlf.
    assert (Hl' : nodes w2 !! a = Some nd)
      by (rewrite Hn2; [assumption | eapply lookup_lt_Some; eauto]).
    split; [assumption|]. intros u w3 Hx. rewrite He2 in Hx.
    apply extend_Ok in Hx as (x & Hx & ->). exists x. split.
    + eapply get_end_leaf; eauto.
    + eapply get_end_leaf; cbn [nodes ends]; eauto.
      apply list_lookup_insert_eq. eapply lookup_lt_Some; eauto.
Qed.

Lemma default_End_is_shared_witness :
  end_obj (fst tree_a) = default_End /\
  ends (snd tree_a) !! default_End = Some (-1 + Z.of_nat (length (str_of_string "a")) + 2) /\
  ends (snd tree_a) !! default_End <> Some (-1) /\
  (forall a nd, (root (fst tree_a) <= a)%nat -> nodes (snd tree_a) !! a = Some nd ->
                leaf_node nd = true -> end_ nd = EndRef default_End) /\
  forall t2 self2 w2,
    constructing default_End (snd tree_a) (t2 ++ [dollar]) self2 w2 \/
    (exists fuel2, Ukkonen_default fuel2 t2 (snd tree_a) = Ok (self2, w2)) ->
    end_obj self2 = default_End /\
    forall a nd, (root (fst tree_a) <= a)%nat -> nodes (snd tree_a) !! a = Some nd ->
                 leaf_node nd = true ->
      nodes w2 !! a = Some nd /\
      forall u w3, extend (end_obj self2) w2 = Ok (u, w3) ->
        exists x, get_end a w2 = Ok (x, w2) /\ get_end a w3 = Ok (x + 1, w3).
Proof.
  apply (default_End_is_shared 10 (str_of_string "a") world0);
    [vm_compute; reflexivity | reflexivity | lia].
Defined.

(** C1: for a text over the alphabet, in a store where the module is
    loaded, [Ukkonen(text).get_suffix_tree()] returns the starts, counted
    from 1, of the suffixes of [text + '$'] in lexicographic order, the
    terminator being the least symbol: the list is the one that sorting
    the suffixes gives, and the suffixes at its entries go up. *)
Theorem suffix_order_sorted text fuel w :
  valid_input text = true -> loaded w -> (length text + 3 <= fuel)%nat ->
  exists out,
    value (suffix_order fuel text w) = Ok out /\
    out = sorted_suffix_offsets (text ++ [dollar]) /\
    StronglySorted (fun a b => lex_order (suffix (text ++ [dollar]) (a - 1))
                                         (suffix (text ++ [dollar]) (b - 1))) out.
Proof.
  intros Hv Hw Hf. destruct (suffix_order_spec text Hv fuel w Hw Hf) as [w1 Hrun].
  exists (sorted_suffix_offsets (text ++ [dollar])). rewrite Hrun.
  split; [reflexivity|]. split; [reflexivity|]. apply sorted_suffix_offsets_sorted.
Qed.

Lemma suffix_order_sorted_witness :
  exists out,
    value (suffix_order 9 (str_of_string "banana") world0) = Ok out /\
    out = sorted_suffix_offsets (str_of_string "banana" ++ [dollar]) /\
    StronglySorted (fun a b => lex_order (suffix (str_of_string "banana" ++ [dollar]) (a - 1))
                                         (suffix (str_of_string "banana" ++ [dollar]) (b - 1)))
                   out.
Proof.
  apply suffix_order_sorted; [reflexivity | exists (-1); split; [reflexivity|lia] | simpl; lia].
Defined.

(** C2: for a text of length [m] over the alphabet, the returned list has
    [m + 1] entries and is a permutation of [1, ..., m + 1]: no entry
    occurs twice and every number from 1 to [m + 1] occurs. *)
Theorem suffix_order_permutation text fuel w :
  valid_input text = true -> loaded w -> (length text + 3 <= fuel)%nat ->
  exists out,
    value (suffix_order fuel text w) = Ok out /\
    length out = S (length text) /\
    out ≡ₚ one_to (S (length text)) /\
    NoDup out /\
    forall k, k ∈ out <-> 1 <= k <= Z.of_nat (length text) + 1.
Proof.
  intros Hv Hw Hf. destruct (suffix_order_spec text Hv fuel w Hw Hf) as [w1 Hrun].
  exists (sorted_suffix_offsets (text ++ [dollar])). rewrite Hrun.
  pose proof (sorted_suffix_offsets_perm (text ++ [dollar])) as Hp.
  rewrite length_app, Nat.add_1_r in Hp.
  split; [reflexivity|]. split; [|split; [exact Hp|split]].
  - rewrite Hp. unfold one_to. by rewrite length_map, length_seq.
  - rewrite Hp. apply NoDup_one_to.
  - intros k. rewrite Hp, elem_of_one_to. lia.
Qed.

Lemma suffix_order_permutation_witness :
  exists out,
    value (suffix_order 9 (str_of_string "banana") world0) = Ok out /\
    length out = S (length (str_of_string "banana")) /\
    out ≡ₚ one_to (S (length (str_of_string "banana"))) /\
    NoDup out /\
    forall k, k ∈ out <-> 1 <= k <= Z.of_nat (length (str_of_string "banana")) + 1.
Proof.
  apply suffix_order_permutation;
    [reflexivity | exists (-1); split; [reflexivity|lia] | simpl; lia].
Defined.

(** C4: two instances made for the same text over the alphabet, one
    after the other, both with the default [End] or both with an [End]
    of their own, return the same list, also when the first is walked
    after the second was made. *)
Theorem constructions_agree text fuel w :
  valid_input text = true -> loaded w -> (length text + 3 <= fuel)%nat ->
  exists out,
    value (two_instances fuel (Ukkonen_default fuel text) w) = Ok (out, out) /\
    value (two_instances fuel (Ukkonen_fresh fuel text) w) = Ok (out, out).
Proof.
  intros Hv Hw Hf. exists (sorted_suffix_offsets (text ++ [dollar])). split.
  - destruct (two_instances_spec text fuel loaded (Ukkonen_default fuel text) w)
      as [w2 ->]; [by apply Ukkonen_default_constructs|assumption|lia|reflexivity].
  - destruct (two_instances_spec text fuel (fun _ => True) (Ukkonen_fresh fuel text) w)
      as [w2 ->]; [by apply Ukkonen_fresh_constructs|exact I|lia|reflexivity].
Qed.

Lemma constructions_agree_witness :
  exists out,
    value (two_instances 9 (Ukkonen_default 9 (str_of_string "banana")) world0)
    = Ok (out, out) /\
    value (two_instances 9 (Ukkonen_fresh 9 (str_of_string "banana")) world0)
    = Ok (out, out).
Proof.
  apply constructions_agree;
    [reflexivity | exists (-1); split; [reflexivity|lia] | simpl; lia].
Defined.

(** C8: for a text over the alphabet, the construction returns: with
    [len(text) + 3] or more iterations allowed to each of its loops (the
    loop over the phases, the loop over the suffixes of a phase, and the
    loop of each call of [skip_count]), none of them runs out. *)
Theorem construction_terminates text e w E fuel :
  valid_input text = true -> ends w !! e = Some E -> -1 <= E ->
  (length text + 3 <= fuel)%nat ->
  exists u w1, Ukkonen_init fuel text e w = Ok (u, w1).
Proof.
  intros Hv HE HE1 Hf.
  destruct (Ukkonen_init_spec text Hv fuel e w E HE HE1) as (u & w1 & Hrun & _).
  { rewrite length_app. simpl. lia. }
  eauto.
Qed.

Lemma construction_terminates_witness :
  exists u w1, Ukkonen_init 9 (str_of_string "banana") default_End world0 = Ok (u, w1).
Proof.
  apply (construction_terminates _ _ _ (-1)); [reflexivity | reflexivity | lia | simpl; lia].
Defined.

(** C3, as the code has it: there is no validation. A text whose first
    character outside the alphabet is above ['~'] makes the construction
    raise [IndexError], from the indexing of the child slots, in the phase
    of that character, after the tree of the characters before it was
    built. *)
Theorem symbol_above_alphabet_raises pre c rest e w E fuel :
  valid_input pre = true -> 126 < c ->
  ends w !! e = Some E -> -1 <= E -> (length pre + 2 <= fuel)%nat ->
  valid_input (pre ++ c :: rest) = false /\
  Ukkonen_init fuel (pre ++ c :: rest) e w = Raise IndexError.
Proof.
  intros Hv Hc HE HE1 Hf. split.
  - unfold valid_input. rewrite forallb_app. cbn [forallb]. unfold in_alphabet at 2.
    destruct (Z.leb_spec c 126); [lia|]. by rewrite andb_false_r, andb_false_r.
  - by apply (Ukkonen_init_above pre rest c Hv Hc fuel e w E).
Qed.

Lemma symbol_above_alphabet_raises_witness :
  valid_input (str_of_string "ab" ++ 127 :: str_of_string "c") = false /\
  Ukkonen_init 4 (str_of_string "ab" ++ 127 :: str_of_string "c") default_End world0
  = Raise IndexError.
Proof.
  apply (symbol_above_alphabet_raises _ _ _ _ _ (-1));
    [reflexivity | lia | reflexivity | lia | simpl; lia].
Defined.

(** ** Further properties *)

(** X1: a node has 91 slots, [node[k]] and [node[k] = v] take [k] from
    -91 to 90 and raise [IndexError] outside; after [node[k] = v],
    [node[k]] is [v], the other slots and the other objects are as they
    were; a negative [k] names the slot [k + 91]. *)
Theorem Node_slot_assignment a nd w k v :
  nodes w !! a = Some nd -> length (child_nodes nd) = 91%nat ->
  (-91 <= k <= 90 ->
   exists w1,
     Node_setitem a k v w = Ok (tt, w1) /\
     nodes w1 = <[a:=set_child_nodes nd (<[Z.to_nat (k mod 91):=v]> (child_nodes nd))]> (nodes w) /\
     ends w1 = ends w /\
     Node_getitem a k w1 = Ok (v, w1) /\
     forall k', -91 <= k' <= 90 -> k' mod 91 <> k mod 91 ->
       value (Node_getitem a k' w1) = value (Node_getitem a k' w)) /\
  (k < -91 \/ 90 < k ->
   Node_setitem a k v w = Raise IndexError /\ Node_getitem a k w = Raise IndexError) /\
  (-91 <= k < 0 -> Node_getitem a k w = Node_getitem a (k + 91) w).
Proof.
  intros Hn Hl. split; [|split].
  - intros Hk.
    set (nd1 := set_child_nodes nd (<[Z.to_nat (k mod 91):=v]> (child_nodes nd))).
    set (w1 := mkWorld (<[a:=nd1]> (nodes w)) (ends w)).
    assert (Hn1 : nodes w1 !! a = Some nd1).
    { apply list_lookup_insert_eq. eapply lookup_lt_Some; eauto. }
    assert (Hset : py_setitem (child_nodes nd) k v
                   = Ok (<[Z.to_nat (k mod 91):=v]> (child_nodes nd))).
    { rewrite py_setitem_in_range by (rewrite Hl; lia). by rewrite Hl. }
    exists w1. split; [|split; [reflexivity|split; [reflexivity|split]]].
    + unfold Node_setitem. rewrite (bind_eq _ _ _ _ _ (get_node_eq _ _ _ Hn)).
      rewrite (bind_lift_Ok _ _ _ _ Hset). unfold put_node. by rewrite Hn.
    + eapply Node_getitem_eq; [exact Hn1|]. by apply (py_index_setitem (child_nodes nd)).
    + intros k' Hk' Hne. unfold Node_getitem.
      rewrite (bind_eq _ _ _ _ _ (get_node_eq _ _ _ Hn1)).
      rewrite (bind_eq _ _ _ _ _ (get_node_eq _ _ _ Hn)).
      destruct (py_index_in_range (child_nodes nd) k') as (x & Hx & ->); [rewrite Hl; lia|].
      destruct (py_index_in_range (child_nodes nd1) k') as (x1 & Hx1 & ->).
      { cbn. rewrite length_insert, Hl. lia. }
      cbn in Hx1. rewrite length_insert, Hl in Hx1. rewrite Hl in Hx.
      rewrite list_lookup_insert_ne in Hx1.
      * simpl. congruence.
      * pose proof (Z.mod_pos_bound k 91 ltac:(lia)).
        pose proof (Z.mod_pos_bound k' 91 ltac:(lia)). lia.
  - intros Hk. split.
    + unfold Node_setitem. rewrite (bind_eq _ _ _ _ _ (get_node_eq _ _ _ Hn)).
      unfold py_setitem. rewrite py_norm_out_of_range by (rewrite Hl; lia). reflexivity.
    + unfold Node_getitem. rewrite (bind_eq _ _ _ _ _ (get_node_eq _ _ _ Hn)).
      unfold py_index. rewrite py_norm_out_of_range by (rewrite Hl; lia). reflexivity.
  - intros Hk. unfold Node_getitem, bind. rewrite (get_node_eq _ _ _ Hn).
    unfold py_index. rewrite !py_norm_in_range by (rewrite Hl; lia).
    rewrite Hl. change (Z.of_nat 91) with 91.
    replace (k + 91) with (k + 1 * 91) by lia. by rewrite Z_mod_plus_full.
Qed.

Lemma Node_slot_assignment_witness :
  (-91 <= -4 <= 90 ->
   exists w1,
     Node_setitem 0%nat (-4) (Some 7%nat) one_node = Ok (tt, w1) /\
     nodes w1 = <[0%nat:=set_child_nodes
                          (mkNode None 0 (EndRef 0%nat) None [] None false empty_slots)
                          (<[Z.to_nat (-4 mod 91):=Some 7%nat]> empty_slots)]> (nodes one_node) /\
     ends w1 = ends one_node /\
     Node_getitem 0%nat (-4) w1 = Ok (Some 7%nat, w1) /\
     forall k', -91 <= k' <= 90 -> k' mod 91 <> -4 mod 91 ->
       value (Node_getitem 0%nat k' w1) = value (Node_getitem 0%nat k' one_node)) /\
  (-4 < -91 \/ 90 < -4 ->
   Node_setitem 0%nat (-4) (Some 7%nat) one_node = Raise IndexError /\
   Node_getitem 0%nat (-4) one_node = Raise IndexError) /\
  (-91 <= -4 < 0 -> Node_getitem 0%nat (-4) one_node = Node_getitem 0%nat (-4 + 91) one_node).
Proof.
  apply (Node_slot_assignment 0%nat
           (mkNode None 0 (EndRef 0%nat) None [] None false empty_slots) one_node (-4)
           (Some 7%nat)); reflexivity.
Defined.



(** X3: for a text over the alphabet, the first entry of the list that
    [Ukkonen(text).get_suffix_tree()] returns is [len(text) + 1], the
    start of the suffix that is the terminator alone. *)
Theorem suffix_order_starts_with_terminator text fuel w :
  valid_input text = true -> loaded w -> (length text + 3 <= fuel)%nat ->
  exists rest,
    value (suffix_order fuel text w) = Ok ((Z.of_nat (length text) + 1) :: rest).
Proof.
  intros Hv Hw Hf. destruct (suffix_order_spec text Hv fuel w Hw Hf) as [w1 Hrun].
  destruct (sorted_suffix_offsets_head text Hv) as [rest Hrest].
  exists rest. by rewrite Hrun, Hrest.
Qed.

Lemma suffix_order_starts_with_terminator_witness :
  exists rest,
    value (suffix_order 9 (str_of_string "banana") world0)
    = Ok ((Z.of_nat (length (str_of_string "banana")) + 1) :: rest).
Proof.
  apply suffix_order_starts_with_terminator;
    [reflexivity | exists (-1); split; [reflexivity|lia] | simpl; lia].
Defined.

(** X4: an instance made with an [End] of its own, [Ukkonen(text, End())],
    for any text: when the construction returns, the new [End] stands at
    [len(text) + 1], and every [End] that was there before, the default
    one included, has the value it had. *)
Theorem own_End_is_private fuel text w u w1 :
  Ukkonen_fresh fuel text w = Ok (u, w1) ->
  end_obj u = length (ends w) /\
  ends w1 !! end_obj u = Some (Z.of_nat (length text) + 1) /\
  length (ends w1) = S (length (ends w)) /\
  forall e, (e < length (ends w))%nat -> ends w1 !! e = ends w !! e.
Proof.
  intros H. unfold Ukkonen_fresh in H.
  apply bind_Ok in H as (e & w0 & Hnew & H). unfold End_new in Hnew.
  inversion Hnew; subst e w0; clear Hnew.
  pose proof (Ukkonen_init_ends _ _ _ _ _ _ (-1) H) as [He Hv].
  { simpl. rewrite lookup_app_r by lia. by rewrite Nat.sub_diag. }
  apply Ukkonen_init_other_ends in H as [Hl Ho]. simpl in Hl, Ho.
  rewrite length_app in Hl. simpl in Hl.
  split; [exact He|]. split; [rewrite He, Hv; f_equal; lia|]. split; [lia|].
  intros e' He'. rewrite Ho by lia. by apply lookup_app_l.
Qed.

Lemma own_End_is_private_witness :
  end_obj (fst tree_a_own) = length (ends world0) /\
  ends (snd tree_a_own) !! end_obj (fst tree_a_own)
  = Some (Z.of_nat (length (str_of_string "a")) + 1) /\
  length (ends (snd tree_a_own)) = S (length (ends world0)) /\
  forall e, (e < length (ends world0))%nat -> ends (snd tree_a_own) !! e = ends world0 !! e.
Proof.
  apply (own_End_is_private 10 (str_of_string "a") world0). vm_compute. reflexivity.
Defined.

(** X5: for any text, when the construction returns it has made at most
    [2 * len(text) + 3] nodes, at most [len(text) + 1] of them leaves, and
    the nodes that were there before are leaves or not as they were. *)
Theorem construction_allocates_linearly fuel text e w u w1 :
  Ukkonen_init fuel text e w = Ok (u, w1) ->
  (length (nodes w) < length (nodes w1) <= length (nodes w) + (2 * length text + 3))%nat /\
  (count_leaves w <= count_leaves w1 <= count_leaves w + (length text + 1))%nat /\
  forall a nd, nodes w !! a = Some nd ->
    exists nd1, nodes w1 !! a = Some nd1 /\ leaf_node nd1 = leaf_node nd.
Proof.
  intros H. apply Ukkonen_init_flags in H as (new & Hf & Hc & Hl).
  pose proof (f_equal length Hf) as Hlen.
  rewrite length_app, !length_flags in Hlen. simpl in Hlen.
  split; [lia|]. split.
  - rewrite !count_leaves_flags, Hf, count_true_app.
    change (false :: new) with ([false] ++ new). rewrite count_true_app.
    change (count_true [false]) with 0%nat. lia.
  - intros a nd Hn.
    assert (Ha : flags w1 !! a = Some (leaf_node nd)).
    { rewrite Hf. apply lookup_app_l_Some. unfold flags.
      change (map leaf_node (nodes w)) with (leaf_node <$> nodes w).
      by rewrite list_lookup_fmap, Hn. }
    unfold flags in Ha. change (map leaf_node (nodes w1)) with (leaf_node <$> nodes w1) in Ha.
    rewrite list_lookup_fmap in Ha. destruct (nodes w1 !! a) as [nd1|]; [|discriminate].
    exists nd1. split; [reflexivity|]. simpl in Ha. congruence.
Qed.

Lemma construction_allocates_linearly_witness :
  (length (nodes world0) < length (nodes (snd tree_a))
   <= length (nodes world0) + (2 * length (str_of_string "a") + 3))%nat /\
  (count_leaves world0 <= count_leaves (snd tree_a)
   <= count_leaves world0 + (length (str_of_string "a") + 1))%nat /\
  forall a nd, nodes world0 !! a = Some nd ->
    exists nd1, nodes (snd tree_a) !! a = Some nd1 /\ leaf_node nd1 = leaf_node nd.
Proof.
  apply (construction_allocates_linearly 10 (str_of_string "a") default_End world0 (fst tree_a)).
  vm_compute. reflexivity.
Defined.

(** X6: in every state of the construction, for any text, and in the
    finished tree: every node of the tree has its 91 slots and never got
    an [incoming] or a [connected_to]; a leaf has its [j] and no child; a
    node that is no leaf (the root is none) has no [j]; the active node is
    no leaf; and [previous_node] is [None]. *)
Theorem nodes_keep_their_shape e w0 text self w :
  constructing e w0 (text ++ [dollar]) self w \/
  (exists fuel, Ukkonen_init fuel text e w0 = Ok (self, w)) ->
  previous_node self = None /\
  (exists a nd, active_node self = Some a /\ nodes w !! a = Some nd /\ leaf_node nd = false) /\
  (exists nd, nodes w !! root self = Some nd /\ leaf_node nd = false) /\
  forall a nd, (root self <= a)%nat -> nodes w !! a = Some nd ->
    length (child_nodes nd) = 91%nat /\ incoming nd = None /\ connected_to nd = [] /\
    (leaf_node nd = true -> j nd <> None /\ child_nodes nd = replicate 91 None) /\
    (leaf_node nd = false -> j nd = None).
Proof.
  intros H.
  assert (Hc : constructing e w0 (text ++ [dollar]) self w).
  { destruct H as [H|[fuel H]]; [assumption|]. eapply Ukkonen_init_constructing; eauto. }
  apply constructing_shaped in Hc as (Hp & Hs & Hr & (a & Ha & Haf)).
  split; [exact Hp|]. split; [|split].
  - apply flags_lookup in Haf as (nd & Hn & Hlf). eauto.
  - by apply flags_lookup in Hr.
  - intros b nd Hb Hn. exact (Hs b nd Hb Hn).
Qed.

Lemma nodes_keep_their_shape_witness :
  previous_node (fst tree_a) = None /\
  (exists a nd, active_node (fst tree_a) = Some a /\ nodes (snd tree_a) !! a = Some nd /\
                leaf_node nd = false) /\
  (exists nd, nodes (snd tree_a) !! root (fst tree_a) = Some nd /\ leaf_node nd = false) /\
  forall a nd, (root (fst tree_a) <= a)%nat -> nodes (snd tree_a) !! a = Some nd ->
    length (child_nodes nd) = 91%nat /\ incoming nd = None /\ connected_to nd = [] /\
    (leaf_node nd = true -> j nd <> None /\ child_nodes nd = replicate 91 None) /\
    (leaf_node nd = false -> j nd = None).
Proof.
  apply (nodes_keep_their_shape default_End world0 (str_of_string "a")).
  right. exists 10%nat. vm_compute. reflexivity.
Defined.

(** X7: for any text, in or out of the alphabet, when the construction
    has returned the walk of its tree raises no exception: with any fuel,
    [get_suffix_tree] returns a list and leaves the store as it is, or it
    runs out of fuel. *)
Theorem get_suffix_tree_never_raises fuel0 text e w0 self w fuel :
  Ukkonen_init fuel0 text e w0 = Ok (self, w) ->
  get_suffix_tree fuel self w = OutOfFuel \/
  exists out, get_suffix_tree fuel self w = Ok (out, w).
Proof.
  intros H. apply Ukkonen_init_constructing in H.
  pose proof (constructing_owned _ _ _ _ _ H) as [Hown _].
  apply constructing_shaped in H as (_ & Hs & _).
  apply (walks_aux self w Hown Hs). destruct Hown as (Hr & _). lia.
Qed.

Lemma get_suffix_tree_never_raises_witness :
  get_suffix_tree 10 (fst tree_a) (snd tree_a) = OutOfFuel \/
  exists out, get_suffix_tree 10 (fst tree_a) (snd tree_a) = Ok (out, snd tree_a).
Proof.
  apply (get_suffix_tree_never_raises 10 (str_of_string "a") default_End world0).
  vm_compute. reflexivity.
Defined.

(** X8: for a text over the alphabet the construction returns with
    exactly [len(text) + 1] new leaves in the store, one for each suffix of
    [text + '$'], the root, and at most [len(text) + 1] other new nodes. *)
Theorem one_leaf_for_each_suffix text fuel e w E :
  valid_input text = true ->
  ends w !! e = Some E -> -1 <= E -> (length text + 3 <= fuel)%nat ->
  exists self w1,
    Ukkonen_init fuel text e w = Ok (self, w1) /\
    count_leaves w1 = (count_leaves w + (length text + 1))%nat /\
    (length (nodes w) + (length text + 2) <= length (nodes w1)
     <= length (nodes w) + (2 * length text + 3))%nat.
Proof.
  intros Hv HE HE1 Hf.
  destruct (Ukkonen_init_leaves text fuel e w E Hv HE HE1 Hf)
    as (self & w1 & new & Hrun & Hfl & Hc).
  exists self, w1. split; [exact Hrun|].
  pose proof (construction_allocates_linearly_bound _ _ _ _ _ _ Hrun) as Hub.
  pose proof (f_equal length Hfl) as Hlen.
  rewrite length_app, !length_flags in Hlen. simpl in Hlen.
  assert (Hcl : (count_true new <= length new)%nat)
    by (unfold count_true; apply length_filter).
  split; [|lia].
  rewrite !count_leaves_flags, Hfl, count_true_app.
  change (false :: new) with ([false] ++ new). rewrite count_true_app.
  change (count_true [false]) with 0%nat. lia.
Qed.

Lemma one_leaf_for_each_suffix_witness :
  exists self w1,
    Ukkonen_init 9 (str_of_string "banana") default_End world0 = Ok (self, w1) /\
    count_leaves w1 = (count_leaves world0 + (length (str_of_string "banana") + 1))%nat /\
    (length (nodes world0) + (length (str_of_string "banana") + 2) <= length (nodes w1)
     <= length (nodes world0) + (2 * length (str_of_string "banana") + 3))%nat.
Proof.
  apply (one_leaf_for_each_suffix _ _ _ _ (-1)); [reflexivity|reflexivity|lia|simpl; lia].
Defined.

(** X9: Extension Rule 2, no edge.  When the slot of the active node for
    the character at the active point is [None], the pass of the inner
    loop makes one leaf with [start = i - active_length], the [End] of the
    instance, [j] and the root as its suffix link, puts it in that slot
    (the one that Python's indexing gives for [ord(char) - 36]), changes
    nothing else in the store, counts [j] up and goes to the suffix link of
    the active node. *)
Theorem new_leaf_extension fuel self text i j w a0 node self1 c an nd :
  let self0 :=
    if same_node (active_node self) (root self)
    then set_active_length self (i - j) else self in
  active_node self0 = Some a0 ->
  skip_count fuel self0 text i a0 (active_length self0) w = Ok ((node, self1), w) ->
  py_index text (i - active_length self1) = Ok c ->
  active_node self1 = Some an ->
  nodes w !! an = Some nd ->
  py_index (child_nodes nd) (c - 36) = Ok None ->
  exists p,
    py_norm (Z.of_nat (length (child_nodes nd))) (c - 36) = Some p /\
    child_nodes nd !! p = Some None /\
    extension fuel self text i j w
    = Ok ((true, j + 1, set_active_node self1 (suffix_link nd)),
          with_child w an nd p
            (mkNode None (i - active_length self1) (EndRef (end_obj self1))
                    (Some (root self1)) [] (Some j) true (replicate 91 None))).
Proof.
  intros self0 Ha0 Hskip Hc Han Hn Hslot.
  destruct (new_leaf_forward self1 i j an (c - 36) nd None w Hn Hslot) as (p & Hpn & Hp & Hnew).
  exists p. split; [exact Hpn|]. split; [exact Hp|].
  unfold extension. fold self0. rewrite Ha0. cbn [the_node]. rewrite bind_ret.
  mstep Hskip. cbn [snd]. mlift Hc. rewrite Han. cbn [the_node]. rewrite bind_ret.
  mstep (Node_getitem_eq _ _ _ _ _ Hn Hslot). rewrite bind_assoc. mstep Hnew.
  rewrite bind_ret. cbv iota. rewrite bind_ret.
  assert (Hlt : (an < length (nodes w))%nat) by (eapply lookup_lt_Some; eauto).
  assert (Hn1 : nodes (with_child w an nd p
                  (mkNode None (i - active_length self1) (EndRef (end_obj self1))
                          (Some (root self1)) [] (Some j) true empty_slots)) !! an
                = Some (set_child_nodes nd (<[p:=Some (length (nodes w))]> (child_nodes nd)))).
  { unfold with_child. cbn [nodes]. rewrite lookup_app_l by (rewrite length_insert; lia).
    by apply list_lookup_insert_eq. }
  mstep (get_node_eq _ _ _ Hn1). reflexivity.
Qed.

Lemma new_leaf_extension_witness :
  exists p,
    py_norm (Z.of_nat (length (child_nodes ab_root))) (98 - 36) = Some p /\
    child_nodes ab_root !! p = Some None /\
    extension 10 (fst ab_phase2) (str_of_string "ab$") 2 1 (snd ab_phase2)
    = Ok ((true, 1 + 1, set_active_node ab_skipped (suffix_link ab_root)),
          with_child (snd ab_phase2) 0%nat ab_root p
            (mkNode None (2 - active_length ab_skipped) (EndRef (end_obj ab_skipped))
                    (Some (root ab_skipped)) [] (Some 1) true (replicate 91 None))).
Proof.
  apply (new_leaf_extension 10 (fst ab_phase2) (str_of_string "ab$") 2 1 (snd ab_phase2)
           0%nat 0%nat ab_skipped 98 0%nat ab_root); vm_compute; reflexivity.
Defined.

(** X10: Extension Rule 2, split of an edge.  When the slot of the active
    node holds a node and the character of the phase differs from the one
    on its edge at the active length, the pass of the inner loop makes two
    nodes: an internal one with the start of the old node, the integer end
    [start + active_length - 1] and the root as its suffix link, which
    takes the place of the old node in the slot; and a leaf with
    [start = i - 1], the [End] of the instance and [j].  The internal node
    gets the old node, whose start moves on by [active_length - 1], and
    the leaf as its children.  Nothing else in the store changes; [j] is
    counted up and the active node becomes its suffix link. *)
Theorem split_edge_extension fuel self text i j w a0 node self1 c an nd p ae ed x y q1 q2 :
  let self0 :=
    if same_node (active_node self) (root self)
    then set_active_length self (i - j) else self in
  active_node self0 = Some a0 ->
  skip_count fuel self0 text i a0 (active_length self0) w = Ok ((node, self1), w) ->
  py_index text (i - active_length self1) = Ok c ->
  active_node self1 = Some an ->
  nodes w !! an = Some nd ->
  py_norm (Z.of_nat (length (child_nodes nd))) (c - 36) = Some p ->
  child_nodes nd !! p = Some (Some ae) ->
  nodes w !! ae = Some ed -> ae <> an ->
  py_index text (i - 1) = Ok x ->
  py_index text (start ed + active_length self1 - 1) = Ok y ->
  x <> y ->
  py_norm 91 (y - 36) = Some q1 -> py_norm 91 (x - 36) = Some q2 ->
  extension fuel self text i j w
  = Ok ((true, j + 1, set_active_node self1 (suffix_link nd)),
        with_split w an nd p ae ed (active_length self1 - 1)
          (mkNode None (start ed) (EndInt (start ed + active_length self1 - 1))
                  (Some (root self1)) [] None false
                  (<[q2:=Some (S (length (nodes w)))]> (<[q1:=Some ae]> (replicate 91 None))))
          (mkNode None (i - 1) (EndRef (end_obj self1)) (Some (root self1)) [] (Some j)
                  true (replicate 91 None))).
Proof.
  intros self0 Ha0 Hskip Hc Han Hn Hp Hslot He Hne Hx Hy Hxy Hq1 Hq2.
  pose proof (split_edge_forward self1 text i j an (c - 36) nd p ae ed x y q1 q2 w
                Hn Hp He Hne Hx Hy Hq1 Hq2) as Hsplit.
  unfold extension. fold self0. rewrite Ha0. cbn [the_node]. rewrite bind_ret.
  mstep Hskip. cbn [snd]. mlift Hc. rewrite Han. cbn [the_node]. rewrite bind_ret.
  mstep (Node_getitem_eq _ _ _ _ _ Hn (py_index_norm _ _ _ _ Hp Hslot)).
  rewrite bind_assoc. mlift Hx. rewrite bind_assoc. mstep (get_start_eq _ _ _ He).
  rewrite bind_assoc. mlift Hy.
  assert (Hneq : (x =? y) = false) by (apply Z.eqb_neq; exact Hxy).
  rewrite Hneq. cbn [negb]. rewrite bind_assoc. mstep Hsplit.
  rewrite bind_ret. cbv iota. rewrite bind_ret.
  assert (Hlt : (an < length (nodes w))%nat) by (eapply lookup_lt_Some; eauto).
  match goal with |- bind (get_node an) _ ?W = _ => set (w7 := W) end.
  assert (Hn7 : nodes w7 !! an
                = Some (set_child_nodes nd (<[p:=Some (length (nodes w))]> (child_nodes nd)))).
  { unfold w7, with_split. cbn [nodes].
    rewrite lookup_app_l by (rewrite !length_insert; lia).
    rewrite list_lookup_insert_ne by congruence.
    by apply list_lookup_insert_eq. }
  mstep (get_node_eq _ _ _ Hn7). reflexivity.
Qed.

Lemma split_edge_extension_witness :
  extension 10 (fst aab_phase3) (str_of_string "aab$") 3 1 (snd aab_phase3)
  = Ok ((true, 1 + 1, set_active_node (snd aab_skipped) (suffix_link (aab_node 0%nat))),
        with_split (snd aab_phase3) 0%nat (aab_node 0%nat) 61%nat 1%nat (aab_node 1%nat)
          (active_length (snd aab_skipped) - 1)
          (mkNode None (start (aab_node 1%nat))
                  (EndInt (start (aab_node 1%nat) + active_length (snd aab_skipped) - 1))
                  (Some (root (snd aab_skipped))) [] None false
                  (<[62%nat:=Some (S (length (nodes (snd aab_phase3))))]>
                     (<[61%nat:=Some 1%nat]> (replicate 91 None))))
          (mkNode None (3 - 1) (EndRef (end_obj (snd aab_skipped)))
                  (Some (root (snd aab_skipped))) [] (Some 1) true (replicate 91 None))).
Proof.
  apply (split_edge_extension 10 (fst aab_phase3) (str_of_string "aab$") 3 1 (snd aab_phase3)
           0%nat (fst aab_skipped) (snd aab_skipped) 97 0%nat (aab_node 0%nat) 61%nat
           1%nat (aab_node 1%nat) 98 97 61%nat 62%nat);
    try (vm_compute; reflexivity); vm_compute; discriminate.
Defined.

(** X11: for any text, in or out of the alphabet, and any [End] object,
    the construction [Ukkonen(text, end)] returns, or raises [IndexError],
    or is still running when the fuel is used up: it raises no other
    exception, and it follows no reference that is not in the store. *)
Theorem construction_raises_only_IndexError fuel text (e : addr) w :
  (e < length (ends w))%nat ->
  (exists self w1, Ukkonen_init fuel text e w = Ok (self, w1)) \/
  Ukkonen_init fuel text e w = Raise IndexError \/
  Ukkonen_init fuel text e w = OutOfFuel.
Proof.
  intros He. pose proof (Ukkonen_init_safe fuel text e w He) as H.
  destruct (Ukkonen_init fuel text e w) as [[self w1]|[]| |]; simpl in H; try contradiction; eauto.
Qed.

Lemma construction_raises_only_IndexError_witness :
  (exists self w1,
     Ukkonen_init 10 (str_of_string "~a") default_End world0 = Ok (self, w1)) \/
  Ukkonen_init 10 (str_of_string "~a") default_End world0 = Raise IndexError \/
  Ukkonen_init 10 (str_of_string "~a") default_End world0 = OutOfFuel.
Proof.
  apply (construction_raises_only_IndexError 10 (str_of_string "~a") default_End world0).
  unfold default_End, world0. simpl. lia.
Defined.

(** X12: for any text, in or out of the alphabet,
    [Ukkonen(text).get_suffix_tree()] returns a list, or raises
    [IndexError] (in the construction), or is still running when the fuel
    is used up; it raises no other exception. *)
Theorem suffix_order_raises_only_IndexError fuel text w :
  (default_End < length (ends w))%nat ->
  (exists out, value (suffix_order fuel text w) = Ok out) \/
  value (suffix_order fuel text w) = Raise IndexError \/
  value (suffix_order fuel text w) = OutOfFuel.
Proof.
  intros He. unfold suffix_order, Ukkonen_default.
  pose proof (Ukkonen_init_safe fuel text default_End w He) as H.
  destruct (Ukkonen_init fuel text default_End w) as [[self w1]|[]| |] eqn:E;
    simpl in H; try contradiction.
  - mstep E. apply Ukkonen_init_constructing in E.
    pose proof (constructing_owned _ _ _ _ _ E) as [Hown _].
    apply constructing_shaped in E as (_ & Hs & _).
    destruct (walks_aux self w1 Hown Hs fuel (root self) []) as [Hw|[out Hw]].
    + destruct Hown as (Hr & _). lia.
    + right; right. unfold get_suffix_tree. by rewrite Hw.
    + left. exists out. unfold get_suffix_tree. by rewrite Hw.
  - right; left. unfold bind. by rewrite E.
  - right; right. unfold bind. by rewrite E.
Qed.

Lemma suffix_order_raises_only_IndexError_witness :
  (exists out, value (suffix_order 10 (str_of_string "a b") world0) = Ok out) \/
  value (suffix_order 10 (str_of_string "a b") world0) = Raise IndexError \/
  value (suffix_order 10 (str_of_string "a b") world0) = OutOfFuel.
Proof.
  apply (suffix_order_raises_only_IndexError 10 (str_of_string "a b") world0).
  unfold default_End, world0. simpl. lia.
Defined.

(** X13: [skip_count] only moves the active point.  For any store and
    any arguments, when it returns, no node and no [End] has changed, and
    the root, the [End] and [previous_node] of the instance are as they
    were; with [a_length = 0] it returns the node it was given and leaves
    the instance as it was. *)
Theorem skip_count_moves_only_the_active_point fuel self text cp a_node a_length w node self1 w1 :
  skip_count fuel self text cp a_node a_length w = Ok ((node, self1), w1) ->
  w1 = w /\ root self1 = root self /\ end_obj self1 = end_obj self /\
  previous_node self1 = previous_node self /\
  (a_length = 0 -> node = a_node /\ self1 = self).
Proof.
  intros H. split; [exact (read_only_skip_count _ _ _ _ _ _ _ _ _ H)|].
  pose proof (skip_count_attrs _ _ _ _ _ _ _ _ _ _ H) as (Hr & He & Hp).
  split; [exact Hr|]. split; [exact He|]. split; [exact Hp|].
  intros ->. destruct fuel as [|fuel]; simpl in H; [discriminate|].
  rewrite bind_ret in H. cbv iota in H. inversion H. auto.
Qed.

Lemma skip_count_moves_only_the_active_point_witness :
  snd ab_phase2 = snd ab_phase2 /\
  root ab_skipped = root (set_active_length (fst ab_phase2) 1) /\
  end_obj ab_skipped = end_obj (set_active_length (fst ab_phase2) 1) /\
  previous_node ab_skipped = previous_node (set_active_length (fst ab_phase2) 1) /\
  (1 = 0 -> 0%nat = 0%nat /\ ab_skipped = set_active_length (fst ab_phase2) 1).
Proof.
  apply (skip_count_moves_only_the_active_point 10 (set_active_length (fst ab_phase2) 1)
           (str_of_string "ab$") 2 0%nat 1 (snd ab_phase2) 0%nat ab_skipped (snd ab_phase2)).
  vm_compute. reflexivity.
Defined.

(** X14: the shared end.  One call of [extend] on an [End] makes every
    node whose [end] is that [End] longer by one: its [get_length] goes
    from [E - start] to [E + 1 - start].  A node whose [end] is an integer
    or another [End] has the length it had, and no node changes. *)
Theorem extend_lengthens_the_leaves (e : addr) w E (a : addr) nd :
  ends w !! e = Some E -> nodes w !! a = Some nd ->
  exists w1,
    extend e w = Ok (tt, w1) /\ nodes w1 = nodes w /\
    (end_ nd = EndRef e ->
     get_length a w = Ok (E - start nd, w) /\ get_length a w1 = Ok (E + 1 - start nd, w1)) /\
    (forall e', end_ nd = EndRef e' -> e' <> e ->
       value (get_length a w1) = value (get_length a w)) /\
    (forall z, end_ nd = EndInt z ->
       get_length a w = Ok (z - start nd, w) /\ get_length a w1 = Ok (z - start nd, w1)).
Proof.
  intros HE Hn. eexists. split; [by apply extend_run|]. split; [reflexivity|].
  set (w1 := mkWorld (nodes w) (<[e:=E + 1]> (ends w))).
  assert (Hn1 : nodes w1 !! a = Some nd) by exact Hn.
  assert (He : (e < length (ends w))%nat) by (eapply lookup_lt_Some; eauto).
  split; [|split].
  - intros Hend. split; [by apply (get_length_leaf a w nd e)|].
    apply (get_length_leaf a w1 nd e); [exact Hn1 | exact Hend|].
    unfold w1. cbn [ends]. by apply list_lookup_insert_eq.
  - intros e' Hend Hne.
    assert (Hv : ends w1 !! e' = ends w !! e').
    { unfold w1. cbn [ends]. apply list_lookup_insert_ne. congruence. }
    unfold get_length, get_end.
    unfold bind at 1. unfold bind at 1. rewrite (get_node_eq _ _ _ Hn1), Hend.
    unfold bind at 2. unfold bind at 2. rewrite (get_node_eq _ _ _ Hn), Hend.
    unfold get_end_pointer. rewrite Hv. destruct (ends w !! e') as [v|]; [|reflexivity].
    rewrite (bind_eq _ _ _ _ _ (get_node_eq _ _ _ Hn1)).
    rewrite (bind_eq _ _ _ _ _ (get_node_eq _ _ _ Hn)). reflexivity.
  - intros z Hend. split; by apply get_length_inner.
Qed.

Lemma extend_lengthens_the_leaves_witness :
  exists w1,
    extend default_End (snd ab_phase2) = Ok (tt, w1) /\ nodes w1 = nodes (snd ab_phase2) /\
    (end_ (ab_leaf) = EndRef default_End ->
     get_length 1%nat (snd ab_phase2) = Ok (2 - start (ab_leaf), snd ab_phase2) /\
     get_length 1%nat w1 = Ok (2 + 1 - start (ab_leaf), w1)) /\
    (forall e', end_ (ab_leaf) = EndRef e' -> e' <> default_End ->
       value (get_length 1%nat w1) = value (get_length 1%nat (snd ab_phase2))) /\
    (forall z, end_ (ab_leaf) = EndInt z ->
       get_length 1%nat (snd ab_phase2) = Ok (z - start (ab_leaf), snd ab_phase2) /\
       get_length 1%nat w1 = Ok (z - start (ab_leaf), w1)).
Proof.
  apply (extend_lengthens_the_leaves default_End (snd ab_phase2) 2 1%nat (ab_leaf));
    vm_compute; reflexivity.
Defined.
